(** * LinkedIn job-application tool: resume analysis, suitability scoring,
      the Easy Apply wizard and the per-run bookkeeping.

    Shallow embedding of [resume_parser.py] (classes [ResumeParser] and
    [JobMatcher]) and of [linkedin_enhanced.py] (class
    [EnhancedLinkedInAutomation]).

    Conventions.
    - Python [str] is [string]; the regular-expression engine works on
      [list ascii].  Text is ASCII: [str.lower] maps A-Z to a-z and leaves
      every other character alone, [\d] is 0-9 and [\s] is the ASCII white
      space recognised by [re].
    - Python [float] scores are exact rationals ([Q]); rounding is not
      modelled.  [int] is unbounded: the interpreter's optional limit on
      the number of digits that [int(str)] accepts is not modelled.
    - A call that can raise returns [exn + A] ([inl msg] is the raised
      exception with [str(e) = msg]); [try]/[except] is [catch].
    - scikit-learn and Selenium are parameters: Section variables that the
      closing of the Section turns into arguments. *)

From Stdlib Require Import List String Ascii Bool Arith ZArith QArith Qminmax.
From Stdlib Require Import Lia Permutation Sorted.
Import ListNotations.

Local Close Scope Q_scope.
Local Open Scope string_scope.
Local Open Scope nat_scope.
Local Open Scope list_scope.

(* ================================================================== *)
(** * Part I.  Definitions *)
(* ================================================================== *)

(** ** Exceptions *)

Definition exn := string.

Definition result (A : Type) : Type := (exn + A)%type.

Definition ret {A} (a : A) : result A := inr a.

Definition raise {A} (e : exn) : result A := inl e.

Definition bind {A B} (m : result A) (f : A -> result B) : result B :=
  match m with
  | inl e => inl e
  | inr a => f a
  end.

(** [try: body / except Exception as e: handler(e)]. *)
Definition catch {A} (body : result A) (handler : exn -> A) : A :=
  match body with
  | inl e => handler e
  | inr a => a
  end.

Notation "x <- m ;; k" := (bind m (fun x => k))
  (at level 61, m at next level, right associativity).

(** ** Strings *)

Module Str.

Definition is_upper (c : ascii) : bool :=
  let n := nat_of_ascii c in (65 <=? n)%nat && (n <=? 90)%nat.

Definition lower_ascii (c : ascii) : ascii :=
  if is_upper c then ascii_of_nat (nat_of_ascii c + 32) else c.

(** [s.lower()] *)
Fixpoint lower (s : string) : string :=
  match s with
  | EmptyString => EmptyString
  | String c s' => String (lower_ascii c) (lower s')
  end.

Fixpoint starts_with (needle hay : string) : bool :=
  match needle, hay with
  | EmptyString, _ => true
  | String a n', String b h' => Ascii.eqb a b && starts_with n' h'
  | String _ _, EmptyString => false
  end.

(** [needle in hay] on two [str] values. *)
Fixpoint occurs_in (needle hay : string) : bool :=
  starts_with needle hay ||
  match hay with
  | EmptyString => false
  | String _ h' => occurs_in needle h'
  end.

(** [needle] occurs in [hay] as a substring. *)
Definition substring (needle hay : string) : Prop :=
  exists pre post, hay = (pre ++ needle ++ post)%string.

(** [sep.join(l)] *)
Fixpoint join (sep : string) (l : list string) : string :=
  match l with
  | [] => ""
  | [x] => x
  | x :: l' => (x ++ sep ++ join sep l')%string
  end.

End Str.

(** ** Regular expressions: the fragment of [re] that the parser uses

    A backtracking matcher with Python's priorities: quantifiers are
    greedy, give characters back one at a time, and the first overall
    success wins.  One capture group (group 1) is tracked. *)

Module Re.

Inductive cset : Type :=
| Lit (c : ascii)                 (* a literal character *)
| Range (lo hi : ascii)           (* [lo-hi] *)
| White                           (* \s *)
| Union (a b : cset).             (* [...ab...] *)

Definition Digit : cset := Range "0" "9".       (* \d *)

Fixpoint mem (p : cset) (c : ascii) : bool :=
  match p with
  | Lit a => Ascii.eqb a c
  | Range lo hi =>
      (nat_of_ascii lo <=? nat_of_ascii c)%nat &&
      (nat_of_ascii c <=? nat_of_ascii hi)%nat
  | White =>
      let n := nat_of_ascii c in
      ((9 <=? n)%nat && (n <=? 13)%nat) ||
      ((28 <=? n)%nat && (n <=? 32)%nat)
  | Union a b => mem a c || mem b c
  end.

Inductive regex : Type :=
| Eps
| Chr (p : cset)                  (* one character of the set *)
| Seq (r1 r2 : regex)
| Opt (r : regex)                 (* r? , greedy *)
| Star (p : cset)                 (* p* , greedy *)
| Group (r : regex)               (* ( r ) , capture group 1 *)
| WordB.                          (* \b *)

Definition Plus (p : cset) : regex := Seq (Chr p) (Star p).   (* p+ *)

Fixpoint Lits (l : list ascii) : regex :=
  match l with
  | [] => Eps
  | c :: l' => Seq (Chr (Lit c)) (Lits l')
  end.

(** A literal word. *)
Definition Word (s : string) : regex := Lits (list_ascii_of_string s).

(** [\w] for the word-boundary test. *)
Definition word_char : cset :=
  Union (Range "a" "z") (Union (Range "A" "Z") (Union Digit (Lit "_"))).

Definition is_word (c : option ascii) : bool :=
  match c with
  | Some a => mem word_char a
  | None => false
  end.

Definition capture := option (list ascii).

Section Matcher.
Context {R : Type}.

(** The continuation receives the character before the current
    position, the rest of the input and the capture. *)
Definition cont := option ascii -> list ascii -> capture -> option R.

Fixpoint star (p : cset) (prev : option ascii) (s : list ascii)
         (g : capture) (k : cont) : option R :=
  match s with
  | c :: s' =>
      if mem p c then
        match star p (Some c) s' g k with
        | Some x => Some x
        | None => k prev s g
        end
      else k prev s g
  | [] => k prev s g
  end.

Fixpoint rmatch (r : regex) (prev : option ascii) (s : list ascii)
         (g : capture) (k : cont) : option R :=
  match r with
  | Eps => k prev s g
  | Chr p =>
      match s with
      | c :: s' => if mem p c then k (Some c) s' g else None
      | [] => None
      end
  | Seq r1 r2 =>
      rmatch r1 prev s g (fun prev1 s1 g1 => rmatch r2 prev1 s1 g1 k)
  | Opt r1 =>
      match rmatch r1 prev s g k with
      | Some x => Some x
      | None => k prev s g
      end
  | Star p => star p prev s g k
  | Group r1 =>
      rmatch r1 prev s g
        (fun prev1 s1 _ =>
           k prev1 s1 (Some (firstn (List.length s - List.length s1) s)))
  | WordB =>
      if xorb (is_word prev) (is_word (hd_error s)) then k prev s g
      else None
  end.
End Matcher.

(** One match object: the matched text and group 1 ([None] when the group
    did not take part in the match). *)
Definition match_obj := (list ascii * capture)%type.

(** [pattern.match] at one position: the character before the end of the
    match, the rest of the input after the match, and group 1. *)
Definition match_at (r : regex) (prev : option ascii) (s : list ascii)
  : option (option ascii * list ascii * capture) :=
  rmatch r prev s None (fun prev' s' g => Some (prev', s', g)).

(** [re.finditer]: leftmost matches, not overlapping; after a match the
    scan resumes where the match ended (one character further after an
    empty match). *)
Fixpoint finditer (r : regex) (fuel : nat) (prev : option ascii)
         (s : list ascii) : list match_obj :=
  match fuel with
  | O => []
  | S fuel' =>
      let skip :=
        match s with
        | [] => []
        | c :: s' => finditer r fuel' (Some c) s'
        end in
      match match_at r prev s with
      | Some (prev', rest, g) =>
          match List.length s - List.length rest with
          | O => ([], g) :: skip
          | S n => (firstn (S n) s, g) :: finditer r fuel' prev' rest
          end
      | None => skip
      end
  end.

Definition group1 (m : match_obj) : string :=
  match snd m with
  | Some c => string_of_list_ascii c
  | None => ""
  end.

Definition matched (m : match_obj) : string :=
  string_of_list_ascii (fst m).

Definition search_all (r : regex) (text : string) : list match_obj :=
  let s := list_ascii_of_string text in
  finditer r (S (List.length s)) None s.

(** [re.findall(pattern, text)] for a pattern with exactly one group: the
    list of the group's texts, the empty string where the group did not
    take part. *)
Definition findall (r : regex) (text : string) : list string :=
  map group1 (search_all r text).

(** [re.findall(pattern, text)] for a pattern without a group: the list
    of the matched texts. *)
Definition findall_whole (r : regex) (text : string) : list string :=
  map matched (search_all r text).

(** *** What a pattern denotes

    [matches r pre g g'] reads: [r] can consume exactly the characters
    [pre], and doing so turns group 1 from [g] into [g'].  The context
    condition of [\b] is not recorded: the relation is used as a
    necessary condition on what the matcher returns. *)
Inductive matches : regex -> list ascii -> capture -> capture -> Prop :=
| m_eps g : matches Eps [] g g
| m_chr p c g : mem p c = true -> matches (Chr p) [c] g g
| m_seq r1 r2 pre1 pre2 g g1 g2 :
    matches r1 pre1 g g1 -> matches r2 pre2 g1 g2 ->
    matches (Seq r1 r2) (pre1 ++ pre2) g g2
| m_opt_some r pre g g' : matches r pre g g' -> matches (Opt r) pre g g'
| m_opt_none r g : matches (Opt r) [] g g
| m_star p pre g : forallb (mem p) pre = true -> matches (Star p) pre g g
| m_group r pre g g' :
    matches r pre g g' -> matches (Group r) pre g (Some pre)
| m_wordb g : matches WordB [] g g.

Fixpoint has_group (r : regex) : bool :=
  match r with
  | Seq r1 r2 => has_group r1 || has_group r2
  | Opt r1 => has_group r1
  | Group _ => true
  | Eps | Chr _ | Star _ | WordB => false
  end.

(** The least number of characters a match of [r] consumes. *)
Fixpoint min_length (r : regex) : nat :=
  match r with
  | Chr _ => 1
  | Seq r1 r2 => min_length r1 + min_length r2
  | Group r1 => min_length r1
  | Eps | Opt _ | Star _ | WordB => 0
  end.

End Re.

(** ** [resume_parser.py]: class [ResumeParser] *)

Module ResumeParser.
Import Re.

(** [self.tech_skills], in insertion order. *)
Definition tech_skills : list (string * list string) :=
  [ ("programming", ["python"; "java"; "javascript"; "c++"; "c#"; "php";
                     "ruby"; "go"; "rust"; "swift"; "kotlin"]);
    ("web", ["html"; "css"; "react"; "angular"; "vue"; "node.js";
             "express"; "django"; "flask"; "spring"]);
    ("database", ["sql"; "mysql"; "postgresql"; "mongodb"; "redis";
                  "elasticsearch"; "oracle"; "sqlite"]);
    ("cloud", ["aws"; "azure"; "gcp"; "docker"; "kubernetes"; "terraform";
               "jenkins"; "ci/cd"]);
    ("data", ["pandas"; "numpy"; "matplotlib"; "scikit-learn";
              "tensorflow"; "pytorch"; "spark"; "hadoop"]);
    ("tools", ["git"; "jira"; "confluence"; "slack"; "trello"; "figma";
               "photoshop"; "excel"]) ].

(** [self.experience_keywords], in insertion order. *)
Definition experience_keywords : list (string * list string) :=
  [ ("junior", ["junior"; "entry"; "associate"; "intern"; "0-2 years";
                "graduate"]);
    ("mid", ["mid"; "intermediate"; "2-5 years"; "3-7 years";
             "experienced"]);
    ("senior", ["senior"; "lead"; "principal"; "5+ years"; "7+ years";
                "expert"; "architect"]) ].

(** [d.get(key)] on a dictionary kept as a list of entries. *)
Fixpoint lookup (key : string) (d : list (string * list string))
  : option (list string) :=
  match d with
  | [] => None
  | (k, v) :: rest => if String.eqb k key then Some v else lookup key rest
  end.

(** The inner loop of [extract_skills]: the skills of one category that
    occur in the text, in catalog order. *)
Fixpoint found_in (text : string) (skill_list : list string)
  : list string :=
  match skill_list with
  | [] => []
  | skill :: rest =>
      if Str.occurs_in skill text
      then skill :: found_in text rest
      else found_in text rest
  end.

(** [extract_skills(text)]: one entry per category of the catalog. *)
Definition extract_skills_from (catalog : list (string * list string))
           (text : string) : list (string * list string) :=
  map (fun entry => (fst entry, found_in text (snd entry))) catalog.

Definition extract_skills (text : string) : list (string * list string) :=
  extract_skills_from tech_skills text.

(** [extract_experience_level(text)]: the first level, in catalog order,
    one of whose keywords occurs in the text. *)
Fixpoint extract_experience_level_from
         (levels : list (string * list string)) (text : string) : string :=
  match levels with
  | [] => "unknown"
  | (level, keywords) :: rest =>
      if existsb (fun keyword => Str.occurs_in keyword text) keywords
      then level
      else extract_experience_level_from rest text
  end.

Definition extract_experience_level (text : string) : string :=
  extract_experience_level_from experience_keywords text.

(** The three patterns of [extract_years_experience]. *)

(** The patterns are quoted in verbose style: blanks between the tokens
    of a pattern are not part of it. *)

(** [\s *] *)
Definition ws : regex := Star White.

(** [years?] *)
Definition years : regex := Seq (Word "year") (Opt (Chr (Lit "s"))).

(** [( \d+ ) \+?] *)
Definition number : regex :=
  Seq (Group (Plus Digit)) (Opt (Chr (Lit "+"))).

(** [(?: of \s * )?] *)
Definition of_ : regex := Opt (Seq (Word "of") ws).

(** [( \d+ ) \+? \s * years? \s * (?: of \s * )? experience] *)
Definition years_pattern_1 : regex :=
  Seq number (Seq ws (Seq years (Seq ws (Seq of_ (Word "experience"))))).

(** [( \d+ ) \+? \s * years? \s * in] *)
Definition years_pattern_2 : regex :=
  Seq number (Seq ws (Seq years (Seq ws (Word "in")))).

(** [experience \s * (?: of \s * )? ( \d+ ) \+? \s * years?] *)
Definition years_pattern_3 : regex :=
  Seq (Word "experience") (Seq ws (Seq of_ (Seq number (Seq ws years)))).

Definition years_patterns : list regex :=
  [years_pattern_1; years_pattern_2; years_pattern_3].

Definition digit_value (c : ascii) : option Z :=
  if mem Digit c then Some (Z.of_nat (nat_of_ascii c - 48)) else None.

Fixpoint int_digits (acc : Z) (l : list ascii) : result Z :=
  match l with
  | [] => ret acc
  | c :: l' =>
      match digit_value c with
      | Some d => int_digits (10 * acc + d)%Z l'
      | None => raise "invalid literal for int() with base 10"
      end
  end.

(** [int(s)].  Only strings of decimal digits are modelled; any other
    argument is a [ValueError] here (the parser passes nothing else, see
    [holds_number]).  This is [int] without the interpreter's limit on
    the number of digits, as after [sys.set_int_max_str_digits(0)]; the
    limit is added in [ResumeParserMore.int_limited]. *)
Definition int (s : string) : result Z :=
  match list_ascii_of_string s with
  | [] => raise "invalid literal for int() with base 10"
  | l => int_digits 0 l
  end.

Fixpoint ints (l : list string) : result (list Z) :=
  match l with
  | [] => ret []
  | s :: l' => n <- int s ;; ns <- ints l' ;; ret (n :: ns)
  end.

(** The list [years] that the loop over the patterns builds. *)
Fixpoint collect_years (patterns : list regex) (text : string)
  : result (list Z) :=
  match patterns with
  | [] => ret []
  | pattern :: rest =>
      ns <- ints (findall pattern text) ;;
      more <- collect_years rest text ;;
      ret (ns ++ more)
  end.

(** Every number that one of the patterns captures in the text, as
    text. *)
Definition year_matches (text : string) : list string :=
  flat_map (fun pattern => findall pattern text) years_patterns.

(** Group 1 holds a number: digits, at least one. *)
Definition holds_number (g : capture) : Prop :=
  exists ds, g = Some ds /\ ds <> [] /\ forallb (mem Digit) ds = true.

Definition all_natural (ns : list Z) : Prop :=
  Forall (fun n => (0 <= n)%Z) ns.

(** [max(l)] on a list that is not empty. *)
Definition max_of (y : Z) (ys : list Z) : Z := fold_left Z.max ys y.

Definition extract_years_experience (text : string) : result Z :=
  years <- collect_years years_patterns text ;;
  match years with
  | [] => ret 0%Z
  | y :: ys => ret (max_of y ys)
  end.

Record contact := {
  email : option string;
  phone : option string
}.

Definition alnum : cset :=
  Union (Range "A" "Z") (Union (Range "a" "z") Digit).

(** [\b [A-Za-z0-9._%+-]+ @ [A-Za-z0-9.-]+ \. [A-Z|a-z]{2,} \b] *)
Definition email_pattern : regex :=
  let user :=
    Union alnum (Union (Lit ".") (Union (Lit "_") (Union (Lit "%")
      (Union (Lit "+") (Lit "-"))))) in
  let host := Union alnum (Union (Lit ".") (Lit "-")) in
  let tld := Union (Range "A" "Z") (Union (Lit "|") (Range "a" "z")) in
  Seq WordB (Seq (Plus user) (Seq (Chr (Lit "@")) (Seq (Plus host)
    (Seq (Chr (Lit ".")) (Seq (Chr tld) (Seq (Plus tld) WordB)))))).

(** [[-.\s]?] *)
Definition sep : regex :=
  Opt (Chr (Union (Lit "-") (Union (Lit ".") White))).

Definition d : regex := Chr Digit.

(** [\+ \d{1,3} [-.\s]?], the country code *)
Definition country_code : regex :=
  Seq (Chr (Lit "+")) (Seq d (Seq (Opt (Seq d (Opt d))) sep)).

(** [\(? \d{3} \)? [-.\s]? \d{3} [-.\s]? \d{4}], the national number *)
Definition national_number : regex :=
  Seq (Opt (Chr (Lit "("))) (Seq d (Seq d (Seq d
    (Seq (Opt (Chr (Lit ")"))) (Seq sep (Seq d (Seq d (Seq d
      (Seq sep (Seq d (Seq d (Seq d d)))))))))))).

(** [( \+ \d{1,3} [-.\s]? )? \(? \d{3} \)? [-.\s]? \d{3} [-.\s]? \d{4}] *)
Definition phone_pattern : regex :=
  Seq (Opt (Group country_code)) national_number.

(** [extract_contact_info(text)].  [phone_pattern] has one group, so
    [re.findall] returns a list of [str] and the [isinstance(phones[0],
    tuple)] test is false: the value stored is [phones[0]]. *)
Definition extract_contact_info (text : string) : contact :=
  let emails := findall_whole email_pattern text in
  let phones := findall phone_pattern text in
  {| email := match emails with [] => None | e :: _ => Some e end;
     phone := match phones with [] => None | p :: _ => Some p end |}.

(** The dictionary that [analyze_resume_text] returns.  The [education]
    entry is left out: no property below reads it. *)
Record resume_data := {
  skills : list (string * list string);
  experience_level : string;
  years_experience : Z;
  contact_info : contact;
  raw_text : string
}.

Definition analyze_resume_text (text : string) : result resume_data :=
  let text_lower := Str.lower text in
  let skills := extract_skills text_lower in
  let experience_level := extract_experience_level text_lower in
  years_experience <- extract_years_experience text_lower ;;
  let contact_info := extract_contact_info text in
  ret {| skills := skills;
         experience_level := experience_level;
         years_experience := years_experience;
         contact_info := contact_info;
         raw_text := text |}.

End ResumeParser.

(** ** [resume_parser.py]: class [JobMatcher] *)

Module JobMatcher.
Import ResumeParser.

(** *** Number formatting *)

(** The integer nearest to [q], ties to the even one. *)
Definition round_half_even (q : Q) : Z :=
  let den := Z.pos (Qden q) in
  let lo := (Qnum q / den)%Z in
  let rest := (Qnum q mod den)%Z in
  match (2 * rest ?= den)%Z with
  | Lt => lo
  | Gt => (lo + 1)%Z
  | Eq => if Z.even lo then lo else (lo + 1)%Z
  end.

Definition digit_char (n : nat) : ascii := ascii_of_nat (48 + n).

Fixpoint decimal_digits (fuel n : nat) (acc : string) : string :=
  match fuel with
  | O => acc
  | S fuel' =>
      let acc' := String (digit_char (n mod 10)) acc in
      if (n / 10 =? 0)%nat then acc' else decimal_digits fuel' (n / 10) acc'
  end.

(** [str(n)] for a natural number. *)
Definition string_of_nat (n : nat) : string := decimal_digits (S n) n "".

(** [f"{x:.2f}"] *)
Definition format_2f (x : Q) : string :=
  let cents := round_half_even (x * 100)%Q in
  let n := Z.abs_nat cents in
  ((if (cents <? 0)%Z then "-" else "") ++
   string_of_nat (n / 100) ++ "." ++
   String (digit_char ((n / 10) mod 10))
          (String (digit_char (n mod 10)) ""))%string.

(** [min(a, b)] on floats. *)
Definition fmin (a b : Q) : Q := if Qle_bool a b then a else b.

(** [a >= b] on floats. *)
Definition fge (a b : Q) : bool := Qle_bool b a.

(** [format_resume_skills(resume_data)] *)
Definition format_resume_skills (resume : resume_data) : string :=
  fold_left
    (fun skills_text entry =>
       (skills_text ++
        (fst entry ++ ": " ++ Str.join " " (snd entry) ++ " "))%string)
    (skills resume) "".

(** The list [corpus] that [calculate_job_match_score] hands to the
    vectorizer. *)
Definition corpus (resume : resume_data) (job_description : string)
  : list string :=
  let resume_skills_text := format_resume_skills resume in
  let resume_text :=
    (raw_text resume ++ " " ++ resume_skills_text)%string in
  [resume_text; Str.lower job_description].

(** The inner loop of [calculate_skill_match_boost] over one category:
    the counters [(total_skills, matched_skills)]. *)
Fixpoint count_category (job_text : string) (skill_list : list string)
         (counters : nat * nat) : nat * nat :=
  match skill_list with
  | [] => counters
  | skill :: rest =>
      let '(total_skills, matched_skills) := counters in
      count_category job_text rest
        (total_skills + 1,
         if Str.occurs_in (Str.lower skill) job_text
         then matched_skills + 1 else matched_skills)
  end.

Definition count_skills (job_text : string)
           (resume_skills : list (string * list string)) : nat * nat :=
  fold_left
    (fun counters entry => count_category job_text (snd entry) counters)
    resume_skills (0, 0).

(** [matched_skills / total_skills], true division. *)
Definition ratio (matched_skills total_skills : nat) : Q :=
  (inject_Z (Z.of_nat matched_skills) / inject_Z (Z.of_nat total_skills))%Q.

(** [calculate_skill_match_boost(resume_data, job_description, job_title)] *)
Definition calculate_skill_match_boost (resume : resume_data)
           (job_description job_title : string) : Q :=
  let job_text :=
    Str.lower (job_title ++ " " ++ job_description)%string in
  let '(total_skills, matched_skills) :=
    count_skills job_text (skills resume) in
  if (total_skills =? 0)%nat then 0%Q
  else ratio matched_skills total_skills.

(** *** Vocabulary of the properties *)

(** [x] limited to the interval from [lo] to [hi]. *)
Definition clamp (x lo hi : Q) : Q := Qmax lo (Qmin x hi).

(** All skill tokens of the resume, over all categories. *)
Definition skill_tokens (resume : resume_data) : list string :=
  List.concat (map snd (skills resume)).

(** The token occurs, letter case aside, in the title, a blank and the
    description. *)
Definition occurs_in_job (job_title job_description skill : string)
  : bool :=
  Str.occurs_in (Str.lower skill)
                (Str.lower (job_title ++ " " ++ job_description)%string).

(** How one category is rendered in the flattened skills text. *)
Definition render_category (entry : string * list string) : string :=
  (fst entry ++ ": " ++ Str.join " " (snd entry) ++ " ")%string.

(** The corpus as the specification words it: the second document is the
    job title followed by the job description. *)
Definition corpus_with_title (resume : resume_data)
           (job_description job_title : string) : list string :=
  [(raw_text resume ++ " " ++ format_resume_skills resume)%string;
   (job_title ++ " " ++ job_description)%string].

Section Scorer.

(** [self.vectorizer.fit_transform(corpus)] followed by
    [cosine_similarity(tfidf_matrix[0:1], tfidf_matrix[1:2])[0][0]]:
    scikit-learn, outside the repository.  It raises, for instance,
    [ValueError] on a corpus with an empty vocabulary. *)
Variable tfidf_cosine : list string -> result Q.

(** The [try] block of [calculate_job_match_score]. *)
Definition calculate_job_match_score_body (resume : resume_data)
           (job_description job_title : string) : result Q :=
  similarity_score <- tfidf_cosine (corpus resume job_description) ;;
  let skill_boost :=
    calculate_skill_match_boost resume job_description job_title in
  let final_score :=
    (similarity_score * (7 # 10) + skill_boost * (3 # 10))%Q in
  ret (fmin final_score 1%Q).

(** [calculate_job_match_score]: every exception is logged and turned
    into the score [0.0]. *)
Definition calculate_job_match_score (resume : resume_data)
           (job_description job_title : string) : Q :=
  catch (calculate_job_match_score_body resume job_description job_title)
        (fun _ => 0%Q).

(** The [try] block of [is_suitable_job]. *)
Definition is_suitable_job_body (resume : resume_data)
           (job_description job_title : string) (min_score : Q)
  : result (bool * Q * string) :=
  let match_score :=
    calculate_job_match_score resume job_description job_title in
  let is_suitable := fge match_score min_score in
  let explanation :=
    if is_suitable
    then ("Good match (Score: " ++ format_2f match_score ++
          ") - Skills and experience align well")%string
    else ("Poor match (Score: " ++ format_2f match_score ++
          ") - Limited skill overlap")%string in
  ret (is_suitable, match_score, explanation).

(** [is_suitable_job(resume_data, job_description, job_title,
    min_score)] *)
Definition is_suitable_job (resume : resume_data)
           (job_description job_title : string) (min_score : Q)
  : bool * Q * string :=
  catch (is_suitable_job_body resume job_description job_title min_score)
        (fun e => (false, 0%Q, ("Error in analysis: " ++ e)%string)).

End Scorer.

(** *** Sample data *)

(** What [analyze_resume_text] returns for "Python developer, SQL". *)
Definition sample_resume : resume_data :=
  {| skills := [("programming", ["python"]); ("web", []);
                ("database", ["sql"]); ("cloud", []); ("data", []);
                ("tools", [])];
     experience_level := "unknown";
     years_experience := 0;
     contact_info := {| email := None; phone := None |};
     raw_text := "Python developer, SQL" |}.

(** A resume dictionary without text and without skills. *)
Definition blank_resume : resume_data :=
  {| skills := [];
     experience_level := "unknown";
     years_experience := 0;
     contact_info := {| email := None; phone := None |};
     raw_text := "" |}.

(** A vectorizer that fails the way scikit-learn does on a corpus
    without a single term. *)
Definition empty_vocabulary : exn :=
  "empty vocabulary; perhaps the documents only contain stop words".

Definition failing_vectorizer (docs : list string) : result Q :=
  raise empty_vocabulary.

(** A vectorizer that finds every pair of documents half similar. *)
Definition half_similar (docs : list string) : result Q :=
  ret (1 # 2)%Q.

End JobMatcher.

(** ** [linkedin_enhanced.py]: class [EnhancedLinkedInAutomation] *)

Module Automation.
Import ResumeParser.

(** The dictionary [job_info] built by [get_all_job_listings]. *)
Record job := {
  title : string;
  company : string;
  location : string;
  url : string;
  has_easy_apply : bool;
  description : string;
  match_score : Q;
  is_suitable : bool;
  match_explanation : string
}.

(** [a < b] on floats. *)
Definition flt (a b : Q) : bool := negb (Qle_bool b a).

(** [sorted(l, key=key, reverse=True)].  Python's sort is stable, also
    with [reverse=True]: an element moves in front of another one only
    when its key is strictly greater. *)
Section Sorted.
Context {A : Type} (key : A -> Q).

Fixpoint insert_reverse (x : A) (l : list A) : list A :=
  match l with
  | [] => [x]
  | y :: l' =>
      if flt (key x) (key y) then y :: insert_reverse x l'
      else x :: y :: l'
  end.

Definition sorted_reverse (l : list A) : list A :=
  fold_right insert_reverse [] l.
End Sorted.

(** The three controls of the wizard. *)
Inductive control := Submit | Next | Review.

(** What [driver.find_element(...)] followed by [is_enabled()] gives. *)
Inductive lookup :=
| Found (enabled : bool)
| NoSuchElement                   (* NoSuchElementException *)
| OtherError.                     (* any other exception *)

(** How one pass through the body of the [while] loop ends. *)
Inductive flow :=
| Return (b : bool)               (* return b *)
| Break                           (* break *)
| Continue (attempt : nat)        (* next iteration, counter updated *)
| Raise.                          (* an exception leaves the loop *)

(** Where one pass of the loop over the Easy Apply listings files the
    listing: in [applied_jobs], in [failed_jobs], in [unsuitable_jobs] or
    in none of them. *)
Inductive filing := Applied | Failed | Unsuitable | Nowhere.

Definition filing_eqb (a b : filing) : bool :=
  match a, b with
  | Applied, Applied | Failed, Failed | Unsuitable, Unsuitable
  | Nowhere, Nowhere => true
  | _, _ => false
  end.

(** Ghost record of one run of the wizard: the answer, the number of
    passes through the loop body and the controls clicked, oldest
    first. *)
Record wizard_run (W : Type) := {
  answer : bool;
  session_after : W;
  passes : nat;
  clicks : list control
}.
Arguments answer {W}.
Arguments session_after {W}.
Arguments passes {W}.
Arguments clicks {W}.

Section Driver.

(** The browser session: Selenium, outside the repository. *)
Variable W : Type.

(** [find_element] on a control's XPath and [is_enabled()]. *)
Variable find_button : control -> W -> lookup.
(** [button.click(); time.sleep(2)]: whether it went through without
    an exception, and the session afterwards. *)
Variable click : control -> W -> bool * W.
(** Whether [find_element] locates the "Application submitted"
    heading. *)
Variable success_shown : W -> bool.
(** [driver.get(url); time.sleep(3)]. *)
Variable navigate : string -> W -> bool * W.
(** [wait.until(element_to_be_clickable(jobs-apply-button))] returns. *)
Variable easy_apply_clickable : W -> bool.
(** The alternative selector ([contains(text(), 'Easy Apply')]) finds
    a button. *)
Variable easy_apply_by_text : W -> bool.
(** [easy_apply_button.click(); time.sleep(2)]. *)
Variable click_easy_apply : W -> bool * W.
(** [get_job_description(job_url)]: it has its own handlers and always
    returns a string. *)
Variable get_job_description : string -> W -> string * W.

(** The scorer's library call, see [JobMatcher]. *)
Variable tfidf_cosine : list string -> result Q.

(** *** [handle_application_process] *)

Definition max_attempts : nat := 5.

(** The [except NoSuchElementException] handler of the loop body. *)
Definition no_such_element (w : W) : flow :=
  if success_shown w then Return true else Break.

(** [if button.is_enabled(): button.click(); time.sleep(2);
    attempt += 1; continue] for Next and Review; [otherwise] is the
    rest of the [try] block. *)
Definition click_and_continue (c : control) (attempt : nat) (w : W)
           (cs : list control) : flow * W * list control :=
  match click c w with
  | (true, w') => (Continue (attempt + 1), w', cs ++ [c])
  | (false, w') => (Raise, w', cs ++ [c])
  end.

(** The part of the [try] block from "Look for Next button" on. *)
Definition after_submit (attempt : nat) (w : W) (cs : list control)
  : flow * W * list control :=
  match find_button Next w with
  | NoSuchElement => (no_such_element w, w, cs)
  | OtherError => (Raise, w, cs)
  | Found true => click_and_continue Next attempt w cs
  | Found false =>
      match find_button Review w with
      | NoSuchElement => (no_such_element w, w, cs)
      | OtherError => (Raise, w, cs)
      | Found true => click_and_continue Review attempt w cs
      | Found false => (Continue (attempt + 1), w, cs)
      end
  end.

(** One pass through the body of [while attempt < max_attempts]. *)
Definition body (attempt : nat) (w : W) (cs : list control)
  : flow * W * list control :=
  match find_button Submit w with
  | NoSuchElement => (no_such_element w, w, cs)
  | OtherError => (Raise, w, cs)
  | Found true =>
      match click Submit w with
      | (true, w') =>
          if success_shown w' then (Return true, w', cs ++ [Submit])
          else after_submit attempt w' (cs ++ [Submit])
      | (false, w') => (Raise, w', cs ++ [Submit])
      end
  | Found false => after_submit attempt w cs
  end.

(** The [while] loop.  [fuel] bounds the number of passes; [None] means
    the bound was too small. *)
Fixpoint while_loop (fuel attempt : nat) (w : W) (n : nat)
         (cs : list control) : option (wizard_run W) :=
  if attempt <? max_attempts then
    match fuel with
    | O => None
    | S fuel' =>
        match body attempt w cs with
        | (Return b, w', cs') =>
            Some {| answer := b; session_after := w';
                    passes := n + 1; clicks := cs' |}
        | (Break, w', cs') =>
            Some {| answer := false; session_after := w';
                    passes := n + 1; clicks := cs' |}
        | (Raise, w', cs') =>
            Some {| answer := false; session_after := w';
                    passes := n + 1; clicks := cs' |}
        | (Continue attempt', w', cs') =>
            while_loop fuel' attempt' w' (n + 1) cs'
        end
    end
  else
    Some {| answer := false; session_after := w;
            passes := n; clicks := cs |}.

Definition handle_application_process_in (fuel : nat) (w : W)
  : option (wizard_run W) :=
  while_loop fuel 0 w 0 [].

(** [handle_application_process()]: [True] is Submitted, [False] is
    Abandoned. *)
Definition handle_application_process (w : W) : bool * W :=
  match handle_application_process_in max_attempts w with
  | Some r => (answer r, session_after r)
  | None => (false, w)
  end.

(** *** The collections of one run *)

Record state := {
  session : W;
  easy_apply_jobs : list job;
  non_easy_apply_jobs : list job;
  applied_jobs : list job;
  failed_jobs : list job;
  suitable_jobs : list job;
  unsuitable_jobs : list job
}.

Definition with_session (st : state) (w : W) : state :=
  {| session := w;
     easy_apply_jobs := easy_apply_jobs st;
     non_easy_apply_jobs := non_easy_apply_jobs st;
     applied_jobs := applied_jobs st;
     failed_jobs := failed_jobs st;
     suitable_jobs := suitable_jobs st;
     unsuitable_jobs := unsuitable_jobs st |}.

Definition append_applied (st : state) (j : job) : state :=
  {| session := session st;
     easy_apply_jobs := easy_apply_jobs st;
     non_easy_apply_jobs := non_easy_apply_jobs st;
     applied_jobs := applied_jobs st ++ [j];
     failed_jobs := failed_jobs st;
     suitable_jobs := suitable_jobs st;
     unsuitable_jobs := unsuitable_jobs st |}.

Definition append_failed (st : state) (j : job) : state :=
  {| session := session st;
     easy_apply_jobs := easy_apply_jobs st;
     non_easy_apply_jobs := non_easy_apply_jobs st;
     applied_jobs := applied_jobs st;
     failed_jobs := failed_jobs st ++ [j];
     suitable_jobs := suitable_jobs st;
     unsuitable_jobs := unsuitable_jobs st |}.

Definition append_suitable (st : state) (j : job) : state :=
  {| session := session st;
     easy_apply_jobs := easy_apply_jobs st;
     non_easy_apply_jobs := non_easy_apply_jobs st;
     applied_jobs := applied_jobs st;
     failed_jobs := failed_jobs st;
     suitable_jobs := suitable_jobs st ++ [j];
     unsuitable_jobs := unsuitable_jobs st |}.

Definition append_unsuitable (st : state) (j : job) : state :=
  {| session := session st;
     easy_apply_jobs := easy_apply_jobs st;
     non_easy_apply_jobs := non_easy_apply_jobs st;
     applied_jobs := applied_jobs st;
     failed_jobs := failed_jobs st;
     suitable_jobs := suitable_jobs st;
     unsuitable_jobs := unsuitable_jobs st ++ [j] |}.

Definition with_categories (st : state) (easy non_easy : list job)
  : state :=
  {| session := session st;
     easy_apply_jobs := easy;
     non_easy_apply_jobs := non_easy;
     applied_jobs := applied_jobs st;
     failed_jobs := failed_jobs st;
     suitable_jobs := suitable_jobs st;
     unsuitable_jobs := unsuitable_jobs st |}.

(** The object right after [__init__] and [setup_driver]. *)
Definition initial (w : W) : state :=
  {| session := w;
     easy_apply_jobs := [];
     non_easy_apply_jobs := [];
     applied_jobs := [];
     failed_jobs := [];
     suitable_jobs := [];
     unsuitable_jobs := [] |}.

(** *** [apply_to_job] *)

(** [apply_to_job(job)].  A located element is truthy, so the test
    [if easy_apply_button:] passes whenever one of the two selectors has
    found the button. *)
Definition apply_to_job (j : job) (st : state) : bool * state :=
  match navigate (url j) (session st) with
  | (false, w1) =>
      (* except Exception: failed_jobs.append(job); return False *)
      (false, append_failed (with_session st w1) j)
  | (true, w1) =>
      if easy_apply_clickable w1 || easy_apply_by_text w1 then
        match click_easy_apply w1 with
        | (false, w2) => (false, append_failed (with_session st w2) j)
        | (true, w2) =>
            let '(submitted, w3) := handle_application_process w2 in
            if submitted
            then (true, append_applied (with_session st w3) j)
            else (false, append_failed (with_session st w3) j)
        end
      else
        (* "No EasyApply button found": return False *)
        (false, with_session st w1)
  end.

(** The configuration of the run: [self.resume_data] after
    [parse_resume] ([None] when no resume was given or parsing failed)
    and [self.min_match_score]. *)
Variable resume : option resume_data.
Variable min_match_score : Q.

Definition resume_given : bool :=
  match resume with
  | Some _ => true
  | None => false
  end.

(** *** [apply_to_easy_apply_jobs] *)

(** [max_applications] is whatever integer the caller passes: [main]
    hands over [int(input(...))] unchecked, so it may be negative.  The
    counter [applications_sent] starts at 0 and only grows. *)
Fixpoint apply_loop (max_applications : Z) (jobs : list job)
         (applications_sent : nat) (st : state) : state :=
  match jobs with
  | [] => st
  | j :: rest =>
      if (max_applications <=? Z.of_nat applications_sent)%Z
      then st                                             (* break *)
      else if resume_given && negb (is_suitable j) then
        apply_loop max_applications rest applications_sent
                   (append_unsuitable st j)               (* continue *)
      else
        match apply_to_job j st with
        | (true, st') =>
            apply_loop max_applications rest (applications_sent + 1)
                       (append_suitable st' j)
        | (false, st') =>
            apply_loop max_applications rest applications_sent st'
        end
  end.

Definition apply_to_easy_apply_jobs (easy : list job)
           (max_applications : Z) (st : state) : state :=
  apply_loop max_applications easy 0 st.

(** Ghost ledger of the loop: the listings it reaches, in order, each with
    the session the loop is in when it reaches it.  It follows
    [apply_loop] branch by branch. *)
Fixpoint visited (max_applications : Z) (jobs : list job)
         (applications_sent : nat) (st : state) : list (job * W) :=
  match jobs with
  | [] => []
  | j :: rest =>
      if (max_applications <=? Z.of_nat applications_sent)%Z
      then []                                             (* break *)
      else
        (j, session st) ::
        (if resume_given && negb (is_suitable j) then
           visited max_applications rest applications_sent
                   (append_unsuitable st j)
         else
           match apply_to_job j st with
           | (true, st') =>
               visited max_applications rest (applications_sent + 1)
                       (append_suitable st' j)
           | (false, st') =>
               visited max_applications rest applications_sent st'
           end)
  end.

(** *** [analyze_and_categorize_jobs] *)

(** The first half of the loop body: with a resume, fetch the
    description and store the scorer's verdict in the listing. *)
Definition analyze (j : job) (w : W) : job * W :=
  match resume with
  | Some resume_data =>
      let '(text, w') := get_job_description (url j) w in
      let '(suitable, score, explanation) :=
        JobMatcher.is_suitable_job tfidf_cosine resume_data text
                                   (title j) min_match_score in
      ({| title := title j; company := company j;
          location := location j; url := url j;
          has_easy_apply := has_easy_apply j;
          description := text;
          match_score := score;
          is_suitable := suitable;
          match_explanation := explanation |}, w')
  | None => (j, w)
  end.

(** The [for] loop: the two lists so far and the session. *)
Fixpoint categorize (jobs easy non_easy : list job) (w : W)
  : list job * list job * W :=
  match jobs with
  | [] => (easy, non_easy, w)
  | j :: rest =>
      let '(j', w') := analyze j w in
      if has_easy_apply j'
      then categorize rest (easy ++ [j']) non_easy w'
      else categorize rest easy (non_easy ++ [j']) w'
  end.

Definition analyze_and_categorize_jobs (jobs : list job) (w : W)
  : list job * list job * W :=
  let '(easy, non_easy, w') := categorize jobs [] [] w in
  if resume_given
  then (sorted_reverse match_score easy,
        sorted_reverse match_score non_easy, w')
  else (easy, non_easy, w').

(** The listings as the loop leaves them, in discovery order. *)
Fixpoint analyze_all (jobs : list job) (w : W) : list job * W :=
  match jobs with
  | [] => ([], w)
  | j :: rest =>
      let '(j', w') := analyze j w in
      let '(rest', w'') := analyze_all rest w' in
      (j' :: rest', w'')
  end.

(** *** [run_enhanced_automation], from the discovered listings on *)

Definition run (all_jobs : list job) (max_applications : Z)
           (st : state) : state :=
  match all_jobs with
  | [] => st                            (* "No job listings found" *)
  | _ =>
      let '(easy, non_easy, w) :=
        analyze_and_categorize_jobs all_jobs (session st) in
      let st1 := with_categories (with_session st w) easy non_easy in
      match easy with
      | [] => st1
      | _ => apply_to_easy_apply_jobs easy max_applications st1
      end
  end.

(** *** Vocabulary of the properties about the loop *)

(** What the listing's own pass decides, by the pages the browser shows
    for it from the session [w] on: skipped as unsuitable when a resume is
    loaded and the listing is marked unsuitable; otherwise failed when its
    page cannot be opened, applied or failed by the outcome of the click
    on Easy Apply and of the wizard when the Easy Apply button is found,
    and filed nowhere when the button is not found. *)
Definition fate (j : job) (w : W) : filing :=
  if resume_given && negb (is_suitable j) then Unsuitable
  else
    match navigate (url j) w with
    | (false, _) => Failed
    | (true, w1) =>
        if easy_apply_clickable w1 || easy_apply_by_text w1 then
          match click_easy_apply w1 with
          | (false, _) => Failed
          | (true, w2) =>
              if fst (handle_application_process w2) then Applied
              else Failed
          end
        else Nowhere
    end.

(** The listings of a ledger whose pass files them under [f], in the
    order of the ledger. *)
Definition filed (f : filing) (visits : list (job * W)) : list job :=
  map fst (filter (fun v => filing_eqb (fate (fst v) (snd v)) f) visits).

(** The ledger of a run on a fresh object. *)
Definition run_visits (all_jobs : list job) (max_applications : Z)
           (w0 : W) : list (job * W) :=
  let '(easy, non_easy, w) := analyze_and_categorize_jobs all_jobs w0 in
  visited max_applications easy 0
          (with_categories (with_session (initial w0) w) easy non_easy).

End Driver.

(** *** Vocabulary of the properties *)

(** What discovery fixes about a listing. *)
Definition listing (j : job) : string * string * string * string * bool :=
  (title j, company j, location j, url j, has_easy_apply j).

Definition not_easy_apply (j : job) : bool := negb (has_easy_apply j).

Definition Q_eq_dec (a b : Q) : {a = b} + {a <> b}.
Proof. decide equality; [apply Pos.eq_dec | apply Z.eq_dec]. Defined.

Definition job_eq_dec (a b : job) : {a = b} + {a <> b}.
Proof.
  decide equality;
    try apply string_dec; try apply bool_dec; apply Q_eq_dec.
Defined.

(** How often a listing occurs in a collection. *)
Definition count (j : job) (l : list job) : nat :=
  count_occ job_eq_dec l j.

(** How often a listing occurs in the three outcome collections
    together. *)
Definition outcomes {W} (j : job) (st : state W) : nat :=
  count j (applied_jobs W st) + count j (failed_jobs W st) +
  count j (unsuitable_jobs W st).

(** Descending by match score. *)
Definition descending (l : list job) : Prop :=
  StronglySorted (fun a b => (match_score b <= match_score a)%Q) l.

(** The listings of a list whose match score equals [q], in the order of
    the list. *)
Definition ties (q : Q) (l : list job) : list job :=
  filter (fun j => Qeq_bool (match_score j) q) l.

End Automation.

(** ** Test doubles for the browser *)

(** A wizard played from a script: the session is the list of pages still
    to come, every click goes through and moves on to the next page. *)
Module Scripted.
Import Automation.

Record page := {
  submit : lookup;
  next : lookup;
  review : lookup;
  success : bool
}.

Definition session := list page.

Definition find_button (c : control) (w : session) : lookup :=
  match w with
  | [] => NoSuchElement
  | p :: _ =>
      match c with
      | Submit => submit p
      | Next => next p
      | Review => review p
      end
  end.

Definition click (c : control) (w : session) : bool * session :=
  (true, tl w).

Definition success_shown (w : session) : bool :=
  match w with
  | [] => false
  | p :: _ => success p
  end.

Definition wizard (fuel : nat) (w : session) : option (wizard_run session) :=
  handle_application_process_in session find_button click success_shown
                                fuel w.

(** Only the Next control is on the page, enabled. *)
Definition next_only : page :=
  {| submit := NoSuchElement; next := Found true;
     review := NoSuchElement; success := false |}.

(** Next enabled, and a Submit control that is present but disabled. *)
Definition next_and_disabled_submit : page :=
  {| submit := Found false; next := Found true;
     review := NoSuchElement; success := false |}.

(** Only the Submit control is on the page, enabled. *)
Definition submit_only : page :=
  {| submit := Found true; next := NoSuchElement;
     review := NoSuchElement; success := false |}.

(** No control, and the "Application submitted" heading. *)
Definition submitted : page :=
  {| submit := NoSuchElement; next := NoSuchElement;
     review := NoSuchElement; success := true |}.

End Scripted.

(** A site where every application is one click on Submit: the session
    records whether the "Application submitted" heading is shown. *)
Module OneClick.
Import Automation.

Definition session := bool.

Definition find_button (c : control) (w : session) : lookup :=
  match c with
  | Submit => Found true
  | Next | Review => NoSuchElement
  end.

Definition click (c : control) (w : session) : bool * session :=
  (true, true).

Definition success_shown (w : session) : bool := w.

Definition navigate (job_url : string) (w : session) : bool * session :=
  (true, false).

Definition easy_apply_clickable (w : session) : bool := true.

Definition easy_apply_by_text (w : session) : bool := true.

Definition click_easy_apply (w : session) : bool * session := (true, w).

Definition get_job_description (job_url : string) (w : session)
  : string * session := ("", w).

(** [run] on this site, without a resume. *)
Definition run_without_resume (all_jobs : list job)
           (max_applications : Z) : state session :=
  run session find_button click success_shown navigate
      easy_apply_clickable easy_apply_by_text click_easy_apply
      get_job_description JobMatcher.half_similar None (3 # 10)%Q
      all_jobs max_applications (initial session false).

Definition discovered (job_title job_url : string) (easy : bool) : job :=
  {| title := job_title; company := "Unknown Company";
     location := "Unknown Location"; url := job_url;
     has_easy_apply := easy; description := "";
     match_score := 0; is_suitable := false; match_explanation := "" |}.

Definition job_a : job := discovered "Python Developer" "/jobs/1" true.
Definition job_b : job := discovered "Data Engineer" "/jobs/2" true.
Definition job_c : job := discovered "Site Manager" "/jobs/3" false.

(** Categorization on this site with the sample resume: every description
    is empty, so the scores differ by the skills named in the titles. *)
Definition categorize_with_sample_resume (jobs : list job)
  : list job * list job * session :=
  analyze_and_categorize_jobs session get_job_description
                              JobMatcher.half_similar
                              (Some JobMatcher.sample_resume) (3 # 10)%Q
                              jobs false.

End OneClick.

(** The one-click site, except that the page of "/jobs/2" has no Easy
    Apply button: the session records the address of the page and whether
    the "Application submitted" heading is shown. *)
Module MissingButton.
Import Automation.

Definition session := (string * bool)%type.

Definition find_button (c : control) (w : session) : lookup :=
  match c with
  | Submit => Found true
  | Next | Review => NoSuchElement
  end.

Definition click (c : control) (w : session) : bool * session :=
  (true, (fst w, true)).

Definition success_shown (w : session) : bool := snd w.

Definition navigate (job_url : string) (w : session) : bool * session :=
  (true, (job_url, false)).

Definition easy_apply_clickable (w : session) : bool :=
  negb (String.eqb (fst w) "/jobs/2").

Definition easy_apply_by_text (w : session) : bool :=
  negb (String.eqb (fst w) "/jobs/2").

Definition click_easy_apply (w : session) : bool * session := (true, w).

Definition get_job_description (job_url : string) (w : session)
  : string * session := ("", w).

Definition start : session := ("", false).

End MissingButton.

(** ** [resume_parser.py]: the rest of class [ResumeParser] *)

Module ResumeParserMore.
Import Str ResumeParser.

(** The white space that [str.strip] removes (ASCII). *)
Definition is_space (c : ascii) : bool := Re.mem Re.White c.

(** [s.lstrip()] *)
Fixpoint lstrip (s : string) : string :=
  match s with
  | EmptyString => EmptyString
  | String c s' => if is_space c then lstrip s' else s
  end.

(** [s.rstrip()] *)
Fixpoint rstrip (s : string) : string :=
  match s with
  | EmptyString => EmptyString
  | String c s' =>
      match rstrip s' with
      | EmptyString => if is_space c then EmptyString else String c ""
      | String _ _ as r => String c r
      end
  end.

(** [s.strip()] *)
Definition strip (s : string) : string := lstrip (rstrip s).

Definition newline : ascii := "010"%char.

(** [text.split('\n')]: never empty, the last piece is what follows the
    last line feed. *)
Fixpoint split_lines (text : string) : list string :=
  match text with
  | EmptyString => [""]
  | String c rest =>
      if Ascii.eqb c newline then "" :: split_lines rest
      else
        match split_lines rest with
        | line :: lines => String c line :: lines
        | [] => [String c ""]
        end
  end.

(** The list [education_keywords] of [extract_education]. *)
Definition education_keywords : list string :=
  ["bachelor"; "master"; "phd"; "degree"; "university"; "college";
   "b.s."; "m.s."; "b.a."; "m.a."].

(** The inner loop of [extract_education]: the first line that holds the
    keyword, stripped. *)
Fixpoint first_line_with (keyword : string) (lines : list string)
  : option string :=
  match lines with
  | [] => None
  | line :: rest =>
      if occurs_in keyword (lower line) then Some (strip line)
      else first_line_with keyword rest
  end.

(** The list [education] that the loop over the keywords builds. *)
Fixpoint education_lines (keywords : list string) (text : string)
  : list string :=
  match keywords with
  | [] => []
  | keyword :: rest =>
      if occurs_in keyword text then
        match first_line_with keyword (split_lines text) with
        | Some line => line :: education_lines rest text
        | None => education_lines rest text
        end
      else education_lines rest text
  end.

(** [extract_education(text)].  [list(set(education))] removes the
    duplicates and leaves the order unspecified; here the entries come in
    some fixed order, and the properties below do not depend on it. *)
Definition extract_education (text : string) : list string :=
  nodup string_dec (education_lines education_keywords text).

(** The number of decimal digits in a text. *)
Fixpoint digits_in (l : list ascii) : nat :=
  match l with
  | [] => 0
  | c :: l' => (if Re.mem Re.Digit c then 1 else 0) + digits_in l'
  end.

(** The least number of decimal digits a match of [r] holds. *)
Definition is_digit_set (p : Re.cset) : bool :=
  match p with
  | Re.Range lo hi => Ascii.eqb lo "0" && Ascii.eqb hi "9"
  | _ => false
  end.

Fixpoint min_digits (r : Re.regex) : nat :=
  match r with
  | Re.Chr p => if is_digit_set p then 1 else 0
  | Re.Seq r1 r2 => min_digits r1 + min_digits r2
  | Re.Group r1 => min_digits r1
  | Re.Eps | Re.Opt _ | Re.Star _ | Re.WordB => 0
  end.

(** The string has no line feed. *)
Fixpoint single_line (s : string) : bool :=
  match s with
  | EmptyString => true
  | String c s' => negb (Ascii.eqb c newline) && single_line s'
  end.

(** The text is blank: white space only. *)
Fixpoint blank (s : string) : bool :=
  match s with
  | EmptyString => true
  | String c s' => is_space c && blank s'
  end.

(** The characters the e-mail pattern accepts after the last dot. *)
Definition tld_chars : Re.cset :=
  Re.Union (Re.Range "A" "Z") (Re.Union (Re.Lit "|") (Re.Range "a" "z")).

(** The text holds a keyword of the experience level. *)
Definition says (level text : string) : Prop :=
  exists keywords keyword,
    lookup level experience_keywords = Some keywords /\
    In keyword keywords /\ substring keyword text.

(** [e] is the stripped form of a line of the text that holds an
    education keyword. *)
Definition education_entry (text e : string) : Prop :=
  exists keyword line,
    In keyword education_keywords /\ In line (split_lines text) /\
    substring keyword text /\ substring keyword (lower line) /\
    e = strip line.

(** *** The interpreter's limit on [int(str)] *)

Section DigitLimit.

(** [sys.get_int_max_str_digits()]: 4300 by default from Python 3.11 on,
    0 when the limit is switched off.  The interpreter accepts 0 and
    values of at least 640 only. *)
Variable max_str_digits : nat.

Definition limit_exceeded : exn :=
  "Exceeds the limit for integer string conversion".

(** [int(s)] under the limit, for a string of decimal digits: a
    [ValueError] when the limit is on and the string has more digits than
    it allows. *)
Definition int_limited (s : string) : result Z :=
  if (0 <? max_str_digits) && (max_str_digits <? String.length s)
  then raise limit_exceeded
  else int s.

Fixpoint ints_limited (l : list string) : result (list Z) :=
  match l with
  | [] => ret []
  | s :: l' =>
      n <- int_limited s ;; ns <- ints_limited l' ;; ret (n :: ns)
  end.

(** The list [years] that the loop over the patterns builds. *)
Fixpoint collect_years_limited (patterns : list Re.regex) (text : string)
  : result (list Z) :=
  match patterns with
  | [] => ret []
  | pattern :: rest =>
      ns <- ints_limited (Re.findall pattern text) ;;
      more <- collect_years_limited rest text ;;
      ret (ns ++ more)
  end.

(** [extract_years_experience(text)] under the limit. *)
Definition extract_years_experience_limited (text : string) : result Z :=
  years <- collect_years_limited years_patterns text ;;
  match years with
  | [] => ret 0%Z
  | y :: ys => ret (max_of y ys)
  end.

(** [analyze_resume_text(text)] under the limit. *)
Definition analyze_resume_text_limited (text : string)
  : result resume_data :=
  let text_lower := lower text in
  let skills := extract_skills text_lower in
  let experience_level := extract_experience_level text_lower in
  years_experience <- extract_years_experience_limited text_lower ;;
  let contact_info := extract_contact_info text in
  ret {| skills := skills;
         experience_level := experience_level;
         years_experience := years_experience;
         contact_info := contact_info;
         raw_text := text |}.

End DigitLimit.

(** A text whose number of years has 641 digits. *)
Definition long_number_text : string :=
  (string_of_list_ascii (repeat "1"%char 641) ++ " years experience")%string.

(** [parse_resume(file_path)] *)
Section ParseResume.

(** [sys.get_int_max_str_digits()] of the interpreter that runs the
    parser. *)
Variable max_str_digits : nat.

(** [os.path.exists]. *)
Variable path_exists : string -> bool.
(** [os.path.splitext(file_path)[1]]. *)
Variable splitext : string -> string.
(** [extract_text_from_pdf], [extract_text_from_docx] and
    [extract_text_from_txt]: each catches its own errors and returns a
    string, the empty one on failure. *)
Variable extract_text_from_pdf : string -> string.
Variable extract_text_from_docx : string -> string.
Variable extract_text_from_txt : string -> string.

Definition extract_text (file_path : string) : result string :=
  let file_ext := lower (splitext file_path) in
  if String.eqb file_ext ".pdf" then ret (extract_text_from_pdf file_path)
  else if String.eqb file_ext ".docx"
       then ret (extract_text_from_docx file_path)
  else if String.eqb file_ext ".txt"
       then ret (extract_text_from_txt file_path)
  else raise ("Unsupported file format: " ++ file_ext)%string.

Definition parse_resume (file_path : string) : result resume_data :=
  if negb (path_exists file_path)
  then raise ("Resume file not found: " ++ file_path)%string
  else
    text <- extract_text file_path ;;
    if String.eqb (strip text) ""
    then raise "No text could be extracted from the resume"
    else analyze_resume_text_limited max_str_digits text.

End ParseResume.

End ResumeParserMore.

(** ** [resume_parser.py]: [JobMatcher.rank_jobs] *)

Module JobMatcherMore.
Import ResumeParser JobMatcher Automation.

Section Ranking.

Variable tfidf_cosine : list string -> result Q.

(** The body of the loop of [rank_jobs]: the verdict at the default
    threshold 0.3 is stored in the job. *)
Definition ranked (resume : resume_data) (j : job) : job :=
  let '(suitable, score, explanation) :=
    is_suitable_job tfidf_cosine resume (description j) (title j)
                    (3 # 10)%Q in
  {| title := title j; company := company j; location := location j;
     url := url j; has_easy_apply := has_easy_apply j;
     description := description j;
     match_score := score;
     is_suitable := suitable;
     match_explanation := explanation |}.

(** [rank_jobs(resume_data, jobs)].  Nothing in the [try] block can
    raise, so the handler that would return the jobs unsorted is never
    entered. *)
Definition rank_jobs (resume : resume_data) (jobs : list job) : list job :=
  sorted_reverse match_score (map (ranked resume) jobs).

End Ranking.

End JobMatcherMore.

(** ** [linkedin_enhanced.py]: discovery and the report *)

Module AutomationMore.
Import Automation.

(** [a] is [b] with some elements left out, the order kept. *)
Inductive sublist {A : Type} : list A -> list A -> Prop :=
| sublist_nil : sublist [] []
| sublist_skip x a b : sublist a b -> sublist a (x :: b)
| sublist_keep x a b : sublist a b -> sublist (x :: a) (x :: b).

(** The number of clicks on Next and Review. *)
Definition steps_forward (cs : list control) : nat :=
  List.length (filter (fun c => match c with Submit => false | _ => true end)
                      cs).

(** The loop over the Easy Apply listings skips the listing: there is a
    resume and the listing is not suitable. *)
Definition skipped (resume : option ResumeParser.resume_data) (j : job)
  : bool :=
  resume_given resume && negb (is_suitable j).

(** The [success_rate] of [print_summary_report]. *)
Definition success_rate (applications_sent applications_failed : nat) : Q :=
  if 0 <? applications_sent + applications_failed
  then (JobMatcher.ratio applications_sent
                         (applications_sent + applications_failed)
        * 100)%Q
  else 0%Q.

(** A listing as discovery leaves it. *)
Definition unscored (j : job) : Prop :=
  description j = "" /\ match_score j = 0%Q /\ is_suitable j = false /\
  match_explanation j = "".

Section Discovery.

Variable W : Type.
(** One job card of the results page. *)
Variable card : Type.
(** [execute_script("return document.body.scrollHeight")]. *)
Variable scroll_height : W -> nat.
(** [execute_script("window.scrollTo(0, document.body.scrollHeight);")]
    and [time.sleep(2)]. *)
Variable scroll_to_bottom : W -> W.
(** [find_elements] for the job cards; [None] when it raises. *)
Variable job_cards : W -> option (list card).
(** The title link of a card: its [href] and its text; [None] when the
    link is not found or cannot be read. *)
Variable title_link : card -> option (string * string).
(** The text of the company element and of the location element; [None]
    when the element is not found. *)
Variable company_text : card -> option string.
Variable location_text : card -> option string.
(** Whether the card carries the "Easy Apply" marker. *)
Variable easy_apply_marker : card -> bool.

(** The [while True] loop of [scroll_to_load_jobs].  [fuel] bounds the
    number of passes; [None] means the loop is still running. *)
Fixpoint scroll_loop (fuel last_height : nat) (w : W) : option W :=
  match fuel with
  | O => None
  | S fuel' =>
      let w' := scroll_to_bottom w in
      let new_height := scroll_height w' in
      if new_height =? last_height then Some w'
      else scroll_loop fuel' new_height w'
  end.

(** [scroll_to_load_jobs()] *)
Definition scroll_to_load_jobs (fuel : nat) (w : W) : option W :=
  scroll_loop fuel (scroll_height w) w.

(** The session after [n] scrolls. *)
Definition scrolled (n : nat) (w : W) : W := Nat.iter n scroll_to_bottom w.

(** The height stops changing with scroll number [n + 1]. *)
Definition settles (w : W) (n : nat) : Prop :=
  scroll_height (scrolled (S n) w) = scroll_height (scrolled n w).

(** The title links of the cards that have one, in page order. *)
Fixpoint links (cards : list card) : list (string * string) :=
  match cards with
  | [] => []
  | c :: rest =>
      match title_link c with
      | Some l => l :: links rest
      | None => links rest
      end
  end.

(** The body of the loop over the cards: the listing of a card, or
    nothing when the card fails. *)
Definition job_info (c : card) : option job :=
  match title_link c with
  | None => None
  | Some (job_url, link_text) =>
      Some {| title := ResumeParserMore.strip link_text;
              company :=
                match company_text c with
                | Some text => ResumeParserMore.strip text
                | None => "Unknown Company"
                end;
              location :=
                match location_text c with
                | Some text => ResumeParserMore.strip text
                | None => "Unknown Location"
                end;
              url := job_url;
              has_easy_apply := easy_apply_marker c;
              description := "";
              match_score := 0;
              is_suitable := false;
              match_explanation := "" |}
  end.

Fixpoint all_jobs_of (cards : list card) : list job :=
  match cards with
  | [] => []
  | c :: rest =>
      match job_info c with
      | Some j => j :: all_jobs_of rest
      | None => all_jobs_of rest
      end
  end.

(** [get_all_job_listings()]; [None] while the scroll loop is running. *)
Definition get_all_job_listings (fuel : nat) (w : W)
  : option (list job * W) :=
  match scroll_to_load_jobs fuel w with
  | None => None
  | Some w' =>
      match job_cards w' with
      | Some cards => Some (all_jobs_of cards, w')
      | None => Some ([], w')
      end
  end.

End Discovery.

End AutomationMore.

(** A results page that grows with every scroll: the session is the
    height of the page. *)
Module GrowingPage.

Definition session := nat.

Definition scroll_height (w : session) : nat := w.

Definition scroll_to_bottom (w : session) : session := S w.

End GrowingPage.

(* ================================================================== *)
(** * Part II.  Properties *)
(* ================================================================== *)

(** ** Strings *)

Module StrFacts.
Import Str.

Lemma starts_with_spec (needle hay : string) :
  starts_with needle hay = true <->
  exists post, hay = (needle ++ post)%string.
Proof.
  revert hay; induction needle as [|a n IH]; intros hay; simpl.
  - split; [intros _; now exists hay | reflexivity].
  - destruct hay as [|b h].
    + split; [discriminate | intros [post H]; discriminate].
    + rewrite andb_true_iff, Ascii.eqb_eq, IH. split.
      * intros [-> [post ->]]. now exists post.
      * intros [post H]. injection H as -> ->. split; [reflexivity|].
        now exists post.
Qed.

Lemma occurs_in_spec (needle hay : string) :
  occurs_in needle hay = true <-> substring needle hay.
Proof.
  unfold substring.
  induction hay as [|b h IH]; simpl; rewrite orb_true_iff.
  - rewrite starts_with_spec. split.
    + intros [[post H] | H]; [|discriminate]. now exists "", post.
    + intros [pre [post H]]. left.
      destruct pre; [now exists post | discriminate].
  - rewrite starts_with_spec, IH. split.
    + intros [[post H] | [pre [post H]]].
      * now exists "", post.
      * exists (String b pre), post. simpl. now rewrite H.
    + intros [pre [post H]]. destruct pre as [|c pre]; simpl in H.
      * left. now exists post.
      * right. injection H as _ H. now exists pre, post.
Qed.

Lemma string_of_list_ascii_app (a b : list ascii) :
  string_of_list_ascii (a ++ b) =
  (string_of_list_ascii a ++ string_of_list_ascii b)%string.
Proof. induction a as [|c a IH]; simpl; [reflexivity | now rewrite IH]. Qed.

Lemma string_of_list_ascii_length (a : list ascii) :
  String.length (string_of_list_ascii a) = List.length a.
Proof. induction a as [|c a IH]; simpl; [reflexivity | now rewrite IH]. Qed.

Lemma append_nil_r (s : string) : (s ++ "")%string = s.
Proof. induction s as [|c s IH]; simpl; [reflexivity | now rewrite IH]. Qed.

Lemma append_assoc (a b c : string) :
  ((a ++ b) ++ c)%string = (a ++ (b ++ c))%string.
Proof. induction a as [|x a IH]; simpl; [reflexivity | now rewrite IH]. Qed.

Lemma append_length (a b : string) :
  String.length (a ++ b) = String.length a + String.length b.
Proof. induction a as [|x a IH]; simpl; [reflexivity | now rewrite IH]. Qed.

End StrFacts.

(** ** The matcher returns only what the pattern denotes *)

Module ReFacts.
Import Re.

Lemma firstn_consumed {A} (pre rest : list A) :
  firstn (List.length (pre ++ rest) - List.length rest) (pre ++ rest) = pre.
Proof.
  rewrite length_app, Nat.add_sub.
  rewrite firstn_app, Nat.sub_diag, firstn_all. simpl.
  now rewrite app_nil_r.
Qed.

Section Sound.
Context {R : Type}.

Lemma star_sound (p : cset) (s : list ascii) :
  forall prev g (k : @cont R) x,
    star p prev s g k = Some x ->
    exists pre prev' s',
      s = pre ++ s' /\ forallb (mem p) pre = true /\
      k prev' s' g = Some x.
Proof.
  induction s as [|c s IH]; intros prev g k x H; simpl in H.
  - now exists [], prev, [].
  - destruct (mem p c) eqn:Hc.
    + destruct (star p (Some c) s g k) as [y|] eqn:Hs.
      * injection H as ->.
        destruct (IH _ _ _ _ Hs) as (pre & prev' & s' & -> & Hp & Hk).
        exists (c :: pre), prev', s'. simpl. now rewrite Hc, Hp.
      * now exists [], prev, (c :: s).
    + now exists [], prev, (c :: s).
Qed.

Lemma rmatch_sound (r : regex) :
  forall prev s g (k : @cont R) x,
    rmatch r prev s g k = Some x ->
    exists pre prev' s' g',
      s = pre ++ s' /\ matches r pre g g' /\ k prev' s' g' = Some x.
Proof.
  induction r as [|p|r1 IH1 r2 IH2|r IH|p|r IH|];
    intros prev s g k x H; simpl in H.
  - exists [], prev, s, g. repeat split; [constructor | assumption].
  - destruct s as [|c s]; [discriminate|].
    destruct (mem p c) eqn:Hc; [|discriminate].
    exists [c], (Some c), s, g. repeat split; [now constructor | assumption].
  - destruct (IH1 _ _ _ _ _ H) as (pre1 & prev1 & s1 & g1 & -> & M1 & H1).
    destruct (IH2 _ _ _ _ _ H1) as (pre2 & prev2 & s2 & g2 & -> & M2 & H2).
    exists (pre1 ++ pre2), prev2, s2, g2.
    rewrite app_assoc. repeat split; [econstructor; eassumption | assumption].
  - destruct (rmatch r prev s g k) as [y|] eqn:Hr.
    + injection H as ->.
      destruct (IH _ _ _ _ _ Hr) as (pre & prev' & s' & g' & -> & M & Hk).
      exists pre, prev', s', g'.
      repeat split; [now apply m_opt_some | assumption].
    + exists [], prev, s, g. repeat split; [apply m_opt_none | assumption].
  - destruct (star_sound _ _ _ _ _ _ H) as (pre & prev' & s' & -> & Hp & Hk).
    exists pre, prev', s', g. repeat split; [now constructor | assumption].
  - destruct (IH _ _ _ _ _ H) as (pre & prev' & s' & g' & -> & M & Hk).
    rewrite firstn_consumed in Hk.
    exists pre, prev', s', (Some pre).
    repeat split; [econstructor; eassumption | assumption].
  - destruct (xorb (is_word prev) (is_word (hd_error s))); [|discriminate].
    exists [], prev, s, g. repeat split; [constructor | assumption].
Qed.
End Sound.

Lemma match_at_sound (r : regex) prev s prev' rest g :
  match_at r prev s = Some (prev', rest, g) ->
  exists pre, s = pre ++ rest /\ matches r pre None g.
Proof.
  unfold match_at. intros H.
  destruct (rmatch_sound _ _ _ _ _ _ H) as (pre & p' & s' & g' & -> & M & Hk).
  injection Hk as -> -> ->. now exists pre.
Qed.

(** Every match object that the scan reports is a match of the
    pattern. *)
Lemma finditer_sound (r : regex) (fuel : nat) :
  forall prev s,
    Forall (fun m => matches r (fst m) None (snd m))
           (finditer r fuel prev s).
Proof.
  induction fuel as [|fuel IH]; intros prev s; cbn [finditer];
    [constructor|].
  assert (Hskip : Forall (fun m => matches r (fst m) None (snd m))
                    match s with
                    | [] => []
                    | c :: s' => finditer r fuel (Some c) s'
                    end)
    by (destruct s; [constructor | apply IH]).
  destruct (match_at r prev s) as [[[prev' rest] g]|] eqn:Hm; [|exact Hskip].
  destruct (match_at_sound _ _ _ _ _ _ Hm) as (pre & Hs & M).
  destruct (List.length s - List.length rest) as [|n] eqn:Hn.
  - constructor; [|exact Hskip]. simpl.
    subst s. rewrite length_app, Nat.add_sub in Hn.
    apply length_zero_iff_nil in Hn. now subst pre.
  - constructor; [|apply IH]. cbn [fst snd].
    rewrite <- Hn. subst s. now rewrite firstn_consumed.
Qed.

Lemma search_all_sound (r : regex) (text : string) :
  Forall (fun m => matches r (fst m) None (snd m)) (search_all r text).
Proof. apply finditer_sound. Qed.

(** The scan never runs out of fuel: more fuel than the length of the
    text changes nothing. *)
Lemma finditer_fuel (r : regex) (fuel : nat) :
  forall fuel' prev s,
    List.length s < fuel -> List.length s < fuel' ->
    finditer r fuel prev s = finditer r fuel' prev s.
Proof.
  induction fuel as [|fuel IH]; intros fuel' prev s H H'; [lia|].
  destruct fuel' as [|fuel']; [lia|]. cbn [finditer].
  assert (Hskip : match s with
                  | [] => []
                  | c :: s' => finditer r fuel (Some c) s'
                  end =
                  match s with
                  | [] => []
                  | c :: s' => finditer r fuel' (Some c) s'
                  end)
    by (destruct s; [reflexivity | simpl in *; apply IH; lia]).
  destruct (match_at r prev s) as [[[prev' rest] g]|]; [|exact Hskip].
  destruct (List.length s - List.length rest) as [|n] eqn:Hn.
  - now rewrite Hskip.
  - f_equal. apply IH; lia.
Qed.

Lemma search_all_fuel (r : regex) (text : string) (extra : nat) :
  finditer r (S (List.length (list_ascii_of_string text)) + extra) None
           (list_ascii_of_string text) =
  search_all r text.
Proof. unfold search_all. apply finditer_fuel; lia. Qed.

(** A pattern without a group leaves group 1 alone. *)
Lemma matches_no_group r pre g g' :
  matches r pre g g' -> has_group r = false -> g' = g.
Proof.
  induction 1; simpl; intros Hg; try reflexivity; try discriminate.
  - apply orb_false_iff in Hg as [H1 H2].
    rewrite IHmatches2, IHmatches1; auto.
  - auto.
Qed.

Lemma matches_min_length r pre g g' :
  matches r pre g g' -> min_length r <= List.length pre.
Proof.
  induction 1; simpl; try lia.
  rewrite length_app. lia.
Qed.


(** Inversion principles, one per constructor of the pattern. *)

Lemma seq_inv r1 r2 pre g g2 :
  matches (Seq r1 r2) pre g g2 ->
  exists pre1 pre2 g1,
    pre = pre1 ++ pre2 /\ matches r1 pre1 g g1 /\ matches r2 pre2 g1 g2.
Proof. inversion 1; subst. now exists pre1, pre2, g1. Qed.

Lemma opt_inv r pre g g' :
  matches (Opt r) pre g g' ->
  matches r pre g g' \/ (pre = [] /\ g' = g).
Proof. inversion 1; subst; [now left | now right]. Qed.

Lemma group_inv r pre g g' :
  matches (Group r) pre g g' ->
  g' = Some pre /\ exists g'', matches r pre g g''.
Proof. inversion 1; subst. split; [reflexivity | now exists g'0]. Qed.

Lemma chr_inv p pre g g' :
  matches (Chr p) pre g g' ->
  exists c, pre = [c] /\ mem p c = true /\ g' = g.
Proof. inversion 1; subst. now exists c. Qed.

Lemma star_inv p pre g g' :
  matches (Star p) pre g g' -> forallb (mem p) pre = true /\ g' = g.
Proof. inversion 1; subst. now split. Qed.

End ReFacts.

(** ** Resume analysis *)

Module ResumeParserFacts.
Import Re ReFacts ResumeParser.

(** *** Skills *)

Lemma found_in_filter (text : string) (skill_list : list string) :
  found_in text skill_list =
  filter (fun skill => Str.occurs_in skill text) skill_list.
Proof.
  induction skill_list as [|skill rest IH]; simpl; [reflexivity|].
  now rewrite IH.
Qed.

Lemma lookup_extract_skills_from catalog text category :
  lookup category (extract_skills_from catalog text) =
  option_map (found_in text) (lookup category catalog).
Proof.
  induction catalog as [|[k v] rest IH]; simpl; [reflexivity|].
  destruct (String.eqb k category); [reflexivity | exact IH].
Qed.

(** *** Years of experience *)

Lemma number_capture pre g g' :
  matches number pre g g' -> holds_number g'.
Proof.
  unfold number, Plus. intros H.
  apply seq_inv in H as (p1 & p2 & g1 & -> & Hg & Hplus).
  apply matches_no_group in Hplus; [subst g' | reflexivity].
  apply group_inv in Hg as [-> [g'' Hd]].
  apply seq_inv in Hd as (d1 & d2 & g2 & -> & Hc & Hs).
  apply chr_inv in Hc as (c & -> & Hc & _).
  apply star_inv in Hs as [Hs _].
  exists ([c] ++ d2). repeat split; [discriminate|].
  cbn [app forallb]. now rewrite Hc, Hs.
Qed.

Lemma years_pattern_capture pattern pre g :
  In pattern years_patterns ->
  matches pattern pre None g -> holds_number g.
Proof.
  intros [<- | [<- | [<- | []]]] H.
  - apply seq_inv in H as (p1 & p2 & g1 & -> & Hn & Hrest).
    apply matches_no_group in Hrest; [subst g | reflexivity].
    eapply number_capture; eassumption.
  - apply seq_inv in H as (p1 & p2 & g1 & -> & Hn & Hrest).
    apply matches_no_group in Hrest; [subst g | reflexivity].
    eapply number_capture; eassumption.
  - apply seq_inv in H as (p1 & p2 & g1 & -> & _ & H).
    apply seq_inv in H as (p3 & p4 & g2 & -> & _ & H).
    apply seq_inv in H as (p5 & p6 & g3 & -> & _ & H).
    apply seq_inv in H as (p7 & p8 & g4 & -> & Hn & Hrest).
    apply matches_no_group in Hrest; [subst g | reflexivity].
    eapply number_capture; eassumption.
Qed.

Lemma int_digits_ok (ds : list ascii) :
  forall acc,
    (0 <= acc)%Z -> forallb (mem Digit) ds = true ->
    exists n, int_digits acc ds = inr n /\ (0 <= n)%Z.
Proof.
  induction ds as [|c ds IH]; intros acc Hacc Hd; cbn [int_digits].
  - now exists acc.
  - cbn [forallb] in Hd. apply andb_true_iff in Hd as [Hc Hd].
    unfold digit_value. rewrite Hc. apply IH; [lia | assumption].
Qed.

Lemma int_of_number (g : capture) (m : list ascii) :
  holds_number g ->
  exists n, int (group1 (m, g)) = inr n /\ (0 <= n)%Z.
Proof.
  intros (ds & -> & Hne & Hd). unfold int, group1. cbn [snd].
  rewrite list_ascii_of_string_of_list_ascii.
  destruct ds as [|c ds]; [contradiction|].
  apply (int_digits_ok (c :: ds) 0); [lia | assumption].
Qed.

Lemma ints_ok (l : list string) :
  Forall (fun s => exists n, int s = inr n /\ (0 <= n)%Z) l ->
  exists ns, ints l = inr ns /\ all_natural ns.
Proof.
  induction 1 as [|s l (n & Hn & Hpos) _ (ns & Hns & Hall)]; simpl.
  - exists []. split; [reflexivity | constructor].
  - rewrite Hn, Hns. simpl. exists (n :: ns).
    split; [reflexivity | now constructor].
Qed.

Lemma ints_app (a b : list string) :
  ints (a ++ b) = (x <- ints a ;; y <- ints b ;; ret (x ++ y)).
Proof.
  induction a as [|s a IH]; simpl.
  - destruct (ints b); reflexivity.
  - destruct (int s) as [e|n]; simpl; [reflexivity|].
    rewrite IH. destruct (ints a) as [e|x]; simpl; [reflexivity|].
    destruct (ints b); reflexivity.
Qed.

Lemma findall_years_ok pattern text :
  In pattern years_patterns ->
  exists ns, ints (findall pattern text) = inr ns /\ all_natural ns.
Proof.
  intros Hin. apply ints_ok. unfold findall. apply Forall_map.
  eapply Forall_impl; [|apply search_all_sound].
  intros [m g] H. simpl in H. apply int_of_number.
  eapply years_pattern_capture; eassumption.
Qed.

Lemma collect_years_ok (patterns : list regex) (text : string) :
  incl patterns years_patterns ->
  exists ns,
    collect_years patterns text = inr ns /\
    ints (flat_map (fun pattern => findall pattern text) patterns) = inr ns /\
    all_natural ns.
Proof.
  induction patterns as [|pattern rest IH]; intros Hincl; simpl.
  - exists []. repeat split. constructor.
  - destruct (findall_years_ok pattern text) as (ns & Hns & Hall);
      [apply Hincl; now left|].
    destruct IH as (more & Hmore & Hflat & Hall');
      [intros x Hx; apply Hincl; now right|].
    exists (ns ++ more). rewrite ints_app, Hns, Hmore, Hflat. simpl.
    repeat split. now apply Forall_app.
Qed.

Lemma max_of_ge (ys : list Z) :
  forall y, (y <= max_of y ys)%Z /\ Forall (fun n => (n <= max_of y ys)%Z) ys.
Proof.
  unfold max_of.
  induction ys as [|z ys IH]; intros y; simpl; [split; [lia | constructor]|].
  destruct (IH (Z.max y z)) as [H1 H2]. split; [lia|].
  constructor; [lia | assumption].
Qed.

Lemma max_of_in (ys : list Z) :
  forall y, In (max_of y ys) (y :: ys).
Proof.
  unfold max_of.
  induction ys as [|z ys IH]; intros y; simpl; [now left|].
  destruct (IH (Z.max y z)) as [H | H].
  - destruct (Z.max_spec y z) as [[_ E] | [_ E]]; rewrite E in *; auto.
  - right. now right.
Qed.

Lemma extract_years_experience_ok (text : string) :
  exists (ns : list Z) (y : Z),
    ints (year_matches text) = inr ns /\
    extract_years_experience text = inr y /\
    (0 <= y)%Z /\
    match ns with
    | [] => y = 0%Z
    | _ :: _ => In y ns /\ Forall (fun n => (n <= y)%Z) ns
    end.
Proof.
  destruct (collect_years_ok years_patterns text (incl_refl _))
    as (ns & Hc & Hflat & Hall).
  unfold extract_years_experience, year_matches. rewrite Hc, Hflat. simpl.
  destruct ns as [|y ys].
  - exists [], 0%Z. repeat split. lia.
  - exists (y :: ys), (max_of y ys).
    destruct (max_of_ge ys y) as [H1 H2].
    repeat split.
    + inversion Hall; subst. lia.
    + apply max_of_in.
    + now constructor.
Qed.

Lemma analyze_resume_text_ok (text : string) :
  exists y,
    extract_years_experience (Str.lower text) = inr y /\
    analyze_resume_text text =
    inr {| skills := extract_skills (Str.lower text);
           experience_level := extract_experience_level (Str.lower text);
           years_experience := y;
           contact_info := extract_contact_info text;
           raw_text := text |}.
Proof.
  destruct (extract_years_experience_ok (Str.lower text))
    as (ns & y & _ & Hy & _).
  exists y. unfold analyze_resume_text. now rewrite Hy.
Qed.

(** C7.  For every document text and every category of the skill
    catalog, the skills extracted for the category are entries of that
    category's catalog list, and a catalog token is extracted exactly
    when it is a substring of the lower-cased text; no word boundary is
    looked for. *)
Theorem extracted_skills_are_catalog_substrings
        (text category : string) (catalog : list string) :
  lookup category tech_skills = Some catalog ->
  exists rd found,
    analyze_resume_text text = inr rd /\
    lookup category (skills rd) = Some found /\
    incl found catalog /\
    forall skill,
      In skill found <->
      In skill catalog /\ Str.substring skill (Str.lower text).
Proof.
  intros Hcat.
  destruct (analyze_resume_text_ok text) as (y & _ & Hrd).
  eexists. exists (found_in (Str.lower text) catalog).
  split; [exact Hrd|]. cbn [skills]. unfold extract_skills.
  rewrite lookup_extract_skills_from, Hcat. cbn [option_map].
  split; [reflexivity|].
  rewrite found_in_filter. split.
  - intros skill H. now apply filter_In in H.
  - intros skill. now rewrite filter_In, StrFacts.occurs_in_spec.
Qed.

Lemma extracted_skills_go_in_golang :
  exists rd found,
    analyze_resume_text "Golang-based services" = inr rd /\
    lookup "programming" (skills rd) = Some found /\
    In "go" found.
Proof.
  destruct (extracted_skills_are_catalog_substrings
              "Golang-based services" "programming" _ eq_refl)
    as (rd & found & Hrd & Hlook & _ & Hiff).
  exists rd, found. repeat split; [exact Hrd | exact Hlook |].
  apply Hiff. split.
  - simpl. tauto.
  - exists "", "lang-based services". reflexivity.
Defined.

(** C8.  For every document text the extracted years of experience are
    a non-negative integer: zero when no pattern matches, otherwise the
    largest of the numbers captured by the three patterns; the text with
    "3 years experience" and "7+ years in industry" gives 7. *)
Theorem years_experience_is_max_of_matches :
  (forall text : string,
      exists (rd : resume_data) (ns : list Z),
        analyze_resume_text text = inr rd /\
        ints (year_matches (Str.lower text)) = inr ns /\
        (0 <= years_experience rd)%Z /\
        match ns with
        | [] => years_experience rd = 0%Z
        | _ :: _ =>
            In (years_experience rd) ns /\
            Forall (fun n => (n <= years_experience rd)%Z) ns
        end) /\
  (exists rd,
      analyze_resume_text
        "3 years experience ... 7+ Years in industry" = inr rd /\
      years_experience rd = 7%Z).
Proof.
  split.
  - intros text.
    destruct (extract_years_experience_ok (Str.lower text))
      as (ns & y & Hns & Hy & Hpos & Hmax).
    destruct (analyze_resume_text_ok text) as (y' & Hy' & Hrd).
    rewrite Hy in Hy'. injection Hy' as <-.
    eexists. exists ns. split; [exact Hrd|]. simpl. auto.
  - eexists. split; [vm_compute; reflexivity | reflexivity].
Qed.

(** *** Contact information *)

Lemma phone_pattern_shape (whole : list ascii) (g : capture) :
  matches phone_pattern whole None g ->
  exists number,
    10 <= List.length number /\
    match g with
    | None => whole = number
    | Some code => whole = code ++ number
    end.
Proof.
  unfold phone_pattern. intros H.
  apply seq_inv in H as (p1 & p2 & g1 & -> & Hcode & Hnum).
  pose proof (matches_min_length _ _ _ _ Hnum) as Hlen.
  apply matches_no_group in Hnum; [subst g | reflexivity].
  change (min_length national_number) with 10 in Hlen.
  exists p2. split; [exact Hlen|].
  apply opt_inv in Hcode as [Hg | [-> ->]]; [|reflexivity].
  apply group_inv in Hg as [-> _]. reflexivity.
Qed.

Lemma longer_is_different (a b : list ascii) :
  0 < List.length b ->
  string_of_list_ascii a <> string_of_list_ascii (a ++ b).
Proof.
  intros Hb E. apply (f_equal String.length) in E.
  rewrite !StrFacts.string_of_list_ascii_length, length_app in E. lia.
Qed.

(** C10.  Whenever the phone pattern matches somewhere in the text, the
    value stored under [phone] is group 1 of the first match, the
    optional country code: the empty string when that match has no
    country code, and in no case the matched number, which goes on for
    at least ten more characters. *)
Theorem phone_is_country_code_group_only :
  (forall text : string,
      match search_all phone_pattern text with
      | [] => phone (extract_contact_info text) = None
      | (whole, g) :: _ =>
          phone (extract_contact_info text)
            <> Some (string_of_list_ascii whole) /\
          exists number,
            10 <= List.length number /\
            match g with
            | None =>
                whole = number /\
                phone (extract_contact_info text) = Some ""
            | Some code =>
                whole = code ++ number /\
                phone (extract_contact_info text) =
                Some (string_of_list_ascii code)
            end
      end) /\
  phone (extract_contact_info "Call (555) 123-4567 today") = Some "" /\
  phone (extract_contact_info "Call +1-555-123-4567 today") = Some "+1-".
Proof.
  split; [|split; vm_compute; reflexivity].
  intros text. unfold extract_contact_info, findall. cbn [phone].
  pose proof (search_all_sound phone_pattern text) as Hall.
  destruct (search_all phone_pattern text) as [|[whole g] rest];
    [reflexivity|].
  inversion Hall as [|? ? Hm _]; subst. cbn [fst snd] in Hm.
  destruct (phone_pattern_shape _ _ Hm) as (number & Hlen & Hshape).
  cbn [map]. unfold group1. cbn [snd]. split.
  - destruct g as [code|]; subst whole.
    + intros E. injection E as E.
      apply (longer_is_different code number); [lia | exact E].
    + intros E. injection E as E.
      apply (longer_is_different [] number); [lia | exact E].
  - exists number. split; [exact Hlen|].
    destruct g as [code|]; now split.
Qed.

End ResumeParserFacts.

(** ** Suitability scoring *)

Module JobMatcherFacts.
Import ResumeParser JobMatcher.

(** *** The flattened skills text *)

Lemma fold_render (l : list (string * list string)) :
  forall acc,
    fold_left (fun skills_text entry =>
                 (skills_text ++ render_category entry)%string) l acc =
    (acc ++ Str.join "" (map render_category l))%string.
Proof.
  induction l as [|e l IH]; intros acc; simpl.
  - now rewrite StrFacts.append_nil_r.
  - rewrite IH, StrFacts.append_assoc. f_equal.
    destruct l as [|e' l]; simpl; [now rewrite StrFacts.append_nil_r|].
    reflexivity.
Qed.

Lemma format_resume_skills_spec (resume : resume_data) :
  format_resume_skills resume =
  Str.join "" (map render_category (skills resume)).
Proof. unfold format_resume_skills. now rewrite (fold_render _ ""). Qed.

(** *** The skill boost *)

Lemma count_category_spec job_text (skill_list : list string) :
  forall total matched,
    count_category job_text skill_list (total, matched) =
    (total + List.length skill_list,
     matched + List.length
                 (filter (fun skill =>
                            Str.occurs_in (Str.lower skill) job_text)
                         skill_list)).
Proof.
  induction skill_list as [|skill rest IH]; intros total matched; simpl.
  - now rewrite !Nat.add_0_r.
  - destruct (Str.occurs_in (Str.lower skill) job_text);
      rewrite IH; simpl; f_equal; lia.
Qed.

Lemma count_skills_spec job_text (resume_skills : list (string * list string)) :
  count_skills job_text resume_skills =
  (List.length (List.concat (map snd resume_skills)),
   List.length (filter (fun skill =>
                          Str.occurs_in (Str.lower skill) job_text)
                       (List.concat (map snd resume_skills)))).
Proof.
  unfold count_skills.
  assert (H : forall (l : list (string * list string)) total matched,
             fold_left
               (fun counters entry =>
                  count_category job_text (snd entry) counters)
               l (total, matched) =
             (total + List.length (List.concat (map snd l)),
              matched + List.length
                          (filter (fun skill =>
                                     Str.occurs_in (Str.lower skill)
                                                   job_text)
                                  (List.concat (map snd l))))).
  { induction l as [|[c sl] l IH]; intros total matched; simpl.
    - now rewrite !Nat.add_0_r.
    - rewrite count_category_spec, IH.
      rewrite filter_app, !length_app. f_equal; lia. }
  apply (H resume_skills 0 0).
Qed.

Lemma skill_boost_spec (resume : resume_data) (jd jt : string) :
  calculate_skill_match_boost resume jd jt =
  if (List.length (skill_tokens resume) =? 0)%nat then 0%Q
  else ratio (List.length (filter (occurs_in_job jt jd)
                                  (skill_tokens resume)))
             (List.length (skill_tokens resume)).
Proof.
  unfold calculate_skill_match_boost. now rewrite count_skills_spec.
Qed.

Lemma ratio_range (m t : nat) :
  m <= t -> 0 < t -> (0 <= ratio m t /\ ratio m t <= 1)%Q.
Proof.
  intros Hm Ht. unfold ratio.
  assert (Hpos : (0 < inject_Z (Z.of_nat t))%Q)
    by (unfold Qlt; simpl; lia).
  split.
  - apply Qle_shift_div_l; [exact Hpos|].
    rewrite Qmult_0_l. unfold Qle; simpl; lia.
  - apply Qle_shift_div_r; [exact Hpos|].
    rewrite Qmult_1_l. unfold Qle; simpl; lia.
Qed.

Lemma skill_boost_range (resume : resume_data) (jd jt : string) :
  (0 <= calculate_skill_match_boost resume jd jt /\
   calculate_skill_match_boost resume jd jt <= 1)%Q.
Proof.
  rewrite skill_boost_spec.
  destruct (List.length (skill_tokens resume) =? 0)%nat eqn:E.
  - split; unfold Qle; simpl; lia.
  - apply Nat.eqb_neq in E. apply ratio_range; [|lia].
    apply filter_length_le.
Qed.

(** *** The score *)

Lemma fmin_is_clamp (x : Q) :
  (0 <= x)%Q -> (fmin x 1 == clamp x 0 1)%Q /\ (0 <= fmin x 1 <= 1)%Q.
Proof.
  intros Hx. unfold fmin, clamp.
  destruct (Qle_bool x 1) eqn:E.
  - apply Qle_bool_iff in E.
    rewrite (Q.min_l x 1 E), (Q.max_r 0 x Hx).
    split; [reflexivity | split; assumption].
  - assert (H1 : (1 <= x)%Q).
    { apply Qnot_lt_le. intros H. apply Qlt_le_weak in H.
      apply Qle_bool_iff in H. congruence. }
    rewrite (Q.min_r x 1 H1), (Q.max_r 0 1) by (unfold Qle; simpl; lia).
    split; [reflexivity | split; unfold Qle; simpl; lia].
Qed.

Lemma blend_nonneg (sim boost : Q) :
  (0 <= sim)%Q -> (0 <= boost)%Q ->
  (0 <= sim * (7 # 10) + boost * (3 # 10))%Q.
Proof.
  intros Hs Hb.
  apply (Qplus_le_compat 0 _ 0 _);
    apply Qmult_le_0_compat; try assumption; unfold Qle; simpl; lia.
Qed.

(** The code's quotient is the fraction [m / t]. *)
Lemma ratio_is_fraction (m t : nat) :
  0 < t -> (ratio m t == Z.of_nat m # Pos.of_nat t)%Q.
Proof.
  intros Ht. destruct t as [|n]; [lia|].
  unfold ratio, Qdiv, Qinv, Qmult, inject_Z, Qeq.
  cbn [Qnum Qden]. rewrite <- Pos.of_nat_succ.
  change (Z.of_nat (S n)) with (Z.pos (Pos.of_succ_nat n)).
  cbn [Qnum Qden]. lia.
Qed.

(** C6, as the code has it.  When the library's text similarity is never
    negative, the score of every invocation lies between 0 and 1.  Where
    the similarity [sim] is available the score equals
    [clamp (0.7 * sim + 0.3 * boost) 0 1]; where computing it raises, the
    score is 0, whatever the boost.  The boost is the fraction whose
    numerator is the number of resume skill tokens that occur, letter
    case aside, in the title, a blank and the description, and whose
    denominator is the number of resume skill tokens over all
    categories; it is 0 when the resume has no skill token. *)
Theorem score_is_clamped_blend
        (tfidf_cosine : list string -> result Q)
        (resume : resume_data) (job_description job_title : string) :
  (forall docs sim, tfidf_cosine docs = inr sim -> (0 <= sim)%Q) ->
  let score :=
    calculate_job_match_score tfidf_cosine resume
                              job_description job_title in
  let boost :=
    calculate_skill_match_boost resume job_description job_title in
  let job_text := Str.lower (job_title ++ " " ++ job_description)%string in
  let tokens := List.concat (map snd (skills resume)) in
  let matched :=
    filter (fun token => Str.occurs_in (Str.lower token) job_text)
           tokens in
  (0 <= score /\ score <= 1)%Q /\
  (if (List.length tokens =? 0)%nat then boost = 0%Q
   else (boost == Z.of_nat (List.length matched)
                  # Pos.of_nat (List.length tokens))%Q) /\
  match tfidf_cosine (corpus resume job_description) with
  | inr sim =>
      (score == clamp ((7 # 10) * sim + (3 # 10) * boost) 0 1)%Q
  | inl _ => score = 0%Q
  end.
Proof.
  intros Hlib score boost job_text tokens matched.
  split; [|split].
  - subst score. unfold calculate_job_match_score,
                   calculate_job_match_score_body.
    destruct (tfidf_cosine (corpus resume job_description))
      as [e|sim] eqn:E; simpl.
    + split; unfold Qle; simpl; lia.
    + apply fmin_is_clamp, blend_nonneg;
        [eapply Hlib; eassumption | apply skill_boost_range].
  - subst boost. rewrite skill_boost_spec.
    change (skill_tokens resume) with tokens.
    change (filter (occurs_in_job job_title job_description) tokens)
      with matched.
    destruct (List.length tokens =? 0)%nat eqn:E; [reflexivity|].
    apply Nat.eqb_neq in E. apply ratio_is_fraction. lia.
  - subst score. unfold calculate_job_match_score,
                   calculate_job_match_score_body.
    destruct (tfidf_cosine (corpus resume job_description))
      as [e|sim] eqn:E; simpl; [reflexivity|].
    fold boost.
    assert (Hb : (0 <= sim * (7 # 10) + boost * (3 # 10))%Q)
      by (apply blend_nonneg;
          [eapply Hlib; eassumption | apply skill_boost_range]).
    destruct (fmin_is_clamp _ Hb) as [Hc _]. rewrite Hc.
    unfold clamp.
    assert (Hcomm : (sim * (7 # 10) + boost * (3 # 10) ==
                     (7 # 10) * sim + (3 # 10) * boost)%Q) by ring.
    now rewrite Hcomm.
Qed.

Lemma half_similar_nonneg docs sim :
  half_similar docs = inr sim -> (0 <= sim)%Q.
Proof. intros E. injection E as <-. unfold Qle. simpl. lia. Qed.

(** The sample resume has the two tokens "python" and "sql"; the job
    "Python Developer" with the description "Remote role" names one of
    them, so the boost is 1/2, and with a similarity of 1/2 the score is
    0.7 * 1/2 + 0.3 * 1/2 = 1/2. *)
Lemma score_is_clamped_blend_example :
  let score :=
    calculate_job_match_score half_similar sample_resume
      "Remote role" "Python Developer" in
  let boost :=
    calculate_skill_match_boost sample_resume
      "Remote role" "Python Developer" in
  (0 <= score /\ score <= 1)%Q /\
  (boost == Z.of_nat 1 # Pos.of_nat 2)%Q /\
  (score == clamp ((7 # 10) * (1 # 2) + (3 # 10) * boost) 0 1)%Q /\
  (score == 1 # 2)%Q.
Proof.
  destruct (score_is_clamped_blend
              half_similar sample_resume
              "Remote role" "Python Developer"
              half_similar_nonneg) as (Hrange & Hboost & Hscore).
  split; [exact Hrange|].
  split; [exact Hboost|].
  split; [exact Hscore|].
  cbn [half_similar ret] in Hscore. rewrite Hscore.
  vm_compute. reflexivity.
Defined.

(** C6 as stated fails: when computing the similarity raises, the score
    is 0 although every skill token of the resume occurs in the job, so
    the boost is 1 and the blend is at least 0.3 for every similarity that
    is not negative. *)
Lemma score_without_similarity_is_not_the_blend :
  let score :=
    calculate_job_match_score failing_vectorizer sample_resume
      "Python and SQL experience" "Python Developer" in
  let boost :=
    calculate_skill_match_boost sample_resume
      "Python and SQL experience" "Python Developer" in
  score = 0%Q /\ (boost == 1)%Q /\
  forall sim : Q,
    (0 <= sim)%Q ->
    ~ (score == clamp ((7 # 10) * sim + (3 # 10) * boost) 0 1)%Q.
Proof.
  cbv zeta.
  split; [reflexivity|]. split; [vm_compute; reflexivity|].
  intros sim Hsim.
  remember (calculate_skill_match_boost sample_resume
              "Python and SQL experience" "Python Developer") as boost
    eqn:Hb.
  assert (Hpos : (0 < boost)%Q) by (subst boost; vm_compute; reflexivity).
  change (calculate_job_match_score failing_vectorizer sample_resume
            "Python and SQL experience" "Python Developer") with 0%Q.
  unfold clamp. intros Heq.
  assert (Hblend : (0 < (7 # 10) * sim + (3 # 10) * boost)%Q).
  { rewrite Qplus_comm.
    apply (Qplus_lt_le_compat 0 ((3 # 10) * boost)%Q 0
                              ((7 # 10) * sim)%Q).
    - apply Qmult_lt_0_compat; [reflexivity | exact Hpos].
    - apply Qmult_le_0_compat; [unfold Qle; simpl; lia | exact Hsim]. }
  assert (Hmin : (0 < Qmin ((7 # 10) * sim + (3 # 10) * boost) 1)%Q)
    by (apply Q.min_glb_lt; [exact Hblend | reflexivity]).
  pose proof (Q.le_max_r 0 (Qmin ((7 # 10) * sim + (3 # 10) * boost) 1))
    as Hmax.
  rewrite <- Heq in Hmax.
  exact (Qlt_not_le _ _ Hmin Hmax).
Qed.

(** *** The corpus *)

(** C5, as the code has it.  For every scoring invocation the corpus
    handed to the vectorizer has two documents: the resume's raw text, a
    blank and the flattened skills (each category rendered as its name, a
    colon, its tokens separated by blanks, and a blank), and the
    lower-cased job description.  The job title is not in the corpus. *)
Theorem corpus_is_resume_and_description
        (tfidf_cosine : list string -> result Q)
        (resume : resume_data) (job_description job_title : string) :
  let documents :=
    [(raw_text resume ++ " " ++
      Str.join "" (map render_category (skills resume)))%string;
     Str.lower job_description] in
  corpus resume job_description = documents /\
  calculate_job_match_score_body tfidf_cosine resume
                                 job_description job_title =
  (similarity <- tfidf_cosine documents ;;
   ret (fmin (similarity * (7 # 10) +
              calculate_skill_match_boost resume job_description
                                          job_title * (3 # 10))%Q
             1%Q)).
Proof.
  cbv zeta. unfold calculate_job_match_score_body, corpus.
  rewrite format_resume_skills_spec. split; reflexivity.
Qed.

(** C5 as stated fails: the second document is the lower-cased
    description alone, and the title does not occur in it. *)
Lemma corpus_leaves_title_out :
  corpus sample_resume "Remote role" <>
  corpus_with_title sample_resume "Remote role" "Python Developer" /\
  nth 1 (corpus sample_resume "Remote role") "" = "remote role" /\
  Str.occurs_in "python developer"
    (Str.lower (nth 1 (corpus sample_resume "Remote role") "")) = false.
Proof. repeat split. discriminate. Qed.

(** *** The verdict *)

(** C3, as the code has it.  For every invocation the verdict equals
    [score >= min_score] and the [try] block of [is_suitable_job] ends
    without an exception.  A failure of the vectorizer is caught inside
    the score computation: the score is 0.0, the verdict is
    [0.0 >= min_score] (unsuitable for every positive threshold), and
    the explanation is the ordinary one built from the verdict, without
    the error text. *)
Theorem suitability_follows_threshold
        (tfidf_cosine : list string -> result Q)
        (resume : resume_data) (job_description job_title : string)
        (min_score : Q) :
  let '(suitable, score, explanation) :=
    is_suitable_job tfidf_cosine resume job_description job_title
                    min_score in
  suitable = fge score min_score /\
  is_suitable_job_body tfidf_cosine resume job_description job_title
                       min_score = inr (suitable, score, explanation) /\
  match tfidf_cosine (corpus resume job_description) with
  | inl _ =>
      score = 0%Q /\
      suitable = fge 0 min_score /\
      explanation =
      (if suitable
       then "Good match (Score: 0.00) - Skills and experience align well"
       else "Poor match (Score: 0.00) - Limited skill overlap")
  | inr _ => True
  end.
Proof.
  unfold is_suitable_job, is_suitable_job_body. cbn [catch ret].
  split; [reflexivity | split; [reflexivity|]].
  unfold calculate_job_match_score, calculate_job_match_score_body.
  destruct (tfidf_cosine (corpus resume job_description)) as [e|sim];
    [|exact I].
  cbn [bind catch]. repeat split.
Qed.

(** C3 as stated fails: when the vectorizer raises, the explanation does
    not carry the error text, and with the threshold 0.0 the job is
    classified as suitable. *)
Lemma unscorable_job_without_error_text :
  is_suitable_job failing_vectorizer blank_resume "" "" 0 =
  (true, 0%Q,
   "Good match (Score: 0.00) - Skills and experience align well") /\
  is_suitable_job failing_vectorizer blank_resume "" "" (3 # 10) =
  (false, 0%Q, "Poor match (Score: 0.00) - Limited skill overlap") /\
  Str.occurs_in empty_vocabulary
    "Poor match (Score: 0.00) - Limited skill overlap" = false.
Proof. repeat split. Qed.

End JobMatcherFacts.

(** ** The Easy Apply wizard *)

Module WizardFacts.
Import Automation.

Section Loop.
Variable W : Type.
Variable find_button : control -> W -> lookup.
Variable click : control -> W -> bool * W.
Variable success_shown : W -> bool.

Let body := body W find_button click success_shown.
Let while_loop := while_loop W find_button click success_shown.

Ltac split_body :=
  unfold body, Automation.body, after_submit, click_and_continue,
    no_such_element;
  repeat match goal with
         | |- context [match ?x with _ => _ end] => destruct x eqn:?
         end.

(** Whenever the body asks for another pass, the counter has gone up
    by exactly one. *)
Lemma body_continue attempt w cs attempt' w' cs' :
  body attempt w cs = (Continue attempt', w', cs') ->
  attempt' = attempt + 1.
Proof. split_body; intros E; congruence. Qed.

(** The body answers [True] only on a page showing the success
    heading. *)
Lemma body_return attempt w cs b w' cs' :
  body attempt w cs = (Return b, w', cs') ->
  b = true /\ success_shown w' = true.
Proof.
  split_body; intros E; try discriminate;
    injection E as <- <- <-; split; congruence.
Qed.

(** With at least [max_attempts - attempt] passes allowed, the loop
    returns, after at most that many passes. *)
Ltac cap_lia := unfold max_attempts in *; lia.

Lemma while_loop_returns (fuel : nat) :
  forall attempt w n cs,
    max_attempts - attempt <= fuel ->
    exists r,
      while_loop fuel attempt w n cs = Some r /\
      passes r <= n + (max_attempts - attempt) /\
      (if answer r then success_shown (session_after r) = true
       else True).
Proof.
  induction fuel as [|fuel IH]; intros attempt w n cs Hfuel;
    unfold while_loop; cbn [Automation.while_loop];
    destruct (attempt <? max_attempts) eqn:Hlt.
  - apply Nat.ltb_lt in Hlt. cap_lia.
  - eexists. split; [reflexivity|].
      cbn [passes answer session_after]. split; [cap_lia | exact I].
  - apply Nat.ltb_lt in Hlt.
    destruct (Automation.body W find_button click success_shown
                              attempt w cs)
      as [[[b| |attempt'|] w'] cs'] eqn:Hb.
    + destruct (body_return _ _ _ _ _ _ Hb) as [-> Hs].
      eexists. split; [reflexivity|].
      cbn [passes answer session_after]. split; [cap_lia | exact Hs].
    + eexists. split; [reflexivity|].
      cbn [passes answer session_after]. split; [cap_lia | exact I].
    + pose proof (body_continue _ _ _ _ _ _ Hb) as ->.
      destruct (IH (attempt + 1) w' (n + 1) cs') as (r & Hr & Hp & Hs);
        [cap_lia|].
      exists r. split; [exact Hr|]. split; [cap_lia | exact Hs].
    + eexists. split; [reflexivity|].
      cbn [passes answer session_after]. split; [cap_lia | exact I].
  - eexists. split; [reflexivity|].
      cbn [passes answer session_after]. split; [cap_lia | exact I].
Qed.

(** Allowing more passes than a run needs changes nothing. *)
Lemma while_loop_more_fuel (fuel : nat) :
  forall extra attempt w n cs r,
    while_loop fuel attempt w n cs = Some r ->
    while_loop (fuel + extra) attempt w n cs = Some r.
Proof.
  unfold while_loop.
  induction fuel as [|fuel IH]; intros extra attempt w n cs r.
  - destruct extra; cbn [Automation.while_loop Nat.add];
      destruct (attempt <? max_attempts); congruence.
  - cbn [Automation.while_loop Nat.add].
    destruct (attempt <? max_attempts); [|congruence].
    destruct (Automation.body W find_button click success_shown
                              attempt w cs)
      as [[[b| |attempt'|] w'] cs']; try congruence.
    apply IH.
Qed.

(** [max_attempts] passes are always enough. *)
Lemma wizard_returns_within_cap (extra : nat) (w : W) :
  exists r,
    handle_application_process_in W find_button click success_shown
                                  (max_attempts + extra) w = Some r /\
    handle_application_process W find_button click success_shown w =
    (answer r, session_after r) /\
    passes r <= max_attempts /\
    (if answer r then success_shown (session_after r) = true else True).
Proof.
  unfold handle_application_process, handle_application_process_in.
  destruct (while_loop_returns max_attempts 0 w 0 []) as (r & Hr & Hp & Hs);
    [cap_lia|].
  exists r. split; [now apply while_loop_more_fuel|].
  unfold while_loop in Hr. rewrite Hr.
  repeat split; [cap_lia | exact Hs].
Qed.

(** A page without a Submit control ends the run in that very pass,
    whatever else is on the page: the answer is whether the success
    heading is shown, and nothing is clicked. *)
Lemma missing_submit_ends_the_run (fuel : nat) (w : W) :
  match find_button Submit w with
  | NoSuchElement =>
      handle_application_process_in W find_button click success_shown
                                    (S fuel) w =
      Some {| answer := success_shown w; session_after := w;
              passes := 1; clicks := [] |}
  | Found _ | OtherError => True
  end.
Proof.
  destruct (find_button Submit w) eqn:Hsubmit; try exact I.
  unfold handle_application_process_in. cbn [Automation.while_loop].
  change (0 <? max_attempts) with true. cbv iota.
  unfold Automation.body, no_such_element. rewrite Hsubmit.
  destruct (success_shown w); reflexivity.
Qed.

End Loop.

Import Scripted.

(** C2, on the code.  The controls are looked up in the order Submit,
    Next, Review, but a control that is not found does not fall through
    to the next one.  In every browser a page without a Submit control
    ends the run in that very pass without a click.  So on a page with
    only an enabled Next control the run is abandoned in the first pass,
    while the same page with a Submit control that is present but
    disabled is taken through Next. *)
Theorem missing_control_does_not_fall_through :
  (forall (W : Type) (find : control -> W -> lookup)
          (press : control -> W -> bool * W) (shown : W -> bool)
          (fuel : nat) (w : W),
      match find Submit w with
      | NoSuchElement =>
          handle_application_process_in W find press shown (S fuel) w =
          Some {| answer := shown w; session_after := w;
                  passes := 1; clicks := [] |}
      | Found _ | OtherError => True
      end) /\
  wizard max_attempts [next_only; submit_only; submitted] =
  Some {| answer := false;
          session_after := [next_only; submit_only; submitted];
          passes := 1; clicks := [] |} /\
  wizard max_attempts [next_and_disabled_submit; submit_only; submitted] =
  Some {| answer := true;
          session_after := [submitted];
          passes := 2; clicks := [Next; Submit] |}.
Proof.
  split; [|split; reflexivity].
  intros. apply missing_submit_ends_the_run.
Qed.

(** C4, on the code.  For every browser and every starting page the
    loop returns after at most five passes, with [True] only on a page
    showing the success heading.  On six pages that offer Next alone,
    however, the run is abandoned in the first pass, not at the cap: the
    missing Submit control ends the loop before Next is tried. *)
Theorem wizard_stops_within_cap_but_not_at_it :
  (forall (W : Type) (find : control -> W -> lookup)
          (press : control -> W -> bool * W) (shown : W -> bool)
          (extra : nat) (w : W),
      exists r,
        handle_application_process_in W find press shown
                                      (max_attempts + extra) w = Some r /\
        handle_application_process W find press shown w =
        (answer r, session_after r) /\
        passes r <= max_attempts /\
        (if answer r then shown (session_after r) = true else True)) /\
  wizard max_attempts (repeat next_only 6) =
  Some {| answer := false; session_after := repeat next_only 6;
          passes := 1; clicks := [] |} /\
  option_map (fun r => (answer r, passes r, clicks r))
             (wizard max_attempts (repeat next_and_disabled_submit 6)) =
  Some (false, 5, [Next; Next; Next; Next; Next]).
Proof.
  split; [|split; reflexivity].
  intros. apply wizard_returns_within_cap.
Qed.

End WizardFacts.

(** ** Categorization and the bookkeeping of a run *)

Module AutomationFacts.
Import Automation.

(** *** [sorted(..., reverse=True)] *)

Section SortedReverse.
Context {A : Type} (key : A -> Q).

Let descending_by_key : list A -> Prop :=
  StronglySorted (fun a b => (key b <= key a)%Q).

Lemma flt_true (a b : Q) : flt a b = true -> (a <= b)%Q.
Proof.
  unfold flt. intros H. apply negb_true_iff in H.
  apply Qlt_le_weak, Qnot_le_lt. intros Hle.
  apply Qle_bool_iff in Hle. congruence.
Qed.

Lemma flt_true_neq (a b : Q) : flt a b = true -> Qeq_bool b a = false.
Proof.
  unfold flt. intros H. apply negb_true_iff in H.
  destruct (Qeq_bool b a) eqn:E; [|reflexivity].
  apply Qeq_bool_iff in E.
  assert (Hle : Qle_bool b a = true)
    by (apply Qle_bool_iff; rewrite E; apply Qle_refl).
  congruence.
Qed.

Lemma flt_false (a b : Q) : flt a b = false -> (b <= a)%Q.
Proof.
  unfold flt. intros H. apply negb_false_iff in H.
  now apply Qle_bool_iff.
Qed.

Lemma insert_reverse_perm (x : A) (l : list A) :
  Permutation (insert_reverse key x l) (x :: l).
Proof.
  induction l as [|y l IH]; simpl; [reflexivity|].
  destruct (flt (key x) (key y)); [|reflexivity].
  rewrite IH. apply perm_swap.
Qed.

Lemma sorted_reverse_perm (l : list A) :
  Permutation (sorted_reverse key l) l.
Proof.
  induction l as [|x l IH]; simpl; [reflexivity|].
  rewrite insert_reverse_perm. now constructor.
Qed.

Lemma insert_reverse_sorted (x : A) (l : list A) :
  descending_by_key l -> descending_by_key (insert_reverse key x l).
Proof.
  unfold descending_by_key.
  induction 1 as [|y l Hl IH Hy]; simpl.
  - repeat constructor.
  - destruct (flt (key x) (key y)) eqn:E.
    + constructor; [exact IH|].
      rewrite (Forall_forall (fun b => (key b <= key y)%Q)).
      intros z Hz.
      apply (Permutation_in _ (insert_reverse_perm x l)) in Hz.
      destruct Hz as [<- | Hz]; [now apply flt_true|].
      rewrite Forall_forall in Hy. now apply Hy.
    + apply flt_false in E.
      constructor; [now constructor|].
      constructor; [exact E|].
      eapply Forall_impl; [|exact Hy].
      intros z Hz. cbv beta in Hz. eapply Qle_trans; eassumption.
Qed.

Lemma sorted_reverse_sorted (l : list A) :
  descending_by_key (sorted_reverse key l).
Proof.
  induction l as [|x l IH]; simpl; [constructor|].
  now apply insert_reverse_sorted.
Qed.

(** Stability: the elements with one and the same key keep their
    order. *)
Lemma insert_reverse_ties (q : Q) (x : A) (l : list A) :
  filter (fun a => Qeq_bool (key a) q) (insert_reverse key x l) =
  filter (fun a => Qeq_bool (key a) q) (x :: l).
Proof.
  induction l as [|y l IH]; [reflexivity|].
  cbn [insert_reverse].
  destruct (flt (key x) (key y)) eqn:E; [|reflexivity].
  cbn [filter] in *. rewrite IH.
  destruct (Qeq_bool (key x) q) eqn:Ex; [|reflexivity].
  destruct (Qeq_bool (key y) q) eqn:Ey; [|reflexivity].
  apply Qeq_bool_iff in Ex, Ey. apply flt_true_neq in E.
  assert (Hxy : Qeq_bool (key y) (key x) = true)
    by (apply Qeq_bool_iff; rewrite Ex, Ey; reflexivity).
  congruence.
Qed.

Lemma sorted_reverse_ties (q : Q) (l : list A) :
  filter (fun a => Qeq_bool (key a) q) (sorted_reverse key l) =
  filter (fun a => Qeq_bool (key a) q) l.
Proof.
  induction l as [|x l IH]; [reflexivity|].
  cbn [sorted_reverse fold_right].
  rewrite insert_reverse_ties. cbn [filter].
  fold (sorted_reverse key l). now rewrite IH.
Qed.
End SortedReverse.

Section Run.
Variable W : Type.
Variable find_button : control -> W -> lookup.
Variable click : control -> W -> bool * W.
Variable success_shown : W -> bool.
Variable navigate : string -> W -> bool * W.
Variable easy_apply_clickable : W -> bool.
Variable easy_apply_by_text : W -> bool.
Variable click_easy_apply : W -> bool * W.
Variable get_job_description : string -> W -> string * W.
Variable tfidf_cosine : list string -> result Q.
Variable resume : option ResumeParser.resume_data.
Variable min_match_score : Q.

Let analyze :=
  analyze W get_job_description tfidf_cosine resume min_match_score.
Let analyze_all :=
  analyze_all W get_job_description tfidf_cosine resume min_match_score.
Let categorize :=
  categorize W get_job_description tfidf_cosine resume min_match_score.
Let analyze_and_categorize_jobs :=
  analyze_and_categorize_jobs W get_job_description tfidf_cosine resume
                              min_match_score.

(** *** Categorization *)

Lemma analyze_listing (j : job) (w : W) :
  listing (fst (analyze j w)) = listing j.
Proof.
  unfold analyze, Automation.analyze. destruct resume; [|reflexivity].
  destruct (get_job_description (url j) w) as [text w'].
  destruct (JobMatcher.is_suitable_job _ _ _ _ _) as [[? ?] ?].
  reflexivity.
Qed.

Lemma analyze_all_listing (jobs : list job) :
  forall w, map listing (fst (analyze_all jobs w)) = map listing jobs.
Proof.
  unfold analyze_all.
  induction jobs as [|j rest IH]; intros w; [reflexivity|].
  cbn [Automation.analyze_all].
  pose proof (analyze_listing j w) as Hj. unfold analyze in Hj.
  destruct (Automation.analyze _ _ _ _ _ j w) as [j' w'].
  specialize (IH w').
  destruct (Automation.analyze_all _ _ _ _ _ rest w') as [rest' w''].
  cbn [fst map] in *. now rewrite Hj, IH.
Qed.

Lemma analyze_all_without_resume (jobs : list job) :
  resume = None -> forall w, analyze_all jobs w = (jobs, w).
Proof.
  intros Hr. unfold analyze_all.
  induction jobs as [|j rest IH]; intros w; [reflexivity|].
  cbn [Automation.analyze_all].
  assert (Ha : Automation.analyze W get_job_description tfidf_cosine
                                  resume min_match_score j w = (j, w))
    by (unfold Automation.analyze; now rewrite Hr).
  rewrite Ha, IH. reflexivity.
Qed.

(** The loop files every listing, as analysed, under its category, in
    discovery order. *)
Lemma categorize_spec (jobs : list job) :
  forall easy non_easy w,
    categorize jobs easy non_easy w =
    (easy ++ filter has_easy_apply (fst (analyze_all jobs w)),
     non_easy ++ filter not_easy_apply (fst (analyze_all jobs w)),
     snd (analyze_all jobs w)).
Proof.
  unfold categorize, analyze_all.
  induction jobs as [|j rest IH]; intros easy non_easy w.
  - cbn. now rewrite !app_nil_r.
  - cbn [Automation.categorize Automation.analyze_all].
    destruct (Automation.analyze _ _ _ _ _ j w) as [j' w'].
    specialize (IH (easy ++ [j']) non_easy w') as IHe.
    specialize (IH easy (non_easy ++ [j']) w') as IHn.
    destruct (Automation.analyze_all _ _ _ _ _ rest w') as [rest' w''].
    cbn [fst snd filter] in *.
    assert (Hn : not_easy_apply j' = negb (has_easy_apply j'))
      by reflexivity.
    rewrite Hn. destruct (has_easy_apply j'); cbn [negb].
    + rewrite IHe, <- app_assoc. reflexivity.
    + rewrite IHn, <- app_assoc. reflexivity.
Qed.

Lemma partition_perm (l : list job) :
  Permutation (filter has_easy_apply l ++ filter not_easy_apply l) l.
Proof.
  induction l as [|j l IH]; [reflexivity|].
  cbn [filter].
  assert (Hn : not_easy_apply j = negb (has_easy_apply j))
    by reflexivity.
  rewrite Hn. destruct (has_easy_apply j); cbn [negb app].
  - now constructor.
  - rewrite <- Permutation_middle. now constructor.
Qed.

Lemma Forall_filter_true (f : job -> bool) (l : list job) :
  Forall (fun j => f j = true) (filter f l).
Proof. apply Forall_forall. intros j Hj. now apply filter_In in Hj. Qed.

Lemma same_listing_same_count (a b : list job) :
  map listing a = map listing b ->
  List.length (filter has_easy_apply a) =
  List.length (filter has_easy_apply b).
Proof.
  revert b. induction a as [|x a IH]; intros [|y b] H;
    try discriminate; [reflexivity|].
  cbn [map] in H. injection H as Hx H.
  assert (He : has_easy_apply x = has_easy_apply y)
    by (unfold listing in Hx; congruence).
  cbn [filter]. rewrite He.
  destruct (has_easy_apply y); cbn [List.length]; now rewrite (IH b).
Qed.

Lemma categorized_without_resume (jobs : list job) (w : W) :
  resume = None ->
  analyze_all jobs w = (jobs, w) /\
  analyze_and_categorize_jobs jobs w =
  (filter has_easy_apply jobs, filter not_easy_apply jobs, w).
Proof.
  intros Hr.
  pose proof (analyze_all_without_resume jobs Hr w) as Ha.
  split; [exact Ha|].
  unfold analyze_and_categorize_jobs,
    Automation.analyze_and_categorize_jobs.
  pose proof (categorize_spec jobs [] [] w) as Hc.
  unfold categorize in Hc. rewrite Hc, Ha. cbn [app fst snd].
  unfold resume_given. now rewrite Hr.
Qed.

Lemma categorized_with_resume (jobs : list job) (w : W) rd :
  resume = Some rd ->
  analyze_and_categorize_jobs jobs w =
  (sorted_reverse match_score
     (filter has_easy_apply (fst (analyze_all jobs w))),
   sorted_reverse match_score
     (filter not_easy_apply (fst (analyze_all jobs w))),
   snd (analyze_all jobs w)).
Proof.
  intros Hr.
  unfold analyze_and_categorize_jobs,
    Automation.analyze_and_categorize_jobs.
  pose proof (categorize_spec jobs [] [] w) as Hc.
  unfold categorize in Hc. rewrite Hc. cbn [app].
  unfold resume_given. now rewrite Hr.
Qed.

Lemma not_easy_apply_false (l : list job) :
  Forall (fun j => has_easy_apply j = false) (filter not_easy_apply l).
Proof.
  eapply Forall_impl; [|apply Forall_filter_true].
  intros j Hj. now apply negb_true_iff in Hj.
Qed.

End Run.

Section Categorization.
Variable W : Type.
Variable get_job_description : string -> W -> string * W.
Variable tfidf_cosine : list string -> result Q.
Variable resume : option ResumeParser.resume_data.
Variable min_match_score : Q.

Local Abbreviation analyze_all :=
  (analyze_all W get_job_description tfidf_cosine resume
               min_match_score).
Local Abbreviation analyze_and_categorize_jobs :=
  (analyze_and_categorize_jobs W get_job_description tfidf_cosine
                               resume min_match_score).

Lemma count_filter (f : job -> bool) (j : job) (l : list job) :
  count j (filter f l) = if f j then count j l else 0.
Proof.
  unfold count. induction l as [|x l IH]; cbn [filter count_occ].
  - now destruct (f j).
  - destruct (f x) eqn:Hx; cbn [count_occ];
      destruct (job_eq_dec x j) as [->|Hne]; rewrite IH;
      destruct (f j); congruence.
Qed.

(** Each analysed listing is filed exactly once, under its category. *)
Lemma categorized_counts (jobs : list job) (w : W) :
  let '(easy, non_easy, _) := analyze_and_categorize_jobs jobs w in
  let analysed := fst (analyze_all jobs w) in
  forall j,
    count j easy = (if has_easy_apply j then count j analysed else 0) /\
    count j non_easy = (if has_easy_apply j then 0 else count j analysed).
Proof.
  assert (Hperm : forall l j,
             count j (sorted_reverse match_score l) = count j l)
    by (intros l j; apply Permutation_count_occ, sorted_reverse_perm).
  assert (Hnot : forall (l : list job) j,
             count j (filter not_easy_apply l) =
             if has_easy_apply j then 0 else count j l)
    by (intros l j; rewrite count_filter; unfold not_easy_apply;
        now destruct (has_easy_apply j)).
  destruct resume as [rd|] eqn:Hr.
  - rewrite (categorized_with_resume W get_job_description tfidf_cosine
                                     _ min_match_score jobs w rd eq_refl).
    cbv beta iota zeta. intros j. now rewrite !Hperm, count_filter, Hnot.
  - destruct (categorized_without_resume
                W get_job_description tfidf_cosine _ min_match_score
                jobs w eq_refl) as [Ha Hc].
    rewrite Hc, Ha. cbv beta iota zeta. cbn [fst].
    intros j. now rewrite count_filter, Hnot.
Qed.

(** C9.  Categorization files every listing, as analysed, under
    exactly one of two sequences according to [has_easy_apply]: the
    two together are a permutation of the analysed input, whose
    listings are the discovered ones in discovery order.  Without a
    resume the two sequences are the input filtered, in discovery
    order; with a resume each is in descending order of match score,
    and listings with equal match score keep their discovery order. *)
Theorem categorization_partitions_and_sorts (jobs : list job) (w : W) :
  let '(easy, non_easy, _) := analyze_and_categorize_jobs jobs w in
  let analysed := fst (analyze_all jobs w) in
  map listing analysed = map listing jobs /\
  Permutation (easy ++ non_easy) analysed /\
  Forall (fun j => has_easy_apply j = true) easy /\
  Forall (fun j => has_easy_apply j = false) non_easy /\
  List.length easy = List.length (filter has_easy_apply jobs) /\
  match resume with
  | None =>
      easy = filter has_easy_apply jobs /\
      non_easy = filter not_easy_apply jobs
  | Some _ =>
      descending easy /\ descending non_easy /\
      (forall q,
          ties q easy = ties q (filter has_easy_apply analysed)) /\
      (forall q,
          ties q non_easy = ties q (filter not_easy_apply analysed))
  end.
Proof.
  pose proof (analyze_all_listing W get_job_description tfidf_cosine
                                  resume min_match_score jobs w) as Hl.
  pose proof (same_listing_same_count _ _ Hl) as Hlen.
  destruct resume as [rd|] eqn:Hr.
  - rewrite (categorized_with_resume W get_job_description tfidf_cosine
                                     _ min_match_score jobs w rd eq_refl).
    set (analysed := fst (analyze_all jobs w)) in *.
    split; [exact Hl|]. split; [|split; [|split; [|split]]].
    + rewrite !sorted_reverse_perm. apply partition_perm.
    + eapply Permutation_Forall;
        [symmetry; apply sorted_reverse_perm | apply Forall_filter_true].
    + eapply Permutation_Forall;
        [symmetry; apply sorted_reverse_perm
        | apply not_easy_apply_false].
    + rewrite <- Hlen. apply Permutation_length, sorted_reverse_perm.
    + repeat split; try apply sorted_reverse_sorted;
        intros q; apply sorted_reverse_ties.
  - destruct (categorized_without_resume
                W get_job_description tfidf_cosine _ min_match_score
                jobs w eq_refl) as [Ha Hc].
    rewrite Hc, Ha. cbn [fst].
    split; [reflexivity|]. split; [|split; [|split; [|split]]].
    + apply partition_perm.
    + apply Forall_filter_true.
    + apply not_easy_apply_false.
    + reflexivity.
    + now split.
Qed.

End Categorization.

(** Four Easy Apply listings and one without: the listing naming both
    skills comes first, the two naming one skill each keep their discovery
    order, the one naming none is last. *)
Example categorization_example :
  let '(easy, non_easy, _) :=
    OneClick.categorize_with_sample_resume
      [OneClick.discovered "Gardener" "/jobs/1" true;
       OneClick.discovered "Python Developer" "/jobs/2" true;
       OneClick.discovered "Warehouse Clerk" "/jobs/3" false;
       OneClick.discovered "SQL Analyst" "/jobs/4" true;
       OneClick.discovered "Python and SQL Engineer" "/jobs/5" true] in
  map title easy = ["Python and SQL Engineer"; "Python Developer";
                    "SQL Analyst"; "Gardener"] /\
  map title non_easy = ["Warehouse Clerk"] /\
  map (fun j => JobMatcher.format_2f (match_score j)) easy =
  ["0.65"; "0.50"; "0.50"; "0.35"].
Proof. vm_compute. repeat split. Qed.

Section Bookkeeping.
Variable W : Type.
Variable find_button : control -> W -> lookup.
Variable click : control -> W -> bool * W.
Variable success_shown : W -> bool.
Variable navigate : string -> W -> bool * W.
Variable easy_apply_clickable : W -> bool.
Variable easy_apply_by_text : W -> bool.
Variable click_easy_apply : W -> bool * W.
Variable resume : option ResumeParser.resume_data.

Local Abbreviation apply_to_job :=
  (apply_to_job W find_button click success_shown navigate
                easy_apply_clickable easy_apply_by_text click_easy_apply).
Local Abbreviation apply_loop :=
  (apply_loop W find_button click success_shown navigate
              easy_apply_clickable easy_apply_by_text click_easy_apply
              resume).
Local Abbreviation visited :=
  (visited W find_button click success_shown navigate
           easy_apply_clickable easy_apply_by_text click_easy_apply
           resume).
Local Abbreviation fate :=
  (fate W find_button click success_shown navigate
        easy_apply_clickable easy_apply_by_text click_easy_apply resume).
Local Abbreviation filed :=
  (filed W find_button click success_shown navigate
         easy_apply_clickable easy_apply_by_text click_easy_apply resume).

Lemma count_cons (j0 j : job) (l : list job) :
  count j0 (j :: l) = count j0 [j] + count j0 l.
Proof. unfold count. apply (count_occ_app job_eq_dec [j] l). Qed.

Lemma count_snoc (j0 j : job) (l : list job) :
  count j0 (l ++ [j]) = count j0 l + count j0 [j].
Proof. unfold count. apply count_occ_app. Qed.

Lemma outcomes_with_session j0 (st : state W) w :
  outcomes j0 (with_session W st w) = outcomes j0 st.
Proof. reflexivity. Qed.

Lemma outcomes_append_applied j0 (st : state W) j :
  outcomes j0 (append_applied W st j) = outcomes j0 st + count j0 [j].
Proof.
  unfold outcomes.
  cbn [applied_jobs failed_jobs unsuitable_jobs append_applied].
  rewrite count_snoc. lia.
Qed.

Lemma outcomes_append_failed j0 (st : state W) j :
  outcomes j0 (append_failed W st j) = outcomes j0 st + count j0 [j].
Proof.
  unfold outcomes.
  cbn [applied_jobs failed_jobs unsuitable_jobs append_failed].
  rewrite count_snoc. lia.
Qed.

Lemma outcomes_append_unsuitable j0 (st : state W) j :
  outcomes j0 (append_unsuitable W st j) = outcomes j0 st + count j0 [j].
Proof.
  unfold outcomes.
  cbn [applied_jobs failed_jobs unsuitable_jobs append_unsuitable].
  rewrite count_snoc. lia.
Qed.

Lemma outcomes_append_suitable j0 (st : state W) j :
  outcomes j0 (append_suitable W st j) = outcomes j0 st.
Proof. reflexivity. Qed.

Ltac bookkeeping :=
  cbn [easy_apply_jobs non_easy_apply_jobs applied_jobs
       append_applied append_failed append_unsuitable append_suitable
       with_session];
  rewrite ?length_app; cbn [List.length];
  repeat split; intros;
  rewrite ?outcomes_append_applied, ?outcomes_append_failed,
    ?outcomes_append_unsuitable, ?outcomes_append_suitable,
    ?outcomes_with_session;
  try lia.

(** What one attempt does to the collections: the two categories and the
    skipped listings stay, and the listing is appended to at most one of
    [applied_jobs] and [failed_jobs]. *)
Lemma apply_to_job_outcomes (j : job) (st : state W) ok st' :
  apply_to_job j st = (ok, st') ->
  easy_apply_jobs W st' = easy_apply_jobs W st /\
  non_easy_apply_jobs W st' = non_easy_apply_jobs W st /\
  List.length (applied_jobs W st') =
  List.length (applied_jobs W st) + (if ok then 1 else 0) /\
  (forall j0, outcomes j0 st' <= outcomes j0 st + count j0 [j]).
Proof.
  unfold Automation.apply_to_job.
  destruct (navigate (url j) (session W st)) as [[|] w1].
  - destruct (easy_apply_clickable w1 || easy_apply_by_text w1) eqn:Hfound.
    + destruct (click_easy_apply w1) as [[|] w2].
      * destruct (handle_application_process W find_button click
                                             success_shown w2)
          as [[|] w3]; intros E; injection E as <- <-; bookkeeping.
      * intros E; injection E as <- <-. bookkeeping.
    + intros E; injection E as <- <-. bookkeeping.
  - intros E; injection E as <- <-. bookkeeping.
Qed.

(** What the loop over the Easy Apply listings does to the collections. *)
Lemma apply_loop_outcomes (max_applications : Z) (jobs : list job) :
  forall sent (st : state W),
    let st' := apply_loop max_applications jobs sent st in
    easy_apply_jobs W st' = easy_apply_jobs W st /\
    non_easy_apply_jobs W st' = non_easy_apply_jobs W st /\
    List.length (applied_jobs W st) <= List.length (applied_jobs W st') /\
    (forall j0, outcomes j0 st' <= outcomes j0 st + count j0 jobs).
Proof.
  induction jobs as [|j rest IH]; intros sent st; cbn zeta.
  - cbn [Automation.apply_loop]. unfold count. cbn [count_occ].
    repeat split; intros; lia.
  - cbn [Automation.apply_loop].
    destruct (max_applications <=? Z.of_nat sent)%Z.
    + repeat split; intros; lia.
    + destruct (resume_given resume && negb (is_suitable j)).
      * destruct (IH sent (append_unsuitable W st j))
          as (He & Hn & Hlen & Hle).
        repeat split; try assumption.
        intros j0. specialize (Hle j0).
        rewrite outcomes_append_unsuitable in Hle.
        rewrite (count_cons j0 j rest). lia.
      * destruct (apply_to_job j st) as [ok st1] eqn:Hjob.
        destruct (apply_to_job_outcomes j st ok st1 Hjob)
          as (He1 & Hn1 & Hlen1 & Hle1).
        destruct ok.
        -- destruct (IH (sent + 1) (append_suitable W st1 j))
             as (He & Hn & Hlen & Hle).
           cbn [easy_apply_jobs non_easy_apply_jobs applied_jobs
                append_suitable] in He, Hn, Hlen.
           repeat split; try congruence; try lia.
           intros j0. specialize (Hle j0). specialize (Hle1 j0).
           rewrite outcomes_append_suitable in Hle.
           rewrite (count_cons j0 j rest). lia.
        -- destruct (IH sent st1) as (He & Hn & Hlen & Hle).
           repeat split; try congruence; try lia.
           intros j0. specialize (Hle j0). specialize (Hle1 j0).
           rewrite (count_cons j0 j rest). lia.
Qed.

(** *** The ledger of the loop *)

Lemma filing_eqb_eq (a b : filing) : filing_eqb a b = true <-> a = b.
Proof. destruct a, b; cbn; split; intros H; congruence. Qed.

Lemma filed_cons (f : filing) (j : job) (w : W) (v : list (job * W)) :
  filed f ((j, w) :: v) =
  if filing_eqb (fate j w) f then j :: filed f v else filed f v.
Proof.
  unfold Automation.filed. cbn [filter fst snd].
  destruct (filing_eqb _ f); reflexivity.
Qed.

Lemma In_filed (f : filing) (j : job) (v : list (job * W)) :
  In j (filed f v) <-> exists w, In (j, w) v /\ fate j w = f.
Proof.
  unfold Automation.filed. rewrite in_map_iff. split.
  - intros ([j' w] & Hj & Hin). cbn [fst] in Hj. subst j'.
    apply filter_In in Hin as [Hin Hf]. cbn [fst snd] in Hf.
    exists w. split; [exact Hin | now apply filing_eqb_eq].
  - intros (w & Hin & Hf). exists (j, w). split; [reflexivity|].
    apply filter_In. split; [exact Hin|].
    cbn [fst snd]. now apply filing_eqb_eq.
Qed.

(** The pass of a listing that is not skipped files it where [fate]
    says, and answers [True] exactly when that is [applied_jobs]. *)
Lemma apply_to_job_fate (j : job) (st : state W) ok st' :
  resume_given resume && negb (is_suitable j) = false ->
  apply_to_job j st = (ok, st') ->
  let f := fate j (session W st) in
  ok = filing_eqb f Applied /\
  applied_jobs W st' =
  applied_jobs W st ++ (if filing_eqb f Applied then [j] else []) /\
  failed_jobs W st' =
  failed_jobs W st ++ (if filing_eqb f Failed then [j] else []) /\
  unsuitable_jobs W st' = unsuitable_jobs W st /\
  suitable_jobs W st' = suitable_jobs W st /\
  filing_eqb f Unsuitable = false.
Proof.
  intros Hskip. unfold Automation.apply_to_job, Automation.fate.
  rewrite Hskip.
  destruct (navigate (url j) (session W st)) as [[|] w1].
  - destruct (easy_apply_clickable w1 || easy_apply_by_text w1).
    + destruct (click_easy_apply w1) as [[|] w2].
      * destruct (handle_application_process W find_button click
                                             success_shown w2)
          as [[|] w3]; intros E; injection E as <- <-;
          cbn [fst filing_eqb applied_jobs failed_jobs unsuitable_jobs
               suitable_jobs append_applied append_failed with_session];
          rewrite ?app_nil_r; repeat split.
      * intros E; injection E as <- <-.
        cbn [filing_eqb applied_jobs failed_jobs unsuitable_jobs
             suitable_jobs append_failed with_session].
        rewrite ?app_nil_r. repeat split.
    + intros E; injection E as <- <-.
      cbn [filing_eqb applied_jobs failed_jobs unsuitable_jobs
           suitable_jobs with_session].
      rewrite ?app_nil_r. repeat split.
  - intros E; injection E as <- <-.
    cbn [filing_eqb applied_jobs failed_jobs unsuitable_jobs
         suitable_jobs append_failed with_session].
    rewrite ?app_nil_r. repeat split.
Qed.

(** The collections after the loop are the collections before it followed
    by the listings of the ledger, each under the heading its pass names;
    the ledger is a prefix of the list, and it is shorter than the list
    only when the counter has reached the cap. *)
Lemma apply_loop_ledger (max_applications : Z) (jobs : list job) :
  forall sent (st : state W),
    let st' := apply_loop max_applications jobs sent st in
    let visits := visited max_applications jobs sent st in
    applied_jobs W st' = applied_jobs W st ++ filed Applied visits /\
    failed_jobs W st' = failed_jobs W st ++ filed Failed visits /\
    unsuitable_jobs W st' =
    unsuitable_jobs W st ++ filed Unsuitable visits /\
    suitable_jobs W st' = suitable_jobs W st ++ filed Applied visits /\
    map fst visits = firstn (List.length visits) jobs /\
    (List.length visits < List.length jobs ->
     (max_applications
      <= Z.of_nat (sent + List.length (filed Applied visits)))%Z) /\
    (Z.of_nat (sent + List.length (filed Applied visits))
     <= Z.max (Z.of_nat sent) max_applications)%Z.
Proof.
  induction jobs as [|j rest IH]; intros sent st; cbn zeta.
  - cbn [Automation.apply_loop Automation.visited].
    unfold Automation.filed. cbn [filter map List.length firstn].
    rewrite !app_nil_r. repeat split; lia.
  - cbn [Automation.apply_loop Automation.visited].
    destruct (max_applications <=? Z.of_nat sent)%Z eqn:Hcap.
    + apply Z.leb_le in Hcap.
      unfold Automation.filed. cbn [filter map List.length firstn].
      rewrite !app_nil_r. repeat split; lia.
    + apply Z.leb_gt in Hcap.
      rewrite !filed_cons. cbn [map fst List.length firstn].
      destruct (resume_given resume && negb (is_suitable j)) eqn:Hskip.
      * assert (Hf : fate j (session W st) = Unsuitable)
          by (unfold Automation.fate; now rewrite Hskip).
        rewrite Hf. cbn [filing_eqb].
        destruct (IH sent (append_unsuitable W st j))
          as (Ha & Hf' & Hu & Hs & Hpre & Hstop & Hle).
        cbn [applied_jobs failed_jobs unsuitable_jobs suitable_jobs
             append_unsuitable] in Ha, Hf', Hu, Hs.
        rewrite Ha, Hf', Hu, Hs, <- app_assoc, Hpre at 1.
        repeat split; try assumption. intros Hlt. apply Hstop. lia.
      * destruct (apply_to_job j st) as [ok st1] eqn:Hjob.
        destruct (apply_to_job_fate j st ok st1 Hskip Hjob)
          as (Hok & Ha1 & Hf1 & Hu1 & Hs1 & Hnot).
        cbv zeta in Hok, Ha1, Hf1, Hnot. rewrite Hnot.
        destruct (filing_eqb (fate j (session W st)) Applied) eqn:Happ;
          subst ok.
        -- assert (Hfail : filing_eqb (fate j (session W st)) Failed
                           = false)
             by (apply filing_eqb_eq in Happ; now rewrite Happ).
           rewrite Hfail in *. rewrite app_nil_r in Hf1.
           destruct (IH (sent + 1) (append_suitable W st1 j))
             as (Ha & Hf' & Hu & Hs & Hpre & Hstop & Hle).
           cbn [applied_jobs failed_jobs unsuitable_jobs suitable_jobs
                append_suitable] in Ha, Hf', Hu, Hs.
           rewrite Ha, Hf', Hu, Hs, Ha1, Hf1, Hu1, Hs1, <- !app_assoc,
             Hpre at 1.
           cbn [List.length app].
           repeat split; try assumption.
           ++ intros Hlt.
              replace (sent + S (List.length (filed Applied _)))
                with (sent + 1 + List.length
                        (filed Applied
                           (visited max_applications rest (sent + 1)
                                    (append_suitable W st1 j))))
                by lia.
              apply Hstop. lia.
           ++ replace (sent + S (List.length (filed Applied _)))
                with (sent + 1 + List.length
                        (filed Applied
                           (visited max_applications rest (sent + 1)
                                    (append_suitable W st1 j))))
                by lia.
              lia.
        -- rewrite app_nil_r in Ha1.
           destruct (IH sent st1)
             as (Ha & Hf' & Hu & Hs & Hpre & Hstop & Hle).
           rewrite Ha, Hf', Hu, Hs, Ha1, Hf1, Hu1, Hs1, <- ?app_assoc,
             Hpre at 1.
           destruct (filing_eqb (fate j (session W st)) Failed);
             cbn [app]; repeat split; try assumption;
             intros Hlt; apply Hstop; lia.
Qed.

(** The pass files the listing nowhere exactly when the listing is not
    skipped, its page opens and neither selector finds the Easy Apply
    button there. *)
Lemma fate_nowhere (j : job) (w : W) :
  fate j w = Nowhere <->
  resume_given resume && negb (is_suitable j) = false /\
  exists w1,
    navigate (url j) w = (true, w1) /\
    easy_apply_clickable w1 || easy_apply_by_text w1 = false.
Proof.
  unfold Automation.fate.
  destruct (resume_given resume && negb (is_suitable j)).
  - split; [discriminate | intros [H _]; discriminate].
  - destruct (navigate (url j) w) as [[|] w1].
    + destruct (easy_apply_clickable w1 || easy_apply_by_text w1) eqn:Hb.
      * split.
        -- destruct (click_easy_apply w1) as [[|] w2];
             [destruct (fst _)|]; discriminate.
        -- intros (_ & w1' & E & Hb'). injection E as <-. congruence.
      * split; [|reflexivity].
        intros _. split; [reflexivity|]. now exists w1.
    + split; [discriminate|].
      intros (_ & w1' & E & _). discriminate.
Qed.

End Bookkeeping.

Section WholeRun.
Variable W : Type.
Variable find_button : control -> W -> lookup.
Variable click : control -> W -> bool * W.
Variable success_shown : W -> bool.
Variable navigate : string -> W -> bool * W.
Variable easy_apply_clickable : W -> bool.
Variable easy_apply_by_text : W -> bool.
Variable click_easy_apply : W -> bool * W.
Variable get_job_description : string -> W -> string * W.
Variable tfidf_cosine : list string -> result Q.
Variable resume : option ResumeParser.resume_data.
Variable min_match_score : Q.

Local Abbreviation run :=
  (run W find_button click success_shown navigate easy_apply_clickable
       easy_apply_by_text click_easy_apply get_job_description
       tfidf_cosine resume min_match_score).
Local Abbreviation run_visits :=
  (run_visits W find_button click success_shown navigate
              easy_apply_clickable easy_apply_by_text click_easy_apply
              get_job_description tfidf_cosine resume min_match_score).
Local Abbreviation analyze_all :=
  (analyze_all W get_job_description tfidf_cosine resume min_match_score).
Local Abbreviation fate :=
  (fate W find_button click success_shown navigate
        easy_apply_clickable easy_apply_by_text click_easy_apply resume).
Local Abbreviation filed :=
  (filed W find_button click success_shown navigate
         easy_apply_clickable easy_apply_by_text click_easy_apply resume).

(** A run on a fresh object is categorization followed by the loop over
    the Easy Apply listings. *)
Lemma run_unfold (all_jobs : list job) (max_applications : Z) (w0 : W) :
  run all_jobs max_applications (initial W w0) =
  let '(easy, non_easy, w) :=
    analyze_and_categorize_jobs W get_job_description tfidf_cosine resume
                                min_match_score all_jobs w0 in
  apply_loop W find_button click success_shown navigate
             easy_apply_clickable easy_apply_by_text click_easy_apply
             resume max_applications easy 0
             (with_categories W (with_session W (initial W w0) w)
                              easy non_easy).
Proof.
  unfold Automation.run. destruct all_jobs as [|j rest].
  - unfold analyze_and_categorize_jobs. cbn [categorize].
    destruct (resume_given resume); reflexivity.
  - cbn [session initial].
    destruct (analyze_and_categorize_jobs _ _ _ _ _ (j :: rest) w0)
      as [[easy non_easy] w].
    destruct easy; reflexivity.
Qed.

(** C1, as the code has it.  After a run on a fresh object:

    - every analysed listing without Easy Apply is in the manual-review
      collection, as often as it was discovered, and in none of the three
      outcome collections; a listing with Easy Apply is never in manual
      review and is in the outcome collections no more often than it was
      discovered;
    - the loop visits the Easy Apply listings in their order, and stops
      before the end of the list only when the applications sent have
      reached [max_applications];
    - every visited entry is filed where its own pass says: the three
      outcome collections are exactly the visited entries whose pass
      names them, in order, so no entry is filed twice and an entry
      whose Easy Apply button is not found is filed nowhere; a listing
      the loop does not visit is in none of the three;
    - the pass files an entry nowhere exactly when the entry is not
      skipped, its page opens and no selector finds the button;
    - so a listing discovered at most once is in no two collections, and
      it is in exactly one of applied, failed and skipped-as-unsuitable
      exactly when the loop visits it and its pass files it somewhere. *)
Theorem outcome_collections_are_disjoint
        (all_jobs : list job) (max_applications : Z) (w0 : W) :
  let st := run all_jobs max_applications (initial W w0) in
  let analysed := fst (analyze_all all_jobs w0) in
  let visits := run_visits all_jobs max_applications w0 in
  (forall j,
      if has_easy_apply j
      then outcomes j st <= count j analysed /\
           count j (non_easy_apply_jobs W st) = 0
      else count j (non_easy_apply_jobs W st) = count j analysed /\
           outcomes j st = 0) /\
  (map fst visits =
   firstn (List.length visits) (easy_apply_jobs W st) /\
   (List.length visits < List.length (easy_apply_jobs W st) ->
    (max_applications <= Z.of_nat (List.length (applied_jobs W st)))%Z)) /\
  (applied_jobs W st = filed Applied visits /\
   failed_jobs W st = filed Failed visits /\
   unsuitable_jobs W st = filed Unsuitable visits) /\
  (forall j, ~ In j (map fst visits) -> outcomes j st = 0) /\
  (forall j w,
      fate j w = Nowhere <->
      resume_given resume && negb (is_suitable j) = false /\
      exists w1,
        navigate (url j) w = (true, w1) /\
        easy_apply_clickable w1 || easy_apply_by_text w1 = false) /\
  (forall j,
      count j analysed <= 1 ->
      ~ (In j (applied_jobs W st) /\ In j (failed_jobs W st)) /\
      ~ (In j (applied_jobs W st) /\ In j (unsuitable_jobs W st)) /\
      ~ (In j (failed_jobs W st) /\ In j (unsuitable_jobs W st)) /\
      ~ (In j (non_easy_apply_jobs W st) /\
         (In j (applied_jobs W st) \/ In j (failed_jobs W st) \/
          In j (unsuitable_jobs W st))) /\
      (outcomes j st = 1 <->
       exists w, In (j, w) visits /\ fate j w <> Nowhere)).
Proof.
  cbn zeta. unfold Automation.run_visits. rewrite run_unfold.
  pose proof (categorized_counts W get_job_description tfidf_cosine resume
                                 min_match_score all_jobs w0) as Hcat.
  destruct (analyze_and_categorize_jobs _ _ _ _ _ all_jobs w0)
    as [[easy non_easy] w].
  cbn zeta in Hcat.
  set (st1 := with_categories W (with_session W (initial W w0) w)
                              easy non_easy).
  destruct (apply_loop_outcomes W find_button click success_shown navigate
                                easy_apply_clickable easy_apply_by_text
                                click_easy_apply resume max_applications
                                easy 0 st1)
    as (Heasy & Hnon & _ & Hle).
  destruct (apply_loop_ledger W find_button click success_shown navigate
                              easy_apply_clickable easy_apply_by_text
                              click_easy_apply resume max_applications
                              easy 0 st1)
    as (Ha & Hf & Hu & _ & Hpre & Hstop & _).
  cbn zeta in Heasy, Hnon, Hle, Ha, Hf, Hu, Hpre, Hstop.
  cbn [st1 with_categories with_session initial applied_jobs failed_jobs
       unsuitable_jobs easy_apply_jobs non_easy_apply_jobs app]
    in Heasy, Hnon, Ha, Hf, Hu.
  fold st1 in Heasy, Hnon, Ha, Hf, Hu.
  set (st := apply_loop W find_button click success_shown navigate
                        easy_apply_clickable easy_apply_by_text
                        click_easy_apply resume max_applications easy 0
                        st1) in *.
  set (visits := visited W find_button click success_shown navigate
                         easy_apply_clickable easy_apply_by_text
                         click_easy_apply resume max_applications easy 0
                         st1) in *.
  assert (Hzero : forall j, outcomes j st1 = 0) by reflexivity.
  assert (Hcount : forall j,
             if has_easy_apply j
             then outcomes j st <= count j (fst (analyze_all all_jobs w0))
                  /\ count j non_easy = 0
             else count j non_easy = count j (fst (analyze_all all_jobs w0))
                  /\ outcomes j st = 0).
  { intros j. destruct (Hcat j) as [He Hmanual].
    specialize (Hle j). rewrite Hzero, He in Hle.
    destruct (has_easy_apply j); split; try assumption; lia. }
  rewrite Heasy, Hnon.
  split; [exact Hcount | split; [split | split; [|split; [|split]]]].
  - exact Hpre.
  - intros Hlt. rewrite Ha. apply Hstop in Hlt. exact Hlt.
  - now rewrite Ha, Hf, Hu.
  - intros j Hnot.
    assert (Hout : forall f, ~ In j (filed f visits)).
    { intros f Hin. apply In_filed in Hin as (w' & Hin & _).
      apply Hnot. apply (in_map fst) in Hin. exact Hin. }
    unfold outcomes, count. rewrite Ha, Hf, Hu.
    rewrite !(proj1 (count_occ_not_In job_eq_dec _ _)) by apply Hout.
    reflexivity.
  - intros j w'. apply fate_nowhere.
  - intros j Hone. specialize (Hcount j).
    assert (Hpairs :
              outcomes j st + count j non_easy <= 1).
    { destruct (has_easy_apply j); lia. }
    unfold outcomes in Hpairs.
    rewrite !(count_occ_In job_eq_dec). fold (count j non_easy).
    fold (count j (applied_jobs W st)) (count j (failed_jobs W st))
         (count j (unsuitable_jobs W st)).
    repeat split; try lia.
    + intros Hout.
      assert (Hsome : In j (applied_jobs W st) \/ In j (failed_jobs W st)
                      \/ In j (unsuitable_jobs W st)).
      { rewrite !(count_occ_In job_eq_dec).
        unfold outcomes, count in Hout. lia. }
      rewrite Ha, Hf, Hu in Hsome.
      destruct Hsome as [H | [H | H]];
        apply In_filed in H as (w' & Hin & Hfate);
        exists w'; (split; [exact Hin | rewrite Hfate; discriminate]).
    + intros (w' & Hin & Hfate).
      assert (Hsome : In j (applied_jobs W st) \/ In j (failed_jobs W st)
                      \/ In j (unsuitable_jobs W st)).
      { rewrite Ha, Hf, Hu.
        destruct (fate j w') eqn:Hfj; try congruence;
          [left | right; left | right; right];
          apply In_filed; now exists w'. }
      rewrite !(count_occ_In job_eq_dec) in Hsome.
      unfold outcomes, count in *. lia.
Qed.

End WholeRun.

Import OneClick.

(** On the site where the page of "/jobs/2" has no Easy Apply button,
    with a cap of 50 and no resume: the first listing is visited and is in
    exactly one outcome collection, the second is visited too but is in
    none, the third is in manual review. *)
Lemma outcome_collections_example :
  let st :=
    Automation.run
      MissingButton.session MissingButton.find_button MissingButton.click
      MissingButton.success_shown MissingButton.navigate
      MissingButton.easy_apply_clickable MissingButton.easy_apply_by_text
      MissingButton.click_easy_apply MissingButton.get_job_description
      JobMatcher.half_similar None (3 # 10)%Q
      [job_a; job_b; job_c] 50
      (initial MissingButton.session MissingButton.start) in
  ~ (In job_a (applied_jobs _ st) /\ In job_a (failed_jobs _ st)) /\
  outcomes job_a st = 1 /\
  ~ outcomes job_b st = 1 /\
  applied_jobs _ st = [job_a] /\
  outcomes job_c st = 0 /\ count job_c (non_easy_apply_jobs _ st) = 1.
Proof.
  destruct (outcome_collections_are_disjoint
              MissingButton.session MissingButton.find_button
              MissingButton.click MissingButton.success_shown
              MissingButton.navigate MissingButton.easy_apply_clickable
              MissingButton.easy_apply_by_text
              MissingButton.click_easy_apply
              MissingButton.get_job_description
              JobMatcher.half_similar None (3 # 10)%Q
              [job_a; job_b; job_c] 50%Z MissingButton.start)
    as (Hall & _ & (Happlied & _) & _ & _ & Hone).
  destruct (Hone job_a) as (Hapart & _ & _ & _ & Ha);
    [vm_compute; lia|].
  destruct (Hone job_b) as (_ & _ & _ & _ & Hb);
    [vm_compute; lia|].
  pose proof (Hall job_c) as Hc.
  cbn [has_easy_apply job_c discovered] in Hc.
  destruct Hc as [Hmanual Hnone].
  cbv zeta.
  split; [exact Hapart|].
  split; [apply Ha; exists MissingButton.start;
          split; [vm_compute; now left | vm_compute; discriminate]|].
  split.
  { intros Hout. apply Hb in Hout as (w & Hin & Hfate).
    vm_compute in Hin.
    destruct Hin as [E | [E | []]]; [discriminate E|].
    injection E as <-. apply Hfate. reflexivity. }
  split; [rewrite Happlied; reflexivity|].
  split; [exact Hnone | rewrite Hmanual; reflexivity].
Defined.

(** C1 as stated fails: with a cap of one application the second Easy
    Apply listing is never reached and ends in none of the three outcome
    collections. *)
Lemma listing_beyond_cap_in_no_collection :
  let st := run_without_resume [job_a; job_b; job_c] 1 in
  has_easy_apply job_b = true /\
  easy_apply_jobs session st = [job_a; job_b] /\
  applied_jobs session st = [job_a] /\
  failed_jobs session st = [] /\
  unsuitable_jobs session st = [] /\
  outcomes job_b st = 0.
Proof. repeat split. Qed.

End AutomationFacts.

(* ================================================================== *)
(** * Part III.  Further properties of the code *)
(* ================================================================== *)

(** ** Resume analysis, continued *)

Module ResumeParserMoreFacts.
Import Str StrFacts Re ReFacts ResumeParser ResumeParserFacts.
Import ResumeParserMore.

(** *** Letter case and substrings *)

Lemma lower_app (a b : string) :
  lower (a ++ b)%string = (lower a ++ lower b)%string.
Proof. induction a as [|c a IH]; simpl; [reflexivity | now rewrite IH]. Qed.

Lemma substring_lower (k s : string) :
  substring k s -> substring (lower k) (lower s).
Proof.
  intros (pre & post & ->). exists (lower pre), (lower post).
  now rewrite !lower_app.
Qed.

Lemma substring_trans (a b c : string) :
  substring a b -> substring b c -> substring a c.
Proof.
  intros (p1 & q1 & ->) (p2 & q2 & ->).
  exists (p2 ++ p1)%string, (q1 ++ q2)%string.
  now rewrite !append_assoc.
Qed.

Lemma starts_with_occurs (k h : string) :
  starts_with k h = true -> occurs_in k h = true.
Proof. intros H. destruct h; simpl; now rewrite H. Qed.

(** *** Lines *)

Lemma split_lines_nonempty (s : string) :
  exists line lines, split_lines s = line :: lines.
Proof.
  induction s as [|c s (line & lines & IH)]; simpl.
  - now exists "", [].
  - destruct (Ascii.eqb c newline); [now exists "", (split_lines s)|].
    rewrite IH. now exists (String c line), lines.
Qed.

Lemma starts_with_first_line (k : string) :
  forall s,
    starts_with k s = true -> single_line k = true ->
    exists line lines,
      split_lines s = line :: lines /\ starts_with k line = true.
Proof.
  induction k as [|a k IH]; intros s Hs Hk.
  - destruct (split_lines_nonempty s) as (line & lines & E).
    exists line, lines. split; [exact E | reflexivity].
  - destruct s as [|b s]; [discriminate|].
    cbn [starts_with single_line] in Hs, Hk.
    apply andb_true_iff in Hs as [Hab Hs].
    apply andb_true_iff in Hk as [Ha Hk].
    apply Ascii.eqb_eq in Hab. subst b.
    destruct (IH s Hs Hk) as (line & lines & E & Hl).
    cbn [split_lines]. apply negb_true_iff in Ha. rewrite Ha, E.
    exists (String a line), lines. split; [reflexivity|].
    cbn [starts_with]. now rewrite Ascii.eqb_refl, Hl.
Qed.

(** A keyword without a line feed that occurs in a text occurs in one of
    its lines. *)
Lemma occurs_in_some_line (k : string) (s : string) :
  occurs_in k s = true -> single_line k = true ->
  Exists (fun line => occurs_in k line = true) (split_lines s).
Proof.
  intros Hocc Hk. induction s as [|c s IH].
  - cbn [split_lines]. now constructor.
  - cbn [occurs_in] in Hocc. apply orb_true_iff in Hocc as [Hst | Hocc].
    + destruct (starts_with_first_line k _ Hst Hk) as (line & lines & E & Hl).
      rewrite E. constructor. now apply starts_with_occurs.
    + specialize (IH Hocc). cbn [split_lines].
      destruct (Ascii.eqb c newline); [now apply Exists_cons_tl|].
      destruct (split_lines s) as [|line lines]; [inversion IH|].
      inversion IH as [? ? Hl | ? ? Hl]; subst.
      * constructor. cbn [occurs_in]. rewrite Hl. apply orb_true_r.
      * now apply Exists_cons_tl.
Qed.

(** *** Education *)

Lemma first_line_with_some keyword lines e :
  first_line_with keyword lines = Some e ->
  exists line,
    In line lines /\ occurs_in keyword (lower line) = true /\
    e = strip line.
Proof.
  induction lines as [|line rest IH]; cbn [first_line_with]; [discriminate|].
  destruct (occurs_in keyword (lower line)) eqn:E.
  - intros H. injection H as <-. exists line. repeat split; [now left | exact E].
  - intros H. destruct (IH H) as (l & Hin & Hl & He).
    exists l. repeat split; [now right | exact Hl | exact He].
Qed.

Lemma first_line_with_found keyword lines :
  Exists (fun line => occurs_in keyword (lower line) = true) lines ->
  first_line_with keyword lines <> None.
Proof.
  induction 1 as [line rest H | line rest _ IH]; cbn [first_line_with].
  - now rewrite H.
  - destruct (occurs_in keyword (lower line)); [discriminate | exact IH].
Qed.

Lemma education_lines_entries (keywords : list string) (text : string) :
  incl keywords education_keywords ->
  Forall (education_entry text) (education_lines keywords text) /\
  List.length (education_lines keywords text) <= List.length keywords.
Proof.
  induction keywords as [|k ks IH]; intros Hincl; cbn [education_lines].
  - split; [constructor | reflexivity].
  - destruct IH as [IHf IHl]; [intros x Hx; apply Hincl; now right|].
    cbn [List.length].
    destruct (occurs_in k text) eqn:Hk; [|split; [exact IHf | lia]].
    destruct (first_line_with k (split_lines text)) as [e|] eqn:He;
      [|split; [exact IHf | lia]].
    split; [|cbn [List.length]; lia].
    constructor; [|exact IHf].
    destruct (first_line_with_some _ _ _ He) as (line & Hin & Hl & ->).
    exists k, line. repeat split.
    + apply Hincl. now left.
    + exact Hin.
    + now apply occurs_in_spec.
    + now apply occurs_in_spec.
Qed.

Lemma education_keywords_plain :
  Forall (fun k => lower k = k /\ single_line k = true) education_keywords.
Proof. repeat constructor. Qed.

Lemma education_lines_empty (keywords : list string) (text : string) :
  incl keywords education_keywords ->
  (education_lines keywords text = [] <->
   Forall (fun keyword => ~ substring keyword text) keywords).
Proof.
  induction keywords as [|k ks IH]; intros Hincl; cbn [education_lines].
  - split; [constructor | reflexivity].
  - assert (Hks : incl ks education_keywords)
      by (intros x Hx; apply Hincl; now right).
    specialize (IH Hks).
    assert (Hplain : lower k = k /\ single_line k = true).
    { pose proof education_keywords_plain as Hall.
      rewrite Forall_forall in Hall. apply Hall, Hincl. now left. }
    destruct Hplain as [Hlow Hsingle].
    destruct (occurs_in k text) eqn:Hk.
    + assert (Hline : first_line_with k (split_lines text) <> None).
      { apply first_line_with_found.
        eapply Exists_impl; [|apply (occurs_in_some_line k text Hk Hsingle)].
        intros line Hl. cbv beta in Hl.
        apply occurs_in_spec, substring_lower in Hl.
        rewrite Hlow in Hl. now apply occurs_in_spec. }
      destruct (first_line_with k (split_lines text)); [|contradiction].
      split; [discriminate|].
      intros Hall. inversion Hall as [|? ? Hno _]; subst.
      exfalso. apply Hno. now apply occurs_in_spec.
    + rewrite IH. split.
      * intros Hall. constructor; [|exact Hall].
        intros Hsub. apply occurs_in_spec in Hsub. congruence.
      * intros Hall. now inversion Hall.
Qed.

Lemma nodup_length_le (l : list string) :
  List.length (nodup string_dec l) <= List.length l.
Proof.
  induction l as [|x l IH]; cbn [nodup List.length]; [reflexivity|].
  destruct (in_dec string_dec x l); cbn [List.length]; lia.
Qed.

(** X1.  The education entries have no duplicates and are at most ten,
    one per keyword; each is the stripped form of a line of the text that
    holds an education keyword; and there is no entry exactly when no
    education keyword occurs in the text. *)
Theorem education_entries_come_from_lines (text : string) :
  let found := extract_education text in
  NoDup found /\
  List.length found <= 10 /\
  Forall (education_entry text) found /\
  (found = [] <->
   Forall (fun keyword => ~ substring keyword text) education_keywords).
Proof.
  cbv zeta. unfold extract_education.
  destruct (education_lines_entries education_keywords text (incl_refl _))
    as [Hentries Hlen].
  split; [apply NoDup_nodup|]. split; [|split].
  - etransitivity; [apply nodup_length_le | exact Hlen].
  - apply Forall_forall. intros e He. apply nodup_In in He.
    rewrite Forall_forall in Hentries. now apply Hentries.
  - rewrite <- (education_lines_empty education_keywords text (incl_refl _)).
    split.
    + intros H.
      destruct (education_lines education_keywords text) as [|e l] eqn:E;
        [reflexivity|].
      assert (Hin : In e (nodup string_dec (e :: l)))
        by (apply nodup_In; now left).
      rewrite H in Hin. contradiction.
    + intros ->. reflexivity.
Qed.

(** *** Experience level *)

Lemma existsb_occurs (keywords : list string) (text : string) :
  existsb (fun keyword => occurs_in keyword text) keywords = true <->
  exists keyword, In keyword keywords /\ substring keyword text.
Proof.
  rewrite existsb_exists. split; intros (k & Hin & Hk); exists k;
    (split; [exact Hin | now apply occurs_in_spec]).
Qed.

Lemma says_iff (level text : string) (keywords : list string) :
  lookup level experience_keywords = Some keywords ->
  (says level text <->
   existsb (fun keyword => occurs_in keyword text) keywords = true).
Proof.
  intros Hl. rewrite existsb_occurs. unfold says. split.
  - intros (kws & k & Hk & Hin & Hs). rewrite Hl in Hk.
    injection Hk as <-. now exists k.
  - intros (k & Hin & Hs). now exists keywords, k.
Qed.

(** X2.  The experience level is decided by the fixed order junior, mid,
    senior on the lower-cased text: a junior keyword anywhere makes it
    "junior" whatever else the text says, a mid keyword without a junior
    one makes it "mid", a senior keyword without those makes it "senior",
    and it is "unknown" exactly when no keyword occurs. *)
Theorem experience_level_follows_fixed_order (text : string) :
  exists rd,
    analyze_resume_text text = inr rd /\
    let t := lower text in
    (says "junior" t -> experience_level rd = "junior") /\
    (~ says "junior" t -> says "mid" t -> experience_level rd = "mid") /\
    (~ says "junior" t -> ~ says "mid" t -> says "senior" t ->
     experience_level rd = "senior") /\
    (experience_level rd = "unknown" <->
     ~ says "junior" t /\ ~ says "mid" t /\ ~ says "senior" t).
Proof.
  destruct (analyze_resume_text_ok text) as (y & _ & Hrd).
  eexists. split; [exact Hrd|]. cbn [experience_level]. cbv zeta.
  set (t := lower text).
  rewrite (says_iff "junior" t _ eq_refl), (says_iff "mid" t _ eq_refl),
    (says_iff "senior" t _ eq_refl).
  unfold extract_experience_level, experience_keywords.
  cbn [extract_experience_level_from].
  destruct (existsb _ _); [|destruct (existsb _ _); [|destruct (existsb _ _)]];
    repeat split; intros; try congruence; try tauto; try discriminate;
    intuition congruence.
Qed.

Lemma experience_level_example :
  exists rd,
    analyze_resume_text "Senior engineer, lead of INTERNAL tools" = inr rd /\
    experience_level rd = "junior".
Proof.
  destruct (experience_level_follows_fixed_order
              "Senior engineer, lead of INTERNAL tools")
    as (rd & Hrd & Hjunior & _).
  exists rd. split; [exact Hrd|]. apply Hjunior.
  exists ["junior"; "entry"; "associate"; "intern"; "0-2 years"; "graduate"],
    "intern".
  repeat split; [simpl; tauto|].
  exists "senior engineer, lead of ", "al tools". reflexivity.
Defined.

(** *** Skills, continued *)

Lemma tech_skills_no_duplicates :
  Forall (fun entry => NoDup (snd entry)) tech_skills.
Proof.
  repeat constructor; cbn; intuition discriminate.
Qed.

Lemma found_in_NoDup (text : string) (skill_list : list string) :
  NoDup skill_list -> NoDup (found_in text skill_list).
Proof. rewrite found_in_filter. apply NoDup_filter. Qed.

(** X3.  Whatever the text, the skills of a profile have exactly the six
    categories of the catalog, in catalog order -- a category without a
    match is present with an empty list -- and no token is listed twice
    in a category. *)
Theorem skills_keep_the_catalog_categories (text : string) :
  exists rd,
    analyze_resume_text text = inr rd /\
    map fst (skills rd) =
    ["programming"; "web"; "database"; "cloud"; "data"; "tools"] /\
    Forall (fun entry => NoDup (snd entry)) (skills rd) /\
    Forall2 (fun entry found => List.length (snd found)
                               <= List.length (snd entry))
            tech_skills (skills rd).
Proof.
  destruct (analyze_resume_text_ok text) as (y & _ & Hrd).
  eexists. split; [exact Hrd|]. cbn [skills].
  unfold extract_skills, extract_skills_from.
  split; [reflexivity|]. split.
  - apply Forall_map. eapply Forall_impl; [|apply tech_skills_no_duplicates].
    intros entry H. cbn [snd]. now apply found_in_NoDup.
  - generalize tech_skills. intros l.
    induction l as [|e l IH]; cbn [map]; constructor; [|exact IH].
    cbn [snd]. rewrite found_in_filter. apply filter_length_le.
Qed.

(** X4.  Matching is by substring, so credit spreads from a token to
    every catalog token contained in it: when a token [b] is extracted
    and a catalog token [a] is a substring of [b], then [a] is extracted
    too (whoever writes "javascript" is credited with "java"). *)
Theorem contained_tokens_are_extracted_too
        (text category category' a b : string)
        (catalog found' : list string) :
  lookup category tech_skills = Some catalog ->
  In a catalog ->
  substring a b ->
  lookup category' (extract_skills text) = Some found' ->
  In b found' ->
  exists found,
    lookup category (extract_skills text) = Some found /\ In a found.
Proof.
  intros Hcat Ha Hab Hlook Hb. unfold extract_skills in *.
  rewrite lookup_extract_skills_from in Hlook.
  destruct (lookup category' tech_skills) as [catalog'|]; [|discriminate].
  cbn [option_map] in Hlook. injection Hlook as <-.
  rewrite found_in_filter in Hb. apply filter_In in Hb as [_ Hb].
  apply occurs_in_spec in Hb.
  exists (found_in text catalog).
  rewrite lookup_extract_skills_from, Hcat. split; [reflexivity|].
  rewrite found_in_filter. apply filter_In. split; [exact Ha|].
  apply occurs_in_spec. eapply substring_trans; eassumption.
Qed.

Lemma javascript_credits_java :
  exists found,
    lookup "programming" (extract_skills "frontend work in javascript") =
    Some found /\
    In "java" found.
Proof.
  apply (contained_tokens_are_extracted_too
           "frontend work in javascript" "programming" "programming"
           "java" "javascript"
           ["python"; "java"; "javascript"; "c++"; "c#"; "php"; "ruby";
            "go"; "rust"; "swift"; "kotlin"]
           ["java"; "javascript"] eq_refl).
  - simpl. tauto.
  - exists "", "script". reflexivity.
  - reflexivity.
  - simpl. tauto.
Defined.

(** *** What the scan reports lies in the text *)

Lemma finditer_within (r : regex) (fuel : nat) :
  forall prev s,
    Forall (fun m => exists pre post, s = pre ++ fst m ++ post)
           (finditer r fuel prev s).
Proof.
  induction fuel as [|fuel IH]; intros prev s; cbn [finditer];
    [constructor|].
  assert (Hskip : Forall (fun m => exists pre post, s = pre ++ fst m ++ post)
                    match s with
                    | [] => []
                    | c :: s' => finditer r fuel (Some c) s'
                    end).
  { destruct s as [|c s']; [constructor|].
    eapply Forall_impl; [|apply IH].
    intros m (pre & post & ->). now exists (c :: pre), post. }
  destruct (match_at r prev s) as [[[prev' rest] g]|] eqn:Hm; [|exact Hskip].
  destruct (match_at_sound _ _ _ _ _ _ Hm) as (pre0 & Hs & _).
  destruct (List.length s - List.length rest) as [|n] eqn:Hn.
  - constructor; [|exact Hskip]. now exists [], s.
  - constructor.
    + cbn [fst]. rewrite <- Hn. subst s. rewrite firstn_consumed.
      now exists [], rest.
    + eapply Forall_impl; [|apply IH].
      intros m (pre & post & ->). subst s.
      exists (pre0 ++ pre), post. now rewrite <- app_assoc.
Qed.

Lemma matched_within (r : regex) (text : string) :
  Forall (fun m => substring (matched m) text) (search_all r text).
Proof.
  unfold search_all.
  eapply Forall_impl; [|apply finditer_within].
  intros m (pre & post & E). unfold matched.
  exists (string_of_list_ascii pre), (string_of_list_ascii post).
  rewrite <- !string_of_list_ascii_app, <- E.
  now rewrite string_of_list_ascii_of_string.
Qed.

(** *** Digits *)

Lemma digits_in_app (a b : list ascii) :
  digits_in (a ++ b) = digits_in a + digits_in b.
Proof. induction a as [|c a IH]; simpl; [reflexivity | rewrite IH; lia]. Qed.

Lemma is_digit_set_spec (p : cset) :
  is_digit_set p = true -> p = Digit.
Proof.
  destruct p as [|lo hi| |]; try discriminate. cbn [is_digit_set].
  intros H. apply andb_true_iff in H as [Hlo Hhi].
  apply Ascii.eqb_eq in Hlo, Hhi. now subst.
Qed.

Lemma digits_forall (l : list ascii) :
  forallb (mem Digit) l = true -> digits_in l = List.length l.
Proof.
  induction l as [|c l IH]; cbn [forallb digits_in List.length];
    [reflexivity|].
  intros H. apply andb_true_iff in H as [Hc Hl]. rewrite Hc, (IH Hl).
  reflexivity.
Qed.

(** A match holds at least [min_digits r] digits. *)
Lemma matches_min_digits r pre g g' :
  matches r pre g g' -> min_digits r <= digits_in pre.
Proof.
  induction 1; cbn [min_digits]; try lia.
  - destruct (is_digit_set p) eqn:Hp; [|lia].
    apply is_digit_set_spec in Hp. subst p.
    cbn [digits_in]. rewrite H. cbn. lia.
  - rewrite digits_in_app. lia.
Qed.

Lemma lower_keeps_digits (s : string) :
  digits_in (list_ascii_of_string (lower s)) =
  digits_in (list_ascii_of_string s).
Proof.
  induction s as [|c s IH]; [reflexivity|].
  cbn [lower list_ascii_of_string digits_in]. rewrite IH. f_equal.
  destruct c as [[] [] [] [] [] [] [] []]; reflexivity.
Qed.

Lemma within_digits (m : match_obj) (text : string) :
  substring (matched m) text ->
  digits_in (fst m) <= digits_in (list_ascii_of_string text).
Proof.
  intros (pre & post & ->). unfold matched.
  rewrite <- (list_ascii_of_string_of_list_ascii (fst m)) at 1.
  assert (H : forall a b,
             list_ascii_of_string (a ++ b)%string =
             list_ascii_of_string a ++ list_ascii_of_string b)
    by (intros a b; induction a as [|c a IH]; simpl;
        [reflexivity | now rewrite IH]).
  rewrite !H, !digits_in_app. lia.
Qed.

(** *** Contact information, continued *)

Lemma wordb_inv pre g g' : matches WordB pre g g' -> pre = [].
Proof. now inversion 1. Qed.

Lemma plus_inv p pre g g' :
  matches (Plus p) pre g g' ->
  pre <> [] /\ forallb (mem p) pre = true.
Proof.
  unfold Plus. intros H.
  apply seq_inv in H as (a & b & g1 & -> & Hc & Hs).
  apply chr_inv in Hc as (c & -> & Hc & _).
  apply star_inv in Hs as [Hs _].
  split; [discriminate|]. cbn [app forallb]. now rewrite Hc, Hs.
Qed.

Lemma email_pattern_shape (whole : list ascii) (g : capture) :
  matches email_pattern whole None g ->
  exists user host tld,
    whole = user ++ ["@"%char] ++ host ++ ["."%char] ++ tld /\
    user <> [] /\ host <> [] /\ 2 <= List.length tld /\
    forallb (mem tld_chars) tld = true.
Proof.
  intros H. cbv beta zeta delta [email_pattern] in H.
  apply seq_inv in H as (p0 & q0 & g0 & -> & Hb & H).
  apply wordb_inv in Hb. subst p0.
  apply seq_inv in H as (user & q1 & g1 & -> & Hu & H).
  apply plus_inv in Hu as [Hu _].
  apply seq_inv in H as (at_ & q2 & g2 & -> & Hat & H).
  apply chr_inv in Hat as (c & -> & Hc & _).
  cbn [mem] in Hc. apply Ascii.eqb_eq in Hc. subst c.
  apply seq_inv in H as (host & q3 & g3 & -> & Hh & H).
  apply plus_inv in Hh as [Hh _].
  apply seq_inv in H as (dot & q4 & g4 & -> & Hdot & H).
  apply chr_inv in Hdot as (c & -> & Hc & _).
  cbn [mem] in Hc. apply Ascii.eqb_eq in Hc. subst c.
  apply seq_inv in H as (t1 & q5 & g5 & -> & Ht1 & H).
  apply chr_inv in Ht1 as (c & -> & Hc & _).
  apply seq_inv in H as (t2 & q6 & g6 & -> & Ht2 & H).
  apply plus_inv in Ht2 as [Hne Ht2].
  apply wordb_inv in H. subst q6.
  exists user, host, ([c] ++ t2 ++ []).
  cbn [app]. rewrite app_nil_r. repeat split; try assumption.
  - destruct t2; [contradiction | cbn; lia].
  - cbn [forallb]. unfold tld_chars. now rewrite Hc, Ht2.
Qed.

(** X5.  An e-mail address that is stored is a substring of the text and
    has the form user, "@", host, ".", ending: user and host are not
    empty and the ending has at least two characters, each a letter or
    the bar character that the pattern's class [A-Z|a-z] lets through. *)
Theorem stored_email_has_address_form (text : string) :
  match email (extract_contact_info text) with
  | None => True
  | Some e =>
      substring e text /\
      exists user host ending,
        e = (user ++ "@" ++ host ++ "." ++ ending)%string /\
        user <> "" /\ host <> "" /\
        2 <= String.length ending /\
        forallb (mem tld_chars) (list_ascii_of_string ending) = true
  end.
Proof.
  unfold extract_contact_info, findall_whole. cbn [email].
  pose proof (search_all_sound email_pattern text) as Hsound.
  pose proof (matched_within email_pattern text) as Hwithin.
  destruct (search_all email_pattern text) as [|[whole g] rest];
    [exact I|].
  cbn [map]. inversion Hsound as [|? ? Hm _]; subst.
  inversion Hwithin as [|? ? Hw _]; subst.
  split; [exact Hw|]. cbn [fst snd] in Hm.
  destruct (email_pattern_shape _ _ Hm)
    as (user & host & tld & -> & Hu & Hh & Hlen & Htld).
  exists (string_of_list_ascii user), (string_of_list_ascii host),
    (string_of_list_ascii tld).
  unfold matched. cbn [fst]. rewrite !string_of_list_ascii_app.
  repeat split.
  - intros E. apply (f_equal list_ascii_of_string) in E.
    rewrite list_ascii_of_string_of_list_ascii in E. now apply Hu.
  - intros E. apply (f_equal list_ascii_of_string) in E.
    rewrite list_ascii_of_string_of_list_ascii in E. now apply Hh.
  - now rewrite string_of_list_ascii_length.
  - now rewrite list_ascii_of_string_of_list_ascii.
Qed.

(** X6.  A text without an "@" yields no e-mail address, and a text with
    fewer than ten digits yields no phone entry. *)
Theorem no_marks_no_contact_fields (text : string) :
  (occurs_in "@" text = false ->
   email (extract_contact_info text) = None) /\
  (digits_in (list_ascii_of_string text) < 10 ->
   phone (extract_contact_info text) = None).
Proof.
  unfold extract_contact_info, findall_whole, findall. cbn [email phone].
  split.
  - intros Hno.
    pose proof (search_all_sound email_pattern text) as Hsound.
    pose proof (matched_within email_pattern text) as Hwithin.
    destruct (search_all email_pattern text) as [|[whole g] rest];
      [reflexivity|].
    exfalso.
    inversion Hsound as [|? ? Hm _]; subst.
    inversion Hwithin as [|? ? Hw _]; subst. cbn [fst snd] in Hm.
    destruct (email_pattern_shape _ _ Hm) as (user & host & tld & -> & _).
    assert (Hat : substring "@" text).
    { eapply substring_trans; [|exact Hw]. unfold matched. cbn [fst].
      exists (string_of_list_ascii user),
        (string_of_list_ascii (host ++ ["."%char] ++ tld)).
      now rewrite !string_of_list_ascii_app. }
    apply occurs_in_spec in Hat. congruence.
  - intros Hfew.
    pose proof (search_all_sound phone_pattern text) as Hsound.
    pose proof (matched_within phone_pattern text) as Hwithin.
    destruct (search_all phone_pattern text) as [|[whole g] rest];
      [reflexivity|].
    exfalso.
    inversion Hsound as [|? ? Hm _]; subst.
    inversion Hwithin as [|? ? Hw _]; subst. cbn [fst snd] in Hm.
    apply matches_min_digits in Hm.
    change (min_digits phone_pattern) with 10 in Hm.
    apply within_digits in Hw. cbn [fst] in Hw. lia.
Qed.

Lemma no_marks_example :
  email (extract_contact_info "Jane Roe, 12 Main Street") = None /\
  phone (extract_contact_info "Jane Roe, 12 Main Street") = None.
Proof.
  destruct (no_marks_no_contact_fields "Jane Roe, 12 Main Street")
    as [Hemail Hphone].
  split; [apply Hemail; reflexivity | apply Hphone; simpl; lia].
Defined.

(** *** Years of experience, continued *)

Lemma lits_inv (l : list ascii) :
  forall pre g g', matches (Lits l) pre g g' -> pre = l.
Proof.
  induction l as [|c l IH]; intros pre g g' H; cbn [Lits] in H.
  - now inversion H.
  - apply seq_inv in H as (a & b & g1 & -> & Hc & Hl).
    apply chr_inv in Hc as (c' & -> & Hc & _).
    cbn [mem] in Hc. apply Ascii.eqb_eq in Hc. subst c'.
    now rewrite (IH _ _ _ Hl).
Qed.

Lemma years_inv pre g g' :
  matches years pre g g' ->
  exists rest, pre = list_ascii_of_string "year" ++ rest.
Proof.
  unfold years, Word. intros H.
  apply seq_inv in H as (a & b & g1 & -> & Hw & _).
  apply lits_inv in Hw. subst a. now exists b.
Qed.

Lemma years_pattern_mentions_year pattern pre g :
  In pattern years_patterns ->
  matches pattern pre None g ->
  exists a b, pre = a ++ list_ascii_of_string "year" ++ b.
Proof.
  intros [<- | [<- | [<- | []]]] H.
  - apply seq_inv in H as (p1 & q1 & g1 & -> & _ & H).
    apply seq_inv in H as (p2 & q2 & g2 & -> & _ & H).
    apply seq_inv in H as (p3 & q3 & g3 & -> & Hy & _).
    apply years_inv in Hy as (rest & ->).
    exists (p1 ++ p2), (rest ++ q3). now rewrite <- !app_assoc.
  - apply seq_inv in H as (p1 & q1 & g1 & -> & _ & H).
    apply seq_inv in H as (p2 & q2 & g2 & -> & _ & H).
    apply seq_inv in H as (p3 & q3 & g3 & -> & Hy & _).
    apply years_inv in Hy as (rest & ->).
    exists (p1 ++ p2), (rest ++ q3). now rewrite <- !app_assoc.
  - apply seq_inv in H as (p1 & q1 & g1 & -> & _ & H).
    apply seq_inv in H as (p2 & q2 & g2 & -> & _ & H).
    apply seq_inv in H as (p3 & q3 & g3 & -> & _ & H).
    apply seq_inv in H as (p4 & q4 & g4 & -> & _ & H).
    apply seq_inv in H as (p5 & q5 & g5 & -> & _ & Hy).
    apply years_inv in Hy as (rest & ->).
    exists (p1 ++ p2 ++ p3 ++ p4 ++ p5), rest. now rewrite <- !app_assoc.
Qed.

Lemma no_match_no_years (text : string) :
  (forall pattern, In pattern years_patterns -> search_all pattern text = []) ->
  extract_years_experience text = inr 0%Z.
Proof.
  intros H. unfold extract_years_experience, years_patterns.
  cbn [collect_years]. unfold findall.
  rewrite !H by (simpl; tauto). reflexivity.
Qed.

(** X7.  A text that does not hold "year" in any letter case, or that
    has no digit, gives zero years of experience. *)
Theorem no_year_or_no_digit_gives_zero (text : string) :
  occurs_in "year" (lower text) = false \/
  digits_in (list_ascii_of_string text) = 0 ->
  exists rd,
    analyze_resume_text text = inr rd /\ years_experience rd = 0%Z.
Proof.
  intros Hno.
  destruct (analyze_resume_text_ok text) as (y & Hy & Hrd).
  eexists. split; [exact Hrd|]. cbn [years_experience].
  rewrite no_match_no_years in Hy; [congruence|].
  intros pattern Hp.
  pose proof (search_all_sound pattern (lower text)) as Hsound.
  pose proof (matched_within pattern (lower text)) as Hwithin.
  destruct (search_all pattern (lower text)) as [|[whole g] rest];
    [reflexivity|].
  exfalso.
  inversion Hsound as [|? ? Hm _]; subst.
  inversion Hwithin as [|? ? Hw _]; subst. cbn [fst snd] in Hm.
  destruct Hno as [Hyear | Hdigit].
  - destruct (years_pattern_mentions_year _ _ _ Hp Hm) as (a & b & ->).
    assert (Hsub : substring "year" (lower text)).
    { eapply substring_trans; [|exact Hw]. unfold matched. cbn [fst].
      exists (string_of_list_ascii a), (string_of_list_ascii b).
      now rewrite !string_of_list_ascii_app. }
    apply occurs_in_spec in Hsub. congruence.
  - apply matches_min_digits in Hm. apply within_digits in Hw.
    cbn [fst] in Hw. rewrite lower_keeps_digits in Hw.
    assert (Hmin : 1 <= min_digits pattern)
      by (destruct Hp as [<- | [<- | [<- | []]]]; cbn; lia).
    lia.
Qed.

Lemma no_year_example :
  exists rd,
    analyze_resume_text "Built 3 compilers in 2019" = inr rd /\
    years_experience rd = 0%Z.
Proof.
  apply no_year_or_no_digit_gives_zero. left. reflexivity.
Defined.

(** *** Reading the file *)

Lemma strip_blank (s : string) : strip s = "" <-> blank s = true.
Proof.
  unfold strip.
  assert (Hr : forall t, rstrip t = "" <-> blank t = true).
  { induction t as [|c t IH]; cbn [rstrip blank]; [tauto|].
    destruct (rstrip t) as [|d r] eqn:Er.
    - destruct (is_space c); cbn [andb].
      + rewrite <- IH. tauto.
      + split; discriminate.
    - split; [discriminate|]. intros H.
      apply andb_true_iff in H as [_ H]. apply IH in H. discriminate. }
  assert (Hl : forall t, lstrip t = "" <-> blank t = true).
  { induction t as [|c t IH]; cbn [lstrip blank]; [tauto|].
    destruct (is_space c); cbn [andb]; [exact IH|].
    split; discriminate. }
  assert (Hkeep : forall t, blank (rstrip t) = true -> blank t = true).
  { induction t as [|c t IH]; cbn [rstrip blank]; [tauto|].
    destruct (rstrip t) as [|d r] eqn:Er.
    - destruct (is_space c) eqn:Ec; cbn [blank andb].
      + intros _. apply Hr. exact Er.
      + rewrite Ec. discriminate.
    - cbn [blank]. intros H. apply andb_true_iff in H as [Hc H].
      rewrite Hc. cbn [andb]. apply IH. exact H. }
  rewrite Hl. split; [apply Hkeep|].
  intros H. apply Hr in H. now rewrite H.
Qed.

(** *** The limit on [int(str)] *)

Section DigitLimitFacts.
Variable max_str_digits : nat.

Local Abbreviation int_limited := (int_limited max_str_digits).
Local Abbreviation ints_limited := (ints_limited max_str_digits).
Local Abbreviation collect_years_limited :=
  (collect_years_limited max_str_digits).
Local Abbreviation extract_years_experience_limited :=
  (extract_years_experience_limited max_str_digits).
Local Abbreviation analyze_resume_text_limited :=
  (analyze_resume_text_limited max_str_digits).

(** The number is longer than the limit allows. *)
Local Abbreviation too_long :=
  (fun number : string =>
     (0 <? max_str_digits) && (max_str_digits <? String.length number)).

Lemma too_long_spec (number : string) :
  too_long number = true <->
  0 < max_str_digits < String.length number.
Proof.
  rewrite andb_true_iff, !Nat.ltb_lt. tauto.
Qed.

Lemma ints_limited_spec (l : list string) :
  Forall (fun s => exists n, int s = inr n /\ (0 <= n)%Z) l ->
  ints_limited l =
  if existsb too_long l then raise limit_exceeded else ints l.
Proof.
  induction 1 as [|s l (n & Hn & _) _ IH];
    cbn [ResumeParserMore.ints_limited ints existsb]; [reflexivity|].
  unfold ResumeParserMore.int_limited.
  destruct (too_long s); cbn [orb bind raise]; [reflexivity|].
  rewrite Hn, IH. cbn [bind].
  destruct (existsb too_long l); reflexivity.
Qed.

Lemma years_captures_are_numbers pattern text :
  In pattern years_patterns ->
  Forall (fun s => exists n, int s = inr n /\ (0 <= n)%Z)
         (findall pattern text).
Proof.
  intros Hin. unfold findall. apply Forall_map.
  eapply Forall_impl; [|apply search_all_sound].
  intros [m g] H. simpl in H. apply int_of_number.
  eapply years_pattern_capture; eassumption.
Qed.

Lemma collect_years_limited_spec (patterns : list regex) (text : string) :
  incl patterns years_patterns ->
  collect_years_limited patterns text =
  if existsb too_long
             (flat_map (fun pattern => findall pattern text) patterns)
  then raise limit_exceeded
  else collect_years patterns text.
Proof.
  induction patterns as [|pattern rest IH]; intros Hincl;
    cbn [ResumeParserMore.collect_years_limited collect_years flat_map
         existsb]; [reflexivity|].
  rewrite existsb_app.
  rewrite ints_limited_spec
    by (apply years_captures_are_numbers, Hincl; now left).
  destruct (existsb too_long (findall pattern text));
    cbn [orb bind raise]; [reflexivity|].
  destruct (findall_years_ok pattern text) as (ns & Hns & _);
    [apply Hincl; now left|].
  rewrite Hns. cbn [bind].
  rewrite IH by (intros x Hx; apply Hincl; now right).
  destruct (existsb too_long _); reflexivity.
Qed.

(** Under the limit the analysis raises when one of the captured numbers
    is longer than the limit allows, and is the analysis without the
    limit otherwise. *)
Lemma analyze_resume_text_limited_spec (text : string) :
  analyze_resume_text_limited text =
  if existsb too_long (year_matches (lower text))
  then raise limit_exceeded
  else analyze_resume_text text.
Proof.
  unfold ResumeParserMore.analyze_resume_text_limited,
    ResumeParserMore.extract_years_experience_limited,
    analyze_resume_text, extract_years_experience, year_matches.
  rewrite collect_years_limited_spec by apply incl_refl.
  destruct (existsb too_long _); reflexivity.
Qed.

End DigitLimitFacts.

(** With the smallest limit the interpreter accepts, a number of 641
    digits makes the analysis raise; without the limit the analysis
    returns. *)
Example long_number_raises :
  analyze_resume_text_limited 640 long_number_text = inl limit_exceeded /\
  exists rd, analyze_resume_text_limited 0 long_number_text = inr rd.
Proof.
  rewrite !analyze_resume_text_limited_spec. split.
  - assert (H : existsb
                  (fun number : string =>
                     (0 <? 640) && (640 <? String.length number))
                  (year_matches (lower long_number_text)) = true)
      by (vm_compute; reflexivity).
    now rewrite H.
  - cbn [Nat.ltb Nat.leb andb].
    assert (H : forall l : list string,
               existsb (fun _ : string => false) l = false)
      by (induction l; [reflexivity | assumption]).
    rewrite H.
    destruct (analyze_resume_text_ok long_number_text) as (y & _ & Hrd).
    rewrite Hrd. eauto.
Qed.

Section ParseResumeFacts.
Variable max_str_digits : nat.
Variable path_exists : string -> bool.
Variable splitext : string -> string.
Variable extract_text_from_pdf : string -> string.
Variable extract_text_from_docx : string -> string.
Variable extract_text_from_txt : string -> string.

Local Abbreviation extract_text :=
  (extract_text splitext extract_text_from_pdf extract_text_from_docx
                extract_text_from_txt).
Local Abbreviation parse_resume :=
  (parse_resume max_str_digits path_exists splitext extract_text_from_pdf
                extract_text_from_docx extract_text_from_txt).

(** X8.  Parsing a resume file succeeds exactly when the file exists, its
    extension is ".pdf", ".docx" or ".txt" in any letter case, the
    extracted text is not blank, and no number of years captured in the
    lower-cased text has more digits than the interpreter's limit on
    [int(str)] allows ([max_str_digits], 0 for no limit); the profile is
    then the analysis of that text and carries it as its raw text.  In
    each of the four other cases an exception is raised. *)
Theorem parse_resume_succeeds_exactly_on_readable_text
        (file_path : string) :
  match parse_resume file_path with
  | inr rd =>
      path_exists file_path = true /\
      In (lower (splitext file_path)) [".pdf"; ".docx"; ".txt"] /\
      extract_text file_path = inr (raw_text rd) /\
      blank (raw_text rd) = false /\
      Forall (fun number =>
                max_str_digits = 0 \/
                String.length number <= max_str_digits)
             (year_matches (lower (raw_text rd))) /\
      analyze_resume_text (raw_text rd) = inr rd
  | inl _ =>
      path_exists file_path = false \/
      ~ In (lower (splitext file_path)) [".pdf"; ".docx"; ".txt"] \/
      exists text,
        extract_text file_path = inr text /\
        (blank text = true \/
         Exists (fun number =>
                   0 < max_str_digits < String.length number)
                (year_matches (lower text)))
  end.
Proof.
  unfold ResumeParserMore.parse_resume.
  destruct (path_exists file_path); cbn [negb]; [|now left].
  assert (Hext : match extract_text file_path with
                 | inr _ =>
                     In (lower (splitext file_path))
                        [".pdf"; ".docx"; ".txt"]
                 | inl _ =>
                     ~ In (lower (splitext file_path))
                          [".pdf"; ".docx"; ".txt"]
                 end).
  { unfold ResumeParserMore.extract_text.
    destruct (String.eqb_spec (lower (splitext file_path)) ".pdf") as [->|H1];
      [simpl; tauto|].
    destruct (String.eqb_spec (lower (splitext file_path)) ".docx") as [->|H2];
      [simpl; tauto|].
    destruct (String.eqb_spec (lower (splitext file_path)) ".txt") as [->|H3];
      [simpl; tauto|].
    cbn [raise]. simpl. intuition congruence. }
  destruct (extract_text file_path) as [e|text]; cbn [bind];
    [right; left; exact Hext|].
  destruct (String.eqb_spec (strip text) "") as [Hblank|Hblank].
  - right. right. exists text. split; [reflexivity|].
    left. now apply strip_blank.
  - rewrite analyze_resume_text_limited_spec.
    destruct (existsb _ (year_matches (lower text))) eqn:Hlong.
    + right. right. exists text. split; [reflexivity|]. right.
      apply existsb_exists in Hlong as (number & Hin & Hnum).
      apply Exists_exists. exists number. split; [exact Hin|].
      now apply too_long_spec.
    + destruct (analyze_resume_text_ok text) as (y & _ & Hrd).
      rewrite Hrd. cbn [raw_text]. repeat split; try assumption.
      * destruct (blank text) eqn:Hb; [|reflexivity].
        apply strip_blank in Hb. contradiction.
      * apply Forall_forall. intros number Hin.
        destruct (Nat.eq_dec max_str_digits 0) as [Hz|Hz]; [now left|].
        right. apply Nat.nlt_ge. intros Hlt.
        assert (Hex : existsb
                        (fun number : string =>
                           (0 <? max_str_digits) &&
                           (max_str_digits <? String.length number))
                        (year_matches (lower text)) = true).
        { apply existsb_exists. exists number. split; [exact Hin|].
          apply too_long_spec. lia. }
        congruence.
Qed.

End ParseResumeFacts.

End ResumeParserMoreFacts.

(** ** Suitability scoring, continued *)

Module JobMatcherMoreFacts.
Import Str StrFacts ResumeParser JobMatcher JobMatcherFacts.
Import Automation AutomationFacts JobMatcherMore.

Lemma ratio_full (n : nat) : 0 < n -> (ratio n n == 1)%Q.
Proof.
  intros Hn. unfold ratio. apply Qmult_inv_r.
  unfold Qeq. simpl. lia.
Qed.

Lemma ratio_none (n : nat) : (ratio 0 n == 0)%Q.
Proof. unfold ratio. apply Qmult_0_l. Qed.

Lemma filter_all {A} (f : A -> bool) (l : list A) :
  forallb f l = true -> filter f l = l.
Proof.
  induction l as [|x l IH]; cbn [forallb filter]; [reflexivity|].
  intros H. apply andb_true_iff in H as [Hx Hl]. now rewrite Hx, IH.
Qed.

Lemma fmin_le_1 (x : Q) : (fmin x 1 <= 1)%Q.
Proof.
  unfold fmin. destruct (Qle_bool x 1) eqn:E.
  - now apply Qle_bool_iff.
  - apply Qle_refl.
Qed.

Lemma fmin_ge (x lo : Q) : (lo <= x)%Q -> (lo <= 1)%Q -> (lo <= fmin x 1)%Q.
Proof. intros Hx H1. unfold fmin. now destruct (Qle_bool x 1). Qed.

Lemma score_le_1 tfidf resume jd jt :
  (calculate_job_match_score tfidf resume jd jt <= 1)%Q.
Proof.
  unfold calculate_job_match_score, calculate_job_match_score_body.
  destruct (tfidf (corpus resume jd)) as [e|sim]; cbn [bind catch ret].
  - unfold Qle. simpl. lia.
  - apply fmin_le_1.
Qed.

Lemma score_ge_0 tfidf resume jd jt :
  (forall docs sim, tfidf docs = inr sim -> (0 <= sim)%Q) ->
  (0 <= calculate_job_match_score tfidf resume jd jt)%Q.
Proof.
  intros Hlib.
  unfold calculate_job_match_score, calculate_job_match_score_body.
  destruct (tfidf (corpus resume jd)) as [e|sim] eqn:E; cbn [bind catch ret].
  - apply Qle_refl.
  - apply fmin_ge; [|unfold Qle; simpl; lia].
    apply blend_nonneg; [eapply Hlib; eassumption | apply skill_boost_range].
Qed.

Lemma verdict_is_threshold tfidf resume jd jt min_score :
  fst (fst (is_suitable_job tfidf resume jd jt min_score)) =
  fge (calculate_job_match_score tfidf resume jd jt) min_score.
Proof. reflexivity. Qed.

(** X9.  When the text similarity is available and not negative and
    every skill token of the resume (there is at least one) occurs in the
    job's title and description, the score is at least 0.3, so the job is
    suitable at every threshold up to the default 0.3, however small the
    text similarity. *)
Theorem full_skill_match_is_suitable
        (tfidf_cosine : list string -> result Q) (resume : resume_data)
        (job_description job_title : string) (sim min_score : Q) :
  tfidf_cosine (corpus resume job_description) = inr sim ->
  (0 <= sim)%Q ->
  skill_tokens resume <> [] ->
  forallb (occurs_in_job job_title job_description) (skill_tokens resume)
  = true ->
  (min_score <= 3 # 10)%Q ->
  (3 # 10 <= calculate_job_match_score tfidf_cosine resume job_description
                                       job_title)%Q /\
  fst (fst (is_suitable_job tfidf_cosine resume job_description job_title
                            min_score)) = true.
Proof.
  intros Hsim Hpos Htokens Hall Hmin.
  assert (Hscore : (3 # 10 <= calculate_job_match_score
                               tfidf_cosine resume job_description
                               job_title)%Q).
  { unfold calculate_job_match_score, calculate_job_match_score_body.
    rewrite Hsim. cbn [bind catch ret].
    apply fmin_ge; [|unfold Qle; simpl; lia].
    rewrite skill_boost_spec, (filter_all _ _ Hall).
    destruct (skill_tokens resume) as [|t ts] eqn:E; [contradiction|].
    cbn [List.length Nat.eqb]. rewrite ratio_full by lia.
    rewrite Qmult_1_l.
    rewrite <- (Qplus_0_l (3 # 10)) at 1.
    apply Qplus_le_compat; [|apply Qle_refl].
    apply Qmult_le_0_compat; [exact Hpos | unfold Qle; simpl; lia]. }
  split; [exact Hscore|].
  rewrite verdict_is_threshold. apply Qle_bool_iff.
  eapply Qle_trans; eassumption.
Qed.

Lemma full_skill_match_example :
  fst (fst (is_suitable_job half_similar sample_resume
              "We use Python and SQL" "Developer" (3 # 10)%Q)) = true.
Proof.
  apply (full_skill_match_is_suitable
           half_similar sample_resume "We use Python and SQL" "Developer"
           (1 # 2)%Q (3 # 10)%Q eq_refl).
  - unfold Qle. simpl. lia.
  - discriminate.
  - reflexivity.
  - unfold Qle. simpl. lia.
Defined.

(** X10.  The verdict at the two ends of the threshold scale and in
    between: a threshold above 1 rejects every job; a threshold of 0 or
    less accepts every job, also one that could not be scored, as long as
    the library's similarity is never negative; and a job that is
    suitable at one threshold is suitable at every smaller one. *)
Theorem verdict_along_the_threshold
        (tfidf_cosine : list string -> result Q) (resume : resume_data)
        (job_description job_title : string) :
  let verdict min_score :=
    fst (fst (is_suitable_job tfidf_cosine resume job_description
                              job_title min_score)) in
  (forall min_score, (1 < min_score)%Q -> verdict min_score = false) /\
  ((forall docs sim, tfidf_cosine docs = inr sim -> (0 <= sim)%Q) ->
   forall min_score, (min_score <= 0)%Q -> verdict min_score = true) /\
  (forall lower_score min_score,
      (lower_score <= min_score)%Q ->
      verdict min_score = true -> verdict lower_score = true).
Proof.
  cbv zeta. split; [|split].
  - intros min_score Hmin. rewrite verdict_is_threshold.
    unfold fge. destruct (Qle_bool min_score _) eqn:E; [|reflexivity].
    apply Qle_bool_iff in E. exfalso.
    apply (Qlt_irrefl 1). eapply Qlt_le_trans; [exact Hmin|].
    eapply Qle_trans; [exact E | apply score_le_1].
  - intros Hlib min_score Hmin. rewrite verdict_is_threshold.
    apply Qle_bool_iff. eapply Qle_trans; [exact Hmin|].
    now apply score_ge_0.
  - intros lower_score min_score Hle. rewrite !verdict_is_threshold.
    unfold fge. rewrite !Qle_bool_iff. intros H.
    eapply Qle_trans; eassumption.
Qed.

Lemma verdict_along_the_threshold_example :
  fst (fst (is_suitable_job half_similar sample_resume "" "" (11 # 10)%Q))
  = false /\
  fst (fst (is_suitable_job failing_vectorizer sample_resume "" "" 0%Q))
  = true /\
  fst (fst (is_suitable_job half_similar sample_resume "" "" (1 # 10)%Q))
  = true.
Proof.
  split; [|split].
  - destruct (verdict_along_the_threshold
                half_similar sample_resume "" "") as (Habove & _).
    apply Habove. reflexivity.
  - destruct (verdict_along_the_threshold
                failing_vectorizer sample_resume "" "") as (_ & Hzero & _).
    apply Hzero; [discriminate | unfold Qle; simpl; lia].
  - destruct (verdict_along_the_threshold
                half_similar sample_resume "" "") as (_ & _ & Hdown).
    apply (Hdown (1 # 10)%Q (3 # 10)%Q);
      [unfold Qle; simpl; lia | reflexivity].
Defined.

(** X11.  A job whose text similarity is zero and in whose title and
    description no skill token of the resume occurs has the score zero,
    and is unsuitable at every positive threshold. *)
Theorem unrelated_job_is_unsuitable
        (tfidf_cosine : list string -> result Q) (resume : resume_data)
        (job_description job_title : string) (sim min_score : Q) :
  tfidf_cosine (corpus resume job_description) = inr sim ->
  (sim == 0)%Q ->
  filter (occurs_in_job job_title job_description) (skill_tokens resume)
  = [] ->
  (0 < min_score)%Q ->
  (calculate_job_match_score tfidf_cosine resume job_description job_title
   == 0)%Q /\
  fst (fst (is_suitable_job tfidf_cosine resume job_description job_title
                            min_score)) = false.
Proof.
  intros Hsim Hzero Hnone Hmin.
  assert (Hscore : (calculate_job_match_score
                      tfidf_cosine resume job_description job_title == 0)%Q).
  { unfold calculate_job_match_score, calculate_job_match_score_body.
    rewrite Hsim. cbn [bind catch ret].
    assert (Hb : (calculate_skill_match_boost resume job_description
                                              job_title == 0)%Q).
    { rewrite skill_boost_spec, Hnone.
      destruct (List.length (skill_tokens resume) =? 0);
        [reflexivity | apply ratio_none]. }
    assert (Hx : (sim * (7 # 10) +
                  calculate_skill_match_boost resume job_description
                                              job_title * (3 # 10) == 0)%Q)
      by (rewrite Hzero, Hb; reflexivity).
    unfold fmin.
    destruct (Qle_bool _ 1) eqn:E; [exact Hx|].
    exfalso. assert (Hle : Qle_bool (sim * (7 # 10) +
               calculate_skill_match_boost resume job_description
                                           job_title * (3 # 10)) 1 = true).
    { apply Qle_bool_iff. rewrite Hx. unfold Qle. simpl. lia. }
    congruence. }
  split; [exact Hscore|].
  rewrite verdict_is_threshold. unfold fge.
  destruct (Qle_bool min_score _) eqn:E; [|reflexivity].
  apply Qle_bool_iff in E. rewrite Hscore in E.
  exfalso. apply (Qlt_irrefl 0). eapply Qlt_le_trans; eassumption.
Qed.

Lemma unrelated_job_example :
  fst (fst (is_suitable_job (fun _ => inr 0%Q) sample_resume
              "Pruning hedges" "Gardener" (3 # 10)%Q)) = false.
Proof.
  apply (unrelated_job_is_unsuitable
           (fun _ => inr 0%Q) sample_resume "Pruning hedges" "Gardener"
           0%Q (3 # 10)%Q eq_refl).
  - reflexivity.
  - reflexivity.
  - reflexivity.
Defined.

(** *** Ranking *)

Section RankingFacts.
Variable tfidf_cosine : list string -> result Q.
Variable resume : resume_data.

Lemma ranked_listing (j : job) :
  listing (ranked tfidf_cosine resume j) = listing j /\
  description (ranked tfidf_cosine resume j) = description j /\
  is_suitable (ranked tfidf_cosine resume j) =
  fge (match_score (ranked tfidf_cosine resume j)) (3 # 10)%Q.
Proof. repeat split. Qed.

(** X12.  Ranking keeps every job and what discovery recorded about it,
    stores the verdict at the default threshold 0.3 ([is_suitable] is
    [match_score >= 0.3]), and returns the jobs in descending order of
    match score, jobs of equal score in their input order. *)
Theorem rank_jobs_sorts_by_score (jobs : list job) :
  let scored := map (ranked tfidf_cosine resume) jobs in
  let result := rank_jobs tfidf_cosine resume jobs in
  Permutation result scored /\
  map listing scored = map listing jobs /\
  map description scored = map description jobs /\
  Forall (fun j => is_suitable j = fge (match_score j) (3 # 10)%Q) result /\
  descending result /\
  forall q, ties q result = ties q scored.
Proof.
  cbv zeta. unfold rank_jobs.
  split; [apply sorted_reverse_perm|].
  split; [rewrite map_map; apply map_ext; intros j; apply ranked_listing|].
  split; [rewrite map_map; apply map_ext; intros j; apply ranked_listing|].
  split; [|split].
  - eapply Permutation_Forall; [symmetry; apply sorted_reverse_perm|].
    apply Forall_map, Forall_forall. intros j _. apply ranked_listing.
  - apply sorted_reverse_sorted.
  - intros q. apply sorted_reverse_ties.
Qed.

End RankingFacts.

End JobMatcherMoreFacts.

(** ** Discovery *)

Module DiscoveryFacts.
Import Automation AutomationMore.

Section Discovery.
Variable W : Type.
Variable card : Type.
Variable scroll_height : W -> nat.
Variable scroll_to_bottom : W -> W.
Variable job_cards : W -> option (list card).
Variable title_link : card -> option (string * string).
Variable company_text : card -> option string.
Variable location_text : card -> option string.
Variable easy_apply_marker : card -> bool.

Local Abbreviation scroll_loop := (scroll_loop W scroll_height scroll_to_bottom).
Local Abbreviation scroll_to_load_jobs :=
  (scroll_to_load_jobs W scroll_height scroll_to_bottom).
Local Abbreviation scrolled := (scrolled W scroll_to_bottom).
Local Abbreviation job_info :=
  (job_info card title_link company_text location_text easy_apply_marker).
Local Abbreviation all_jobs_of :=
  (all_jobs_of card title_link company_text location_text
               easy_apply_marker).
Local Abbreviation get_all_job_listings :=
  (get_all_job_listings W card scroll_height scroll_to_bottom job_cards
                        title_link company_text location_text
                        easy_apply_marker).
Local Abbreviation settles := (settles W scroll_height scroll_to_bottom).
Local Abbreviation links := (links card title_link).

Lemma scrolled_shift (n : nat) (w : W) :
  scrolled n (scroll_to_bottom w) = scrolled (S n) w.
Proof. unfold AutomationMore.scrolled. now rewrite Nat.iter_succ_r. Qed.

Lemma scroll_loop_spec (fuel : nat) :
  forall w,
    match scroll_loop fuel (scroll_height w) w with
    | Some w' =>
        exists n,
          n < fuel /\ w' = scrolled (S n) w /\ settles w n /\
          forall k, k < n -> ~ settles w k
    | None => forall k, k < fuel -> ~ settles w k
    end.
Proof.
  induction fuel as [|fuel IH]; intros w; cbn [AutomationMore.scroll_loop].
  - intros k Hk. lia.
  - cbv zeta.
    destruct (scroll_height (scroll_to_bottom w) =? scroll_height w) eqn:E.
    + apply Nat.eqb_eq in E. exists 0. repeat split; [lia | exact E|].
      intros k Hk. lia.
    + apply Nat.eqb_neq in E. specialize (IH (scroll_to_bottom w)).
      destruct (scroll_loop fuel (scroll_height (scroll_to_bottom w))
                            (scroll_to_bottom w)) as [w'|].
      * destruct IH as (n & Hn & -> & Hset & Hbefore).
        exists (S n). unfold AutomationMore.settles in *.
        rewrite !scrolled_shift in Hset. rewrite scrolled_shift.
        repeat split; [lia | exact Hset|].
        intros [|k] Hk; [exact E|].
        specialize (Hbefore k ltac:(lia)).
        now rewrite !scrolled_shift in Hbefore.
      * intros [|k] Hk; [exact E|].
        specialize (IH k ltac:(lia)). unfold AutomationMore.settles in *.
        now rewrite !scrolled_shift in IH.
Qed.

(** X13.  The scroll loop returns with the first scroll that leaves the
    height of the page unchanged, and returns the session after that
    scroll; within a given number of passes it is still running exactly
    when every scroll so far has changed the height. *)
Theorem scroll_stops_at_first_settled_height (fuel : nat) (w : W) :
  match scroll_to_load_jobs fuel w with
  | Some w' =>
      exists n,
        n < fuel /\ w' = scrolled (S n) w /\ settles w n /\
        forall k, k < n -> ~ settles w k
  | None => forall k, k < fuel -> ~ settles w k
  end.
Proof. apply scroll_loop_spec. Qed.

(** X14.  On a page whose height changes with every scroll the scroll
    loop never returns, however many passes it is given, and so neither
    does the discovery of the listings: the loop has no cap of its own. *)
Theorem scroll_never_returns_on_a_growing_page (w : W) :
  (forall n, ~ settles w n) ->
  forall fuel,
    scroll_to_load_jobs fuel w = None /\
    get_all_job_listings fuel w = None.
Proof.
  intros Hgrow fuel.
  assert (Hnone : scroll_to_load_jobs fuel w = None).
  { pose proof (scroll_loop_spec fuel w) as H.
    unfold AutomationMore.scroll_to_load_jobs.
    destruct (scroll_loop fuel (scroll_height w) w) as [w'|];
      [|reflexivity].
    destruct H as (n & _ & _ & Hset & _). now apply Hgrow in Hset. }
  split; [exact Hnone|].
  unfold AutomationMore.get_all_job_listings. now rewrite Hnone.
Qed.

Lemma all_jobs_of_spec (cards : list card) :
  map url (all_jobs_of cards) = map fst (links cards) /\
  map title (all_jobs_of cards) =
  map (fun l => ResumeParserMore.strip (snd l)) (links cards) /\
  Forall unscored (all_jobs_of cards) /\
  List.length (all_jobs_of cards) <= List.length cards.
Proof.
  induction cards as [|c rest (Hu & Ht & Hf & Hl)];
    cbn [AutomationMore.all_jobs_of AutomationMore.links].
  - repeat split; constructor.
  - unfold AutomationMore.job_info.
    destruct (title_link c) as [[job_url link_text]|].
    + cbn [map List.length url title fst snd]. rewrite Hu, Ht.
      repeat split; [|lia]. constructor; [|exact Hf]. repeat split.
    + cbn [List.length]. repeat split; try assumption. lia.
Qed.

(** X15.  Discovery yields one listing per card that has a title link,
    in page order, with the link's address as URL and its stripped text
    as title; a card without a title link is skipped and the cards after
    it are still read.  Every listing starts unscored (empty description,
    score 0, not suitable), and when the cards cannot be located at all
    the result is the empty list. *)
Theorem discovery_skips_only_failed_cards (fuel : nat) (w : W) :
  match get_all_job_listings fuel w with
  | None => scroll_to_load_jobs fuel w = None
  | Some (jobs, w') =>
      scroll_to_load_jobs fuel w = Some w' /\
      Forall unscored jobs /\
      match job_cards w' with
      | None => jobs = []
      | Some cards =>
          map url jobs = map fst (links cards) /\
          map title jobs =
          map (fun l => ResumeParserMore.strip (snd l)) (links cards) /\
          List.length jobs <= List.length cards
      end
  end.
Proof.
  unfold AutomationMore.get_all_job_listings.
  destruct (scroll_to_load_jobs fuel w) as [w'|]; [|reflexivity].
  destruct (job_cards w') as [cards|] eqn:Hcards; cbv beta iota;
    rewrite Hcards.
  - destruct (all_jobs_of_spec cards) as (Hu & Ht & Hf & Hl).
    split; [reflexivity|]. split; [exact Hf|].
    split; [exact Hu|]. split; [exact Ht | exact Hl].
  - split; [reflexivity|]. split; [constructor | reflexivity].
Qed.

End Discovery.

Lemma growing_page_never_settles :
  scroll_to_load_jobs GrowingPage.session GrowingPage.scroll_height
                      GrowingPage.scroll_to_bottom 1000 100 = None.
Proof.
  apply (scroll_never_returns_on_a_growing_page
           GrowingPage.session unit GrowingPage.scroll_height
           GrowingPage.scroll_to_bottom (fun _ => None) (fun _ => None)
           (fun _ => None) (fun _ => None) (fun _ => false) 100).
  intros n. unfold settles, scrolled, GrowingPage.scroll_height,
              GrowingPage.scroll_to_bottom.
  cbn [Nat.iter]. intros H. apply (Nat.neq_succ_diag_l _ H).
Defined.

End DiscoveryFacts.

(** ** The wizard, continued *)

Module WizardMoreFacts.
Import Automation AutomationMore.

Section Clicks.
Variable W : Type.
Variable find_button : control -> W -> lookup.
Variable click : control -> W -> bool * W.
Variable success_shown : W -> bool.

Local Abbreviation body := (body W find_button click success_shown).
Local Abbreviation while_loop :=
  (while_loop W find_button click success_shown).

Lemma steps_forward_app (a b : list control) :
  steps_forward (a ++ b) = steps_forward a + steps_forward b.
Proof. unfold steps_forward. now rewrite filter_app, length_app. Qed.

(** What one pass adds to the clicks: at most Submit followed by one of
    Next and Review, and nothing but Submit when the pass ends the run
    with an answer. *)
Lemma body_clicks attempt w cs fl w' cs' :
  body attempt w cs = (fl, w', cs') ->
  exists added,
    cs' = cs ++ added /\ List.length added <= 2 /\
    steps_forward added <= 1 /\
    match fl with
    | Return _ | Break => steps_forward added = 0
    | Continue attempt' => attempt' = attempt + 1
    | Raise => True
    end.
Proof.
  unfold Automation.body, after_submit, click_and_continue,
    no_such_element.
  repeat match goal with
         | |- context [match ?x with _ => _ end] => destruct x eqn:?
         end;
    intros E; inversion E; subst;
    first
      [ exists (@nil control); rewrite app_nil_r;
        repeat split; cbn; lia
      | exists [Submit]; repeat split; cbn; lia
      | exists [Next]; repeat split; cbn; lia
      | exists [Review]; repeat split; cbn; lia
      | exists [Submit; Next]; rewrite <- app_assoc;
        repeat split; cbn; lia
      | exists [Submit; Review]; rewrite <- app_assoc;
        repeat split; cbn; lia ].
Qed.

Lemma while_loop_clicks (fuel : nat) :
  forall attempt w n cs r,
    while_loop fuel attempt w n cs = Some r ->
    steps_forward cs <= attempt ->
    List.length (clicks r) + 2 * n <= List.length cs + 2 * passes r /\
    steps_forward (clicks r) <= Nat.max attempt max_attempts /\
    (if answer r then steps_forward (clicks r) < max_attempts else True).
Proof.
  induction fuel as [|fuel IH]; intros attempt w n cs r;
    cbn [Automation.while_loop];
    destruct (attempt <? max_attempts) eqn:Hlt;
    try discriminate.
  - intros E Hs. injection E as <-. cbn [clicks passes answer].
    repeat split; lia.
  - apply Nat.ltb_lt in Hlt.
    destruct (body attempt w cs) as [[fl w'] cs'] eqn:Hb.
    destruct (body_clicks _ _ _ _ _ _ Hb)
      as (added & -> & Hlen & Hsteps & Hfl).
    destruct fl as [b| |attempt'|]; intros E Hs;
      try (injection E as <-; cbn [clicks passes answer];
           rewrite steps_forward_app, length_app;
           repeat split; try lia;
           destruct b; try exact I; lia).
    subst attempt'.
    destruct (IH _ _ _ _ _ E) as (Hc & Hmax & Hans);
      [rewrite steps_forward_app; lia|].
    rewrite length_app in Hc. repeat split; try lia. exact Hans.
  - intros E Hs. injection E as <-. cbn [clicks passes answer].
    repeat split; lia.
Qed.

(** X16.  In every browser one run of the wizard issues at most two
    clicks per pass, hence at most ten, of which at most five are on Next
    or Review; and a run that ends with [True] has clicked Next or Review
    at most four times, so a wizard that needs five or more such steps
    before its Submit is never completed. *)
Theorem wizard_clicks_are_bounded (w : W) :
  exists r,
    handle_application_process_in W find_button click success_shown
                                  max_attempts w = Some r /\
    List.length (clicks r) <= 2 * passes r /\
    List.length (clicks r) <= 10 /\
    steps_forward (clicks r) <= 5 /\
    (if answer r then steps_forward (clicks r) <= 4 else True).
Proof.
  destruct (WizardFacts.wizard_returns_within_cap
              W find_button click success_shown 0 w)
    as (r & Hr & _ & Hp & _).
  rewrite Nat.add_0_r in Hr. exists r. split; [exact Hr|].
  unfold handle_application_process_in in Hr.
  destruct (while_loop_clicks _ _ _ _ _ _ Hr) as (Hc & Hmax & Hans);
    [cbn; lia|].
  unfold max_attempts in *. cbn [List.length] in Hc.
  repeat split; try lia.
  destruct (answer r); [lia | exact I].
Qed.

End Clicks.

End WizardMoreFacts.

(** ** The bookkeeping of a run, continued *)

Module RunMoreFacts.
Import Automation AutomationFacts AutomationMore.

(** *** Sublists *)

Lemma sublist_nil_l {A} (l : list A) : sublist [] l.
Proof. induction l; constructor; assumption. Qed.

Lemma sublist_Forall {A} (P : A -> Prop) (a b : list A) :
  sublist a b -> Forall P b -> Forall P a.
Proof.
  induction 1; intros Hb; [constructor | |];
    inversion Hb; subst; [|constructor]; auto.
Qed.

Lemma sublist_length {A} (a b : list A) :
  sublist a b -> List.length a <= List.length b.
Proof. induction 1; cbn [List.length]; lia. Qed.

Lemma sublist_sorted {A} (R : A -> A -> Prop) (a b : list A) :
  sublist a b -> StronglySorted R b -> StronglySorted R a.
Proof.
  induction 1; intros Hb; [constructor | |];
    apply StronglySorted_inv in Hb as [Hs Hf]; auto.
  constructor; [auto|]. eapply sublist_Forall; eassumption.
Qed.

Section Loop.
Variable W : Type.
Variable find_button : control -> W -> lookup.
Variable click : control -> W -> bool * W.
Variable success_shown : W -> bool.
Variable navigate : string -> W -> bool * W.
Variable easy_apply_clickable : W -> bool.
Variable easy_apply_by_text : W -> bool.
Variable click_easy_apply : W -> bool * W.
Variable resume : option ResumeParser.resume_data.

Local Abbreviation apply_to_job :=
  (apply_to_job W find_button click success_shown navigate
                easy_apply_clickable easy_apply_by_text click_easy_apply).
Local Abbreviation apply_loop :=
  (apply_loop W find_button click success_shown navigate
              easy_apply_clickable easy_apply_by_text click_easy_apply
              resume).

Local Abbreviation skipped := (skipped resume).

Ltac effect_done failed :=
  cbn [suitable_jobs unsuitable_jobs applied_jobs failed_jobs
       append_applied append_failed with_session];
  rewrite ?app_nil_r;
  split; [reflexivity|]; split; [reflexivity|]; split; [reflexivity|];
  exists failed; rewrite ?app_nil_r;
  split;
  [reflexivity
  | first [apply sublist_nil_l | apply sublist_keep, sublist_nil]].

(** One attempt appends the listing to [applied_jobs] exactly when it
    answers [True], otherwise to [failed_jobs] or nowhere, and touches
    nothing else. *)
Lemma apply_to_job_effect (j : job) (st : state W) ok st' :
  apply_to_job j st = (ok, st') ->
  suitable_jobs W st' = suitable_jobs W st /\
  unsuitable_jobs W st' = unsuitable_jobs W st /\
  applied_jobs W st' = applied_jobs W st ++ (if ok then [j] else []) /\
  exists failed,
    failed_jobs W st' = failed_jobs W st ++ failed /\
    sublist failed (if ok then [] else [j]).
Proof.
  unfold Automation.apply_to_job.
  destruct (navigate (url j) (session W st)) as [[|] w1].
  - destruct (easy_apply_clickable w1 || easy_apply_by_text w1).
    + destruct (click_easy_apply w1) as [[|] w2].
      * destruct (handle_application_process W find_button click
                                             success_shown w2)
          as [[|] w3]; intros E; injection E as <- <-.
        -- effect_done (@nil job).
        -- effect_done [j].
      * intros E; injection E as <- <-. effect_done [j].
    + intros E; injection E as <- <-. effect_done (@nil job).
  - intros E; injection E as <- <-. effect_done [j].
Qed.

(** What the loop appends to the collections. *)
Lemma apply_loop_trace (max_applications : Z) (jobs : list job) :
  forall sent (st : state W),
  exists applied failed unsuitable,
    let st' := apply_loop max_applications jobs sent st in
    applied_jobs W st' = applied_jobs W st ++ applied /\
    suitable_jobs W st' = suitable_jobs W st ++ applied /\
    failed_jobs W st' = failed_jobs W st ++ failed /\
    unsuitable_jobs W st' = unsuitable_jobs W st ++ unsuitable /\
    sublist applied jobs /\ sublist failed jobs /\
    sublist unsuitable jobs /\
    (Z.of_nat (sent + List.length applied)
     <= Z.max (Z.of_nat sent) max_applications)%Z /\
    ((max_applications <= Z.of_nat sent)%Z ->
     applied = [] /\ failed = [] /\ unsuitable = []) /\
    Forall (fun j => skipped j = false) (applied ++ failed) /\
    Forall (fun j => skipped j = true) unsuitable /\
    List.length applied + List.length failed + List.length unsuitable
    <= List.length jobs.
Proof.
  induction jobs as [|j rest IH]; intros sent st; cbn zeta.
  - exists [], [], []. cbn [Automation.apply_loop]. rewrite !app_nil_r.
    repeat split; try constructor. cbn [List.length]. lia.
  - cbn [Automation.apply_loop].
    destruct (max_applications <=? Z.of_nat sent)%Z eqn:Hcap.
    + apply Z.leb_le in Hcap.
      exists [], [], []. rewrite !app_nil_r.
      repeat split; try apply sublist_nil_l; try constructor;
        cbn [List.length]; lia.
    + apply Z.leb_gt in Hcap.
      fold (AutomationMore.skipped resume j).
      destruct (skipped j) eqn:Hskip.
      * destruct (IH sent (append_unsuitable W st j))
          as (a & f & u & Ha & Hs & Hf & Hu & Sa & Sf & Su & Hlen & _
              & Hatt & Hun & Hsum).
        cbn zeta in *.
        cbn [applied_jobs suitable_jobs failed_jobs unsuitable_jobs
             append_unsuitable] in Ha, Hs, Hf, Hu.
        exists a, f, (j :: u).
        rewrite Ha, Hs, Hf, Hu, <- app_assoc.
        repeat split; try (now constructor); try assumption;
          try (cbn [List.length]; lia).
      * destruct (apply_to_job j st) as [ok st1] eqn:Hjob.
        destruct (apply_to_job_effect j st ok st1 Hjob)
          as (Hs1 & Hu1 & Ha1 & f1 & Hf1 & Sf1).
        destruct ok.
        -- destruct (IH (sent + 1) (append_suitable W st1 j))
             as (a & f & u & Ha & Hs & Hf & Hu & Sa & Sf & Su & Hlen & _
                 & Hatt & Hun & Hsum).
           cbn zeta in *.
           cbn [applied_jobs suitable_jobs failed_jobs unsuitable_jobs
                append_suitable] in Ha, Hs, Hf, Hu.
           inversion Sf1; subst. rewrite app_nil_r in Hf1.
           exists (j :: a), f, u.
           rewrite Ha, Hs, Hf, Hu, Ha1, Hs1, Hf1, Hu1, <- !app_assoc.
           repeat split; try (now constructor); try assumption;
             try (cbn [List.length]; lia).
        -- destruct (IH sent st1)
             as (a & f & u & Ha & Hs & Hf & Hu & Sa & Sf & Su & Hlen & _
                 & Hatt & Hun & Hsum).
           cbn zeta in *.
           rewrite app_nil_r in Ha1.
           pose proof (sublist_length _ _ Sf1) as Hf1len.
           exists a, (f1 ++ f), u.
           rewrite Ha, Hs, Hf, Hu, Ha1, Hs1, Hf1, Hu1, <- ?app_assoc.
           repeat split; try (now constructor); try assumption;
             try (rewrite ?length_app; cbn [List.length] in *; lia).
           ++ inversion Sf1 as [|? ? ? Sn|? ? ? Sn]; subst;
                inversion Sn; subst; cbn [app]; now constructor.
           ++ apply Forall_app in Hatt as [Hatt_a Hatt_f].
              apply Forall_app. split; [exact Hatt_a|].
              apply Forall_app. split; [|exact Hatt_f].
              inversion Sf1 as [|? ? ? Sn|? ? ? Sn]; subst;
                inversion Sn; subst; repeat constructor. exact Hskip.
Qed.

End Loop.

Section Categorized.
Variable W : Type.
Variable get_job_description : string -> W -> string * W.
Variable tfidf_cosine : list string -> result Q.
Variable resume : option ResumeParser.resume_data.
Variable min_match_score : Q.

Local Abbreviation analyze_and_categorize_jobs :=
  (analyze_and_categorize_jobs W get_job_description tfidf_cosine
                               resume min_match_score).

(** The two categories together have as many listings as were
    discovered, and with a resume the Easy Apply category is in descending
    order of match score. *)
Lemma categorized_shape (jobs : list job) (w : W) :
  let '(easy, non_easy, _) := analyze_and_categorize_jobs jobs w in
  List.length easy + List.length non_easy = List.length jobs /\
  (if resume_given resume then descending easy else True).
Proof.
  pose proof (analyze_all_listing W get_job_description tfidf_cosine
                                  resume min_match_score jobs w) as Hl.
  apply (f_equal (@List.length _)) in Hl. rewrite !length_map in Hl.
  destruct resume as [rd|] eqn:Hr.
  - rewrite (categorized_with_resume W get_job_description tfidf_cosine
                                     _ min_match_score jobs w rd eq_refl).
    split; [|apply sorted_reverse_sorted].
    rewrite <- Hl, <- length_app.
    apply Permutation_length.
    rewrite !sorted_reverse_perm. apply partition_perm.
  - destruct (categorized_without_resume
                W get_job_description tfidf_cosine _ min_match_score
                jobs w eq_refl) as [_ Hc].
    rewrite Hc. split; [|exact I].
    rewrite <- length_app. apply Permutation_length, partition_perm.
Qed.

End Categorized.

Section WholeRun.
Variable W : Type.
Variable find_button : control -> W -> lookup.
Variable click : control -> W -> bool * W.
Variable success_shown : W -> bool.
Variable navigate : string -> W -> bool * W.
Variable easy_apply_clickable : W -> bool.
Variable easy_apply_by_text : W -> bool.
Variable click_easy_apply : W -> bool * W.
Variable get_job_description : string -> W -> string * W.
Variable tfidf_cosine : list string -> result Q.
Variable resume : option ResumeParser.resume_data.
Variable min_match_score : Q.

Local Abbreviation run :=
  (run W find_button click success_shown navigate easy_apply_clickable
       easy_apply_by_text click_easy_apply get_job_description
       tfidf_cosine resume min_match_score).
Local Abbreviation skipped := (skipped resume).

(** What a run on a fresh object leaves in the collections. *)
Lemma run_trace (all_jobs : list job) (max_applications : Z) (w0 : W) :
  let st := run all_jobs max_applications (initial W w0) in
  suitable_jobs W st = applied_jobs W st /\
  sublist (applied_jobs W st) (easy_apply_jobs W st) /\
  sublist (failed_jobs W st) (easy_apply_jobs W st) /\
  sublist (unsuitable_jobs W st) (easy_apply_jobs W st) /\
  (Z.of_nat (List.length (applied_jobs W st))
   <= Z.max 0 max_applications)%Z /\
  ((max_applications <= 0)%Z ->
   applied_jobs W st = [] /\ failed_jobs W st = [] /\
   unsuitable_jobs W st = []) /\
  Forall (fun j => skipped j = false)
         (applied_jobs W st ++ failed_jobs W st) /\
  Forall (fun j => skipped j = true) (unsuitable_jobs W st) /\
  List.length (easy_apply_jobs W st) +
  List.length (non_easy_apply_jobs W st) = List.length all_jobs /\
  (if resume_given resume then descending (easy_apply_jobs W st)
   else True) /\
  List.length (applied_jobs W st) + List.length (failed_jobs W st) +
  List.length (unsuitable_jobs W st) <= List.length (easy_apply_jobs W st).
Proof.
  cbv zeta. rewrite run_unfold.
  pose proof (categorized_shape W get_job_description tfidf_cosine resume
                                min_match_score all_jobs w0) as Hshape.
  destruct (analyze_and_categorize_jobs _ _ _ _ _ all_jobs w0)
    as [[easy non_easy] w].
  set (st1 := with_categories W (with_session W (initial W w0) w)
                              easy non_easy).
  destruct (apply_loop_outcomes W find_button click success_shown navigate
                                easy_apply_clickable easy_apply_by_text
                                click_easy_apply resume max_applications
                                easy 0 st1)
    as (He & Hn & _).
  destruct (apply_loop_trace W find_button click success_shown navigate
                             easy_apply_clickable easy_apply_by_text
                             click_easy_apply resume max_applications
                             easy 0 st1)
    as (a & f & u & Ha & Hs & Hf & Hu & Sa & Sf & Su & Hlen & Hzero
        & Hatt & Hun & Hsum).
  cbv zeta in Ha, Hs, Hf, Hu.
  rewrite He, Hn, Ha, Hs, Hf, Hu.
  cbn [st1 with_categories with_session initial applied_jobs
       suitable_jobs failed_jobs unsuitable_jobs easy_apply_jobs
       non_easy_apply_jobs app].
  destruct Hshape as [Hcount Hdesc].
  repeat split; try assumption; apply Hzero; lia.
Qed.

(** X17.  [max_applications] may be any integer.  A run never records
    more applied jobs than [max_applications], or than zero when it is
    negative; and with [max_applications] zero or negative it attempts
    nothing: no listing is applied to, failed or skipped. *)
Theorem applications_never_exceed_the_cap
        (all_jobs : list job) (max_applications : Z) (w0 : W) :
  let st := run all_jobs max_applications (initial W w0) in
  (Z.of_nat (List.length (applied_jobs W st))
   <= Z.max 0 max_applications)%Z /\
  ((max_applications <= 0)%Z ->
   applied_jobs W st = [] /\ failed_jobs W st = [] /\
   unsuitable_jobs W st = []).
Proof.
  destruct (run_trace all_jobs max_applications w0)
    as (_ & _ & _ & _ & Hcap & Hzero & _).
  split; [exact Hcap | exact Hzero].
Qed.

(** X18.  After a run [suitable_jobs] is the same list as
    [applied_jobs]: a listing is counted as suitable only when its
    application was submitted, so the report's number of suitable jobs is
    its number of applications sent, and neither exceeds the number of
    Easy Apply listings. *)
Theorem suitable_jobs_are_the_applied_jobs
        (all_jobs : list job) (max_applications : Z) (w0 : W) :
  let st := run all_jobs max_applications (initial W w0) in
  suitable_jobs W st = applied_jobs W st /\
  List.length (suitable_jobs W st) <= List.length (easy_apply_jobs W st).
Proof.
  destruct (run_trace all_jobs max_applications w0)
    as (Hs & Sa & _).
  cbv zeta. rewrite Hs. split; [reflexivity|].
  now apply sublist_length.
Qed.

(** X19.  With a resume, every listing that was applied to or that
    failed had been judged suitable and every skipped listing had been
    judged unsuitable; without a resume no listing is skipped. *)
Theorem only_suitable_listings_are_attempted
        (all_jobs : list job) (max_applications : Z) (w0 : W) :
  let st := run all_jobs max_applications (initial W w0) in
  if resume_given resume then
    Forall (fun j => is_suitable j = true)
           (applied_jobs W st ++ failed_jobs W st) /\
    Forall (fun j => is_suitable j = false) (unsuitable_jobs W st)
  else unsuitable_jobs W st = [].
Proof.
  destruct (run_trace all_jobs max_applications w0)
    as (_ & _ & _ & _ & _ & _ & Hatt & Hun & _).
  cbv zeta. unfold AutomationMore.skipped in Hatt, Hun.
  destruct (resume_given resume); cbn [andb] in Hatt, Hun.
  - split.
    + eapply Forall_impl; [|exact Hatt].
      intros j Hj. cbv beta in Hj. now apply negb_false_iff in Hj.
    + eapply Forall_impl; [|exact Hun].
      intros j Hj. cbv beta in Hj. now apply negb_true_iff in Hj.
  - destruct (unsuitable_jobs W _) as [|j l]; [reflexivity|].
    inversion Hun; discriminate.
Qed.

(** X20.  The applied, failed and skipped listings are each taken from
    the Easy Apply listings in their order, so with a resume the
    applications go out, and are recorded, best match first: each of the
    three collections is in descending order of match score. *)
Theorem outcomes_keep_the_ranking
        (all_jobs : list job) (max_applications : Z) (w0 : W) :
  let st := run all_jobs max_applications (initial W w0) in
  sublist (applied_jobs W st) (easy_apply_jobs W st) /\
  sublist (failed_jobs W st) (easy_apply_jobs W st) /\
  sublist (unsuitable_jobs W st) (easy_apply_jobs W st) /\
  (if resume_given resume
   then descending (applied_jobs W st) /\ descending (failed_jobs W st) /\
        descending (unsuitable_jobs W st)
   else True).
Proof.
  destruct (run_trace all_jobs max_applications w0)
    as (_ & Sa & Sf & Su & _ & _ & _ & _ & _ & Hdesc & _).
  cbv zeta. repeat split; try assumption.
  destruct (resume_given resume); [|exact I].
  unfold descending in *.
  repeat split; eapply sublist_sorted; eassumption.
Qed.

(** X21.  The counts of the report: the two categories together hold
    exactly as many listings as were discovered (the report's total), and
    the applied, failed and skipped listings together are never more than
    the Easy Apply listings. *)
Theorem report_counts_add_up
        (all_jobs : list job) (max_applications : Z) (w0 : W) :
  let st := run all_jobs max_applications (initial W w0) in
  List.length (easy_apply_jobs W st) +
  List.length (non_easy_apply_jobs W st) = List.length all_jobs /\
  List.length (applied_jobs W st) + List.length (failed_jobs W st) +
  List.length (unsuitable_jobs W st) <= List.length (easy_apply_jobs W st).
Proof.
  destruct (run_trace all_jobs max_applications w0)
    as (_ & _ & _ & _ & _ & _ & _ & _ & Hcount & _ & Hsum).
  cbv zeta. split; [exact Hcount | exact Hsum].
Qed.

End WholeRun.

(** On the one-click site a cap of -5 leaves the three collections
    empty. *)
Lemma negative_cap_attempts_nothing :
  let st := OneClick.run_without_resume
              [OneClick.job_a; OneClick.job_b; OneClick.job_c] (-5) in
  (-5 <= 0)%Z /\
  (Z.of_nat (List.length (applied_jobs _ st)) <= Z.max 0 (-5))%Z /\
  applied_jobs _ st = [] /\ failed_jobs _ st = [] /\
  unsuitable_jobs _ st = [].
Proof.
  assert (Hneg : (-5 <= 0)%Z) by lia.
  destruct (applications_never_exceed_the_cap
              OneClick.session OneClick.find_button OneClick.click
              OneClick.success_shown OneClick.navigate
              OneClick.easy_apply_clickable OneClick.easy_apply_by_text
              OneClick.click_easy_apply OneClick.get_job_description
              JobMatcher.half_similar None (3 # 10)%Q
              [OneClick.job_a; OneClick.job_b; OneClick.job_c] (-5)%Z
              false) as [Hcap Hnothing].
  split; [exact Hneg|]. split; [exact Hcap|]. exact (Hnothing Hneg).
Defined.

(** *** The success rate *)

(** X22.  The success rate of the summary lies between 0 and 100; it is
    0 when nothing was attempted (no division by zero) and 100 when
    something was sent and nothing failed. *)
Theorem success_rate_is_a_percentage (sent failed : nat) :
  (0 <= success_rate sent failed /\ success_rate sent failed <= 100)%Q /\
  success_rate 0 0 = 0%Q /\
  (success_rate (S sent) 0 == 100)%Q.
Proof.
  split; [|split].
  - unfold success_rate.
    destruct (0 <? sent + failed) eqn:E;
      [|split; unfold Qle; simpl; lia].
    apply Nat.ltb_lt in E.
    destruct (JobMatcherFacts.ratio_range sent (sent + failed))
      as [Hlo Hhi]; [lia | lia |].
    split.
    + apply Qmult_le_0_compat; [exact Hlo | unfold Qle; simpl; lia].
    + rewrite <- (Qmult_1_l 100) at 2.
      apply Qmult_le_compat_r; [exact Hhi | unfold Qle; simpl; lia].
  - reflexivity.
  - unfold success_rate. rewrite Nat.add_0_r. cbn [Nat.ltb Nat.leb].
    rewrite JobMatcherMoreFacts.ratio_full by lia. reflexivity.
Qed.

End RunMoreFacts.
